(** * portalocker.utils: locks with timeouts, a reentrant lock, a bounded
      semaphore and an atomic file writer

    A shallow embedding of [portalocker/utils.py].  Every method is a
    function over an explicit [World] (clock, file system, open file
    objects, advisory locks, random source, event trace) and the object
    it is called on; Python exceptions are values of [exn].  Durations and
    clock readings are integers (milliseconds). *)

From Stdlib Require Import ZArith Lia Ascii String.
From stdpp Require Import gmap strings list fin_maps pretty.

Local Open Scope Z_scope.
Local Open Scope string_scope.

(** ** Exceptions and call outcomes *)

Inductive exn : Type :=
| LockException (args : list exn_arg)
| AlreadyLocked (args : list exn_arg)
| AssertionError (msg : string)
| AttributeError (msg : string)
| TypeError (msg : string)
| ValueError (msg : string)
| FileNotFoundError (path : string)
| FileExistsError (path : string)
| IsADirectoryError (path : string)
| NotADirectoryError (path : string)
| PermissionError (path : string)
| OSError (msg : string)
| UserException (msg : string)
with exn_arg : Type :=
| ArgNone
| ArgInt (n : Z)
| ArgStr (s : string)
| ArgExn (e : exn).

(** The outcome of a call: a value, an exception, a call that never
    returns because the operating system blocks it, or a loop that was
    cut off by the fuel of the model. *)
Inductive result (A : Type) : Type :=
| Ok (a : A)
| Raise (e : exn)
| Blocked
| OutOfFuel.
Arguments Ok {A} a.
Arguments Raise {A} e.
Arguments Blocked {A}.
Arguments OutOfFuel {A}.

Definition terminated {A} (r : result A) : bool :=
  match r with Ok _ | Raise _ => true | _ => false end.

(** ** The world *)

(** What the program does to its environment, as the events of a trace.
    File objects are identified by natural numbers. *)
Inductive event : Type :=
| EvOpen (fh : nat) (filename mode : string)
| EvLock (fh : nat) (flags : Z) (acquired : bool)
| EvUnlock (fh : nat)
| EvClose (fh : nat)
| EvSleep (duration : N)
| EvSeek (fh : nat) (pos : Z)
| EvTruncate (fh : nat) (size : Z)
| EvWrite (fh : nat) (data : string)
| EvUnlink (path : string)
| EvRename (src dst : string).

(** The steps of the operating system that can fail for reasons the world
    does not record (permissions, a full disk, a file system without
    locks): a world lists the ones that do. *)
Inductive io_fault : Type :=
| FaultOpen | FaultLock | FaultFlush | FaultFsync | FaultRename | FaultRemove.

Definition io_fault_eqb (a b : io_fault) : bool :=
  match a, b with
  | FaultOpen, FaultOpen | FaultLock, FaultLock
  | FaultFlush, FaultFlush | FaultFsync, FaultFsync
  | FaultRename, FaultRename | FaultRemove, FaultRemove => true
  | _, _ => false
  end.

Record World : Type := mkWorld {
  now : Z;                              (* the monotonic clock *)
  tick : N;                             (* time one clock reading takes *)
  files : gmap string string;           (* regular files and their content *)
  dirs : gset string;                   (* directories *)
  handles : gmap nat string;            (* open file objects and their path *)
  next_handle : nat;
  flocks : gmap nat (string * bool);    (* advisory locks: path, exclusive *)
  rng : list nat;                       (* the random source *)
  faults : list io_fault;               (* I/O steps that fail *)
  atexit : list string;                 (* release hooks registered at exit *)
  trace : list event                    (* what happened, oldest first *)
}.

Definition set_now (t : Z) (w : World) : World :=
  mkWorld t (tick w) (files w) (dirs w) (handles w) (next_handle w)
          (flocks w) (rng w) (faults w) (atexit w) (trace w).
Definition set_files (f : gmap string string) (w : World) : World :=
  mkWorld (now w) (tick w) f (dirs w) (handles w) (next_handle w)
          (flocks w) (rng w) (faults w) (atexit w) (trace w).
Definition set_dirs (d : gset string) (w : World) : World :=
  mkWorld (now w) (tick w) (files w) d (handles w) (next_handle w)
          (flocks w) (rng w) (faults w) (atexit w) (trace w).
Definition set_handles (h : gmap nat string) (w : World) : World :=
  mkWorld (now w) (tick w) (files w) (dirs w) h (next_handle w)
          (flocks w) (rng w) (faults w) (atexit w) (trace w).
Definition set_next_handle (n : nat) (w : World) : World :=
  mkWorld (now w) (tick w) (files w) (dirs w) (handles w) n
          (flocks w) (rng w) (faults w) (atexit w) (trace w).
Definition set_flocks (l : gmap nat (string * bool)) (w : World) : World :=
  mkWorld (now w) (tick w) (files w) (dirs w) (handles w) (next_handle w)
          l (rng w) (faults w) (atexit w) (trace w).
Definition set_rng (r : list nat) (w : World) : World :=
  mkWorld (now w) (tick w) (files w) (dirs w) (handles w) (next_handle w)
          (flocks w) r (faults w) (atexit w) (trace w).
Definition set_atexit (a : list string) (w : World) : World :=
  mkWorld (now w) (tick w) (files w) (dirs w) (handles w) (next_handle w)
          (flocks w) (rng w) (faults w) a (trace w).
Definition log (e : event) (w : World) : World :=
  mkWorld (now w) (tick w) (files w) (dirs w) (handles w) (next_handle w)
          (flocks w) (rng w) (faults w) (atexit w) (trace w ++ [e]).

Definition faulty (f : io_fault) (w : World) : bool :=
  existsb (io_fault_eqb f) (faults w).

(** *** time *)

(** [current_time = time.monotonic]: the reading is the clock's value, and
    taking it lets [tick] pass. *)
Definition current_time (w : World) : World * Z :=
  (set_now (now w + Z.of_N (tick w)) w, now w).

(** [time.sleep]; the duration is not negative by its type. *)
Definition sleep (duration : N) (w : World) : World :=
  log (EvSleep duration) (set_now (now w + Z.of_N duration) w).

(** *** os.path.split *)

Fixpoint strip_slashes (rev_head : list ascii) : list ascii :=
  match rev_head with
  | c :: l => if Ascii.eqb c "/" then strip_slashes l else rev_head
  | [] => []
  end.

Fixpoint split_rev (rev_path tail : list ascii) : list ascii * list ascii :=
  match rev_path with
  | [] => ([], tail)
  | c :: l => if Ascii.eqb c "/" then (rev_path, tail) else split_rev l (c :: tail)
  end.

(** [os.path.split]: the part up to the last slash, without its trailing
    slashes unless it is slashes only, and the part after it. *)
Definition os_path_split (path : string) : string * string :=
  let '(rev_head, tail) := split_rev (rev (list_ascii_of_string path)) [] in
  let head := match strip_slashes rev_head with
              | [] => rev_head
              | l => l
              end in
  (string_of_list_ascii (rev head), string_of_list_ascii tail).

(** *** builtin open and file objects *)

Definition has_char (c : ascii) (s : string) : bool :=
  existsb (Ascii.eqb c) (list_ascii_of_string s).

Fixpoint distinct_chars (l : list ascii) : bool :=
  match l with
  | [] => true
  | c :: l' => negb (existsb (Ascii.eqb c) l') && distinct_chars l'
  end.

Definition valid_mode (mode : string) : bool :=
  forallb (fun c => has_char c "axrwb+t") (list_ascii_of_string mode)
  && distinct_chars (list_ascii_of_string mode)
  && negb (has_char "t" mode && has_char "b" mode)
  && (Nat.eqb 1 (Nat.b2n (has_char "x" mode) + Nat.b2n (has_char "r" mode)
                 + Nat.b2n (has_char "w" mode) + Nat.b2n (has_char "a" mode))).

Definition new_handle (path mode : string) (w : World) : World * result nat :=
  let fh := next_handle w in
  (log (EvOpen fh path mode)
       (set_next_handle (S fh) (set_handles (<[fh := path]> (handles w)) w)),
   Ok fh).

(** The directory a path lies in is there; a path without a directory
    part lies in the working directory. *)
Definition parent_exists (path : string) (w : World) : bool :=
  let parent := (os_path_split path).1 in
  String.eqb parent "" || bool_decide (parent ∈ dirs w).

(** Python's [open(path, mode)]: 'r' needs the file, 'w' creates or
    empties it, 'x' creates it and refuses an existing one, 'a' creates it
    when missing and keeps its content.  No mode creates a directory: a
    path in a directory that is not there is a [FileNotFoundError]. *)
Definition open (path mode : string) (w : World) : World * result nat :=
  if negb (valid_mode mode) then (w, Raise (ValueError "invalid mode"))
  else if bool_decide (path ∈ dirs w) then (w, Raise (IsADirectoryError path))
  else if negb (parent_exists path w) then (w, Raise (FileNotFoundError path))
  else if faulty FaultOpen w then (w, Raise (PermissionError path))
  else if has_char "r" mode then
    match files w !! path with
    | Some _ => new_handle path mode w
    | None => (w, Raise (FileNotFoundError path))
    end
  else if has_char "w" mode then
    new_handle path mode (set_files (<[path := ""]> (files w)) w)
  else if has_char "x" mode then
    match files w !! path with
    | Some _ => (w, Raise (FileExistsError path))
    | None => new_handle path mode (set_files (<[path := ""]> (files w)) w)
    end
  else
    match files w !! path with
    | Some _ => new_handle path mode w
    | None => new_handle path mode (set_files (<[path := ""]> (files w)) w)
    end.

(** [fh.close()]: the file object is gone, and with it the advisory lock
    it held.  Closing twice is harmless. *)
Definition close (fh : nat) (w : World) : World :=
  log (EvClose fh)
      (set_flocks (delete fh (flocks w)) (set_handles (delete fh (handles w)) w)).

Definition seek (fh : nat) (pos : Z) (w : World) : World :=
  log (EvSeek fh pos) w.

(** [fh.truncate(0)] on the file the object was opened on. *)
Definition truncate_file (fh : nat) (size : Z) (w : World) : World :=
  log (EvTruncate fh size)
      match handles w !! fh with
      | Some path =>
          match files w !! path with
          | Some _ => set_files (<[path := ""]> (files w)) w
          | None => w
          end
      | None => w
      end.

(** [fh.write(data)].  The data reaches the file at once: the buffer
    that a file object of [open] keeps until [flush] is not modelled,
    so a file may show here data that a reader of the real file sees
    only after the flush. *)
Definition write (fh : nat) (data : string) (w : World) : World :=
  log (EvWrite fh data)
      match handles w !! fh with
      | Some path =>
          match files w !! path with
          | Some old => set_files (<[path := old +:+ data]> (files w)) w
          | None => set_files (<[path := data]> (files w)) w
          end
      | None => w
      end.

(** *** constants and the advisory lock primitive *)

(** Modelled from the spec: the module [constants] is not among the
    sources; the flags are a bitmask of SHARED / EXCLUSIVE and
    NON_BLOCKING, with the values of flock(2). *)
Definition LOCK_SH : Z := 1.
Definition LOCK_EX : Z := 2.
Definition LOCK_NB : Z := 4.

Definition LOCK_FAILED : Z := 1.

(** Another file object holds a lock on [path] that excludes the
    requested one. *)
Definition conflicts (locks : gmap nat (string * bool))
    (fh : nat) (path : string) (exclusive : bool) : bool :=
  existsb (fun e : nat * (string * bool) =>
             negb (Nat.eqb e.1 fh) && String.eqb e.2.1 path
             && (exclusive || e.2.2))
          (map_to_list locks).

Definition contention_error : exn :=
  LockException [ArgInt LOCK_FAILED; ArgStr "Resource temporarily unavailable"].

(** Any other failure of the primitive; it is no [LockException]. *)
Definition fatal_error : exn := OSError "No locks available".

(** Modelled from the spec: [portalocker.lock] is not among the sources.
    Its contract is [lock(handle, flags) -> ok | ContentionError |
    FatalError]: a non-blocking request on a file locked incompatibly
    through another file object fails with a contention error (a
    [LockException]); a blocking one waits; a closed file object, or a
    file system that cannot take the lock, is a fatal error, which is no
    [LockException]. *)
Definition portalocker_lock (fh : nat) (flags : Z) (w : World)
    : World * result unit :=
  match handles w !! fh with
  | None => (w, Raise (ValueError "I/O operation on closed file"))
  | Some path =>
      let exclusive := Z.testbit flags 1 in
      if faulty FaultLock w
      then (log (EvLock fh flags false) w, Raise fatal_error)
      else if conflicts (flocks w) fh path exclusive then
        if Z.testbit flags 2
        then (log (EvLock fh flags false) w, Raise contention_error)
        else (w, Blocked)
      else
        (log (EvLock fh flags true)
             (set_flocks (<[fh := (path, exclusive)]> (flocks w)) w),
         Ok tt)
  end.

(** Modelled from the spec: [portalocker.unlock] is not among the
    sources; [unlock(handle) -> ok]. *)
Definition portalocker_unlock (fh : nat) (w : World) : World :=
  log (EvUnlock fh) (set_flocks (delete fh (flocks w)) w).

(** ** utils.py *)

(** [DEFAULT_TIMEOUT = 5] and [DEFAULT_CHECK_INTERVAL = 0.25] seconds, in
    milliseconds. *)
Definition DEFAULT_TIMEOUT : Z := 5000.
Definition DEFAULT_CHECK_INTERVAL : N := 250.
Definition LOCK_METHOD : Z := Z.lor LOCK_EX LOCK_NB.

(** *** class Lock *)

Module Lock.

(** The attributes [__init__] sets.  [timeout] may be [None];
    [check_interval] goes to [time.sleep], which takes no negative
    number. *)
Record t : Type := mk {
  fh : option nat;
  filename : string;
  mode : string;
  truncate : bool;
  timeout : option Z;
  check_interval : N;
  fail_when_locked : bool;
  flags : Z;
  file_open_kwargs : list (string * string)
}.

Definition set_fh (h : option nat) (self : t) : t :=
  mk h (filename self) (mode self) (truncate self) (timeout self)
     (check_interval self) (fail_when_locked self) (flags self)
     (file_open_kwargs self).

(** [mode.replace('w', 'a')] *)
Definition replace_w_a (mode : string) : string :=
  string_of_list_ascii
    (map (fun c : ascii => if Ascii.eqb c "w" then "a"%char else c)
         (list_ascii_of_string mode)).

Definition __init__ (filename mode : string) (timeout : option Z)
    (check_interval : N) (fail_when_locked : bool) (flags : Z)
    (file_open_kwargs : list (string * string)) : t :=
  let '(truncate, mode) :=
    if has_char "w" mode then (true, replace_w_a mode) else (false, mode) in
  mk None filename mode truncate timeout check_interval fail_when_locked
     flags file_open_kwargs.

(** [Lock(filename)] with the defaults of the signature. *)
Definition new (filename : string) : t :=
  __init__ filename "a" (Some DEFAULT_TIMEOUT) DEFAULT_CHECK_INTERVAL false
           LOCK_METHOD [].

Definition _get_fh (self : t) (w : World) : World * result nat :=
  open (filename self) (mode self) w.

Definition _get_lock (self : t) (fh : nat) (w : World) : World * result nat :=
  match portalocker_lock fh (flags self) w with
  | (w', Ok _) => (w', Ok fh)
  | (w', Raise e) => (w', Raise e)
  | (w', Blocked) => (w', Blocked)
  | (w', OutOfFuel) => (w', OutOfFuel)
  end.

Definition _prepare_fh (self : t) (fh : nat) (w : World) : World * nat :=
  if truncate self then (truncate_file fh 0 (seek fh 0 w), fh) else (w, fh).

(** [try_close], the local helper of [acquire]. *)
Definition try_close (fh : nat) (w : World) : World := close fh w.

(** The [while timeout_end > current_time(): ... else: ...] loop of
    [acquire]; [exception] is the last contention error seen. *)
Fixpoint acquire_loop (fuel : nat) (self : t) (fh : nat) (timeout_end : Z)
    (check_interval : N) (fail_when_locked : bool)
    (exception : exn_arg) (w : World) : World * result nat :=
  match fuel with
  | O => (w, OutOfFuel)
  | S fuel' =>
      let '(w1, t) := current_time w in
      if timeout_end >? t then
        match _get_lock self fh w1 with
        | (w2, Ok fh') => (w2, Ok fh')
        | (w2, Raise (LockException args)) =>
            let exc := LockException args in
            if fail_when_locked
            then (try_close fh w2, Raise (AlreadyLocked [ArgExn exc]))
            else acquire_loop fuel' self fh timeout_end check_interval
                   fail_when_locked (ArgExn exc) (sleep check_interval w2)
        | (w2, r) => (w2, r)
        end
      else (try_close fh w1, Raise (LockException [exception]))
  end.

Definition acquire (fuel : nat) (timeout : option Z)
    (check_interval : option N) (fail_when_locked : option bool)
    (self : t) (w : World) : t * World * result nat :=
  let timeout := match timeout with None => Lock.timeout self | Some _ => timeout end in
  let timeout := match timeout with None => 0 | Some t => t end in
  let check_interval :=
    match check_interval with None => Lock.check_interval self | Some c => c end in
  let fail_when_locked :=
    match fail_when_locked with
    | None => Lock.fail_when_locked self | Some b => b end in
  match fh self with
  | Some fh => (self, w, Ok fh)
  | None =>
      match _get_fh self w with
      | (w1, Ok fh) =>
          let '(w2, t0) := current_time w1 in
          let timeout_end := t0 + timeout in
          match acquire_loop fuel self fh timeout_end check_interval
                  fail_when_locked ArgNone w2 with
          | (w3, Ok fh) =>
              let '(w4, fh) := _prepare_fh self fh w3 in
              (set_fh (Some fh) self, w4, Ok fh)
          | (w3, r) => (self, w3, r)
          end
      | (w1, r) => (self, w1, r)
      end
  end.

Definition release (self : t) (w : World) : t * World * result unit :=
  match fh self with
  | Some fh => (set_fh None self, close fh (portalocker_unlock fh w), Ok tt)
  | None => (self, w, Ok tt)
  end.

End Lock.

(** *** class RLock(Lock) *)

Module RLock.

Record t : Type := mk {
  base : Lock.t;
  _acquire_count : Z
}.

Definition __init__ (filename mode : string) (timeout : option Z)
    (check_interval : N) (fail_when_locked : bool) (flags : Z) : t :=
  mk (Lock.__init__ filename mode timeout check_interval fail_when_locked
                    flags [])
     0.

Definition new (filename : string) : t :=
  __init__ filename "a" (Some DEFAULT_TIMEOUT) DEFAULT_CHECK_INTERVAL false
           LOCK_METHOD.

(** The value returned is [self.fh] on the reentrant path, which Python
    reads as it is ([None] included). *)
Definition acquire (fuel : nat) (timeout : option Z)
    (check_interval : option N) (fail_when_locked : option bool)
    (self : t) (w : World) : t * World * result (option nat) :=
  if (_acquire_count self >=? 1)%Z then
    (mk (base self) (_acquire_count self + 1), w, Ok (Lock.fh (base self)))
  else
    match Lock.acquire fuel timeout check_interval fail_when_locked
            (base self) w with
    | (b, w', Ok fh) => (mk b (_acquire_count self + 1), w', Ok (Some fh))
    | (b, w', Raise e) => (mk b (_acquire_count self), w', Raise e)
    | (b, w', Blocked) => (mk b (_acquire_count self), w', Blocked)
    | (b, w', OutOfFuel) => (mk b (_acquire_count self), w', OutOfFuel)
    end.

Definition release (self : t) (w : World) : t * World * result unit :=
  if (_acquire_count self =? 0)%Z then
    (self, w,
     Raise (LockException [ArgStr "Cannot release more times than acquired"]))
  else if (_acquire_count self =? 1)%Z then
    match Lock.release (base self) w with
    | (b, w', Ok _) => (mk b (_acquire_count self - 1), w', Ok tt)
    | (b, w', Raise e) => (mk b (_acquire_count self), w', Raise e)
    | (b, w', Blocked) => (mk b (_acquire_count self), w', Blocked)
    | (b, w', OutOfFuel) => (mk b (_acquire_count self), w', OutOfFuel)
    end
  else (mk (base self) (_acquire_count self - 1), w, Ok tt).

End RLock.

(** *** class TemporaryFileLock(Lock) *)

Definition os_path_isfile (path : string) (w : World) : bool :=
  bool_decide (is_Some (files w !! path)).

(** [os.remove], and [os.unlink], which is the same function. *)
Definition os_remove (path : string) (w : World) : World * result unit :=
  if faulty FaultRemove w then (w, Raise (OSError "remove"))
  else
    match files w !! path with
    | None => (w, Raise (FileNotFoundError path))
    | Some _ =>
        (log (EvUnlink path) (set_files (delete path (files w)) w), Ok tt)
    end.

Definition os_unlink (path : string) (w : World) : World * result unit :=
  os_remove path w.

Module TemporaryFileLock.

Record t : Type := mk { base : Lock.t }.

(** [atexit.register(self.release)] is kept as the name of the file the
    hook will release. *)
Definition __init__ (filename : string) (timeout : option Z)
    (check_interval : N) (fail_when_locked : bool) (flags : Z)
    (w : World) : t * World :=
  (mk (Lock.__init__ filename "w" timeout check_interval fail_when_locked
                     flags []),
   set_atexit (atexit w ++ [filename]) w).

Definition new (w : World) : t * World :=
  __init__ ".lock" (Some DEFAULT_TIMEOUT) DEFAULT_CHECK_INTERVAL true
           LOCK_METHOD w.

Definition acquire (fuel : nat) (timeout : option Z)
    (check_interval : option N) (fail_when_locked : option bool)
    (self : t) (w : World) : t * World * result nat :=
  let '(b, w', r) :=
    Lock.acquire fuel timeout check_interval fail_when_locked (base self) w in
  (mk b, w', r).

Definition release (self : t) (w : World) : t * World * result unit :=
  match Lock.release (base self) w with
  | (b, w', Ok _) =>
      if os_path_isfile (Lock.filename b) w'
      then
        let '(w'', r) := os_unlink (Lock.filename b) w' in
        (mk b, w'', r)
      else (mk b, w', Ok tt)
  | (b, w', r) => (mk b, w', r)
  end.

End TemporaryFileLock.

(** *** class BoundedSemaphore *)

(** [str.format] for the two placeholders of a file name pattern,
    [{name}] and [{number:02d}], the ones the default pattern uses.
    Other replacement fields and format specifications, for which
    [str.format] can raise, are copied as they stand. *)
Definition format_02d (number : Z) : string :=
  let s := pretty number in
  if (String.length s <? 2)%nat then "0" +:+ s else s.

Fixpoint format_go (skip : nat) (pattern name : string) (number : Z) : string :=
  match pattern with
  | EmptyString => EmptyString
  | String c rest =>
      match skip with
      | S k => format_go k rest name number
      | O =>
          if String.prefix "{name}" pattern
          then name +:+ format_go 5 rest name number
          else if String.prefix "{number:02d}" pattern
          then format_02d number +:+ format_go 11 rest name number
          else String c (format_go 0 rest name number)
      end
  end.

Definition format (pattern name : string) (number : Z) : string :=
  format_go 0 pattern name number.

Definition ends_with_slash (s : string) : bool :=
  match rev (list_ascii_of_string s) with
  | c :: _ => Ascii.eqb c "/"
  | [] => false
  end.

(** [pathlib.Path(directory) / name], as the string of the path, for a
    relative [name].  The normalisation of [pathlib] (doubled slashes,
    [.] components, an absolute [name] replacing the directory) is not
    modelled. *)
Definition path_join (directory name : string) : string :=
  if String.eqb directory "" then name
  else if ends_with_slash directory then directory +:+ name
  else directory +:+ "/" +:+ name.

(** [random.shuffle(x)]: [for i in reversed(range(1, len(x))): j =
    randbelow(i + 1); x[i], x[j] = x[j], x[i]], the draws taken from the
    world's random source. *)
Definition randbelow (n : nat) (w : World) : World * nat :=
  match rng w with
  | [] => (w, 0%nat)
  | d :: ds => (set_rng ds w, (d mod n)%nat)
  end.

Definition swap {A} (i j : nat) (x : list A) : list A :=
  match x !! i, x !! j with
  | Some a, Some b => <[j := a]> (<[i := b]> x)
  | _, _ => x
  end.

Fixpoint shuffle_from {A} (i : nat) (x : list A) (w : World) : World * list A :=
  match i with
  | O => (w, x)
  | S i' =>
      let '(w', j) := randbelow (S i) w in
      shuffle_from i' (swap i j x) w'
  end.

Definition random_shuffle {A} (x : list A) (w : World) : World * list A :=
  shuffle_from (length x - 1) x w.

Module BoundedSemaphore.

Record t : Type := mk {
  maximum : Z;
  name : string;
  filename_pattern : string;
  directory : string;
  lock : option Lock.t;
  timeout : option Z;
  check_interval : N
}.

Definition set_lock (l : option Lock.t) (self : t) : t :=
  mk (maximum self) (name self) (filename_pattern self) (directory self) l
     (timeout self) (check_interval self).

Definition __init__ (maximum : Z) (name filename_pattern directory : string)
    (timeout : option Z) (check_interval : N) : t :=
  mk maximum name filename_pattern directory None timeout check_interval.

(** [BoundedSemaphore(maximum)]; [tempfile.gettempdir()] is [/tmp]. *)
Definition new (maximum : Z) : t :=
  __init__ maximum "bounded_semaphore" "{name}.{number:02d}.lock" "/tmp"
           (Some DEFAULT_TIMEOUT) DEFAULT_CHECK_INTERVAL.

Definition get_filename (self : t) (number : Z) : string :=
  path_join (directory self) (format (filename_pattern self) (name self) number).

Definition get_filenames (self : t) : list string :=
  map (fun n : nat => get_filename self (Z.of_nat n))
      (seq 0 (Z.to_nat (maximum self))).

Definition get_random_filenames (self : t) (w : World) : World * list string :=
  random_shuffle (get_filenames self) w.

(** [Lock(filename, fail_when_locked=True)] *)
Definition slot_lock (filename : string) : Lock.t :=
  Lock.__init__ filename "a" (Some DEFAULT_TIMEOUT) DEFAULT_CHECK_INTERVAL
                true LOCK_METHOD [].

(** Falling off the loop returns [None], which the callers test as
    false. *)
Fixpoint try_lock (fuel : nat) (filenames : list string) (self : t)
    (w : World) : t * World * result bool :=
  match filenames with
  | [] => (self, w, Ok false)
  | filename :: rest =>
      match Lock.acquire fuel None None None (slot_lock filename) w with
      | (l, w', Ok _) => (set_lock (Some l) self, w', Ok true)
      | (l, w', Raise (AlreadyLocked _)) =>
          try_lock fuel rest (set_lock (Some l) self) w'
      | (l, w', Raise e) => (set_lock (Some l) self, w', Raise e)
      | (l, w', Blocked) => (set_lock (Some l) self, w', Blocked)
      | (l, w', OutOfFuel) => (set_lock (Some l) self, w', OutOfFuel)
      end
  end.

Definition returned_lock (self : t) : result (option Lock.t) := Ok (lock self).

Fixpoint acquire_loop (fuel : nat) (filenames : list string)
    (timeout_end : Z) (check_interval : N) (self : t) (w : World)
    : t * World * result (option Lock.t) :=
  match fuel with
  | O => (self, w, OutOfFuel)
  | S fuel' =>
      let '(w1, t) := current_time w in
      if timeout_end >? t then
        match try_lock fuel filenames self w1 with
        | (self', w2, Ok true) => (self', w2, returned_lock self')
        | (self', w2, Ok false) =>
            acquire_loop fuel' filenames timeout_end check_interval self'
                         (sleep check_interval w2)
        | (self', w2, Raise e) => (self', w2, Raise e)
        | (self', w2, Blocked) => (self', w2, Blocked)
        | (self', w2, OutOfFuel) => (self', w2, OutOfFuel)
        end
      else (self, w1, Raise (AlreadyLocked []))
  end.

Definition acquire (fuel : nat) (timeout : option Z)
    (check_interval : option N) (self : t) (w : World)
    : t * World * result (option Lock.t) :=
  match lock self with
  | Some _ => (self, w, Raise (AssertionError "Already locked"))
  | None =>
      let timeout :=
        match timeout with None => BoundedSemaphore.timeout self | Some _ => timeout end in
      let timeout := match timeout with None => 0 | Some t => t end in
      let check_interval :=
        match check_interval with
        | None => BoundedSemaphore.check_interval self | Some c => c end in
      let filenames := get_filenames self in
      match try_lock fuel filenames self w with
      | (self1, w1, Ok true) => (self1, w1, returned_lock self1)
      | (self1, w1, Ok false) =>
          if (timeout =? 0)%Z then (self1, w1, Raise (AlreadyLocked []))
          else
            let '(w2, t0) := current_time w1 in
            acquire_loop fuel filenames (t0 + timeout) check_interval self1 w2
      | (self1, w1, Raise e) => (self1, w1, Raise e)
      | (self1, w1, Blocked) => (self1, w1, Blocked)
      | (self1, w1, OutOfFuel) => (self1, w1, OutOfFuel)
      end
  end.

Definition release (self : t) (w : World) : t * World * result unit :=
  match lock self with
  | None =>
      (self, w,
       Raise (AttributeError "'NoneType' object has no attribute 'release'"))
  | Some l =>
      match Lock.release l w with
      | (l', w', Ok _) => (set_lock None self, w', Ok tt)
      | (l', w', r) => (set_lock (Some l') self, w', r)
      end
  end.

End BoundedSemaphore.

(** *** class LockBase and the with statement *)

(** The abstract class: [acquire] and [release] are abstract, and
    [__enter__], [__exit__] and [__delete__] are defined from them.  [R] is
    what [acquire] returns. *)
Class LockBase (T R : Type) : Type := {
  acquire : nat -> option Z -> option N -> option bool ->
            T -> World -> T * World * result R;
  release : T -> World -> T * World * result unit
}.

Section LockBaseMethods.
Context {T R : Type} `{LockBase T R}.

Definition __enter__ (fuel : nat) (self : T) (w : World)
    : T * World * result R :=
  acquire fuel None None None self w.

(** [__exit__] returns [None]: an exception of the body is not
    swallowed. *)
Definition __exit__ (self : T) (w : World) : T * World * result unit :=
  release self w.

Definition __delete__ (instance : T) (w : World) : T * World * result unit :=
  release instance w.

(** Python's [with self as r: body]: [__enter__]; when it returns, the
    body, and [__exit__] however the body ends.  An exception of
    [__exit__] replaces the body's. *)
Definition with_ {A : Type} (fuel : nat)
    (body : R -> T -> World -> T * World * result A)
    (self : T) (w : World) : T * World * result A :=
  match __enter__ fuel self w with
  | (self1, w1, Ok r) =>
      match body r self1 w1 with
      | (self2, w2, Ok a) =>
          match __exit__ self2 w2 with
          | (self3, w3, Ok _) => (self3, w3, Ok a)
          | (self3, w3, Raise e) => (self3, w3, Raise e)
          | (self3, w3, Blocked) => (self3, w3, Blocked)
          | (self3, w3, OutOfFuel) => (self3, w3, OutOfFuel)
          end
      | (self2, w2, Raise e) =>
          match __exit__ self2 w2 with
          | (self3, w3, Ok _) => (self3, w3, Raise e)
          | (self3, w3, Raise e') => (self3, w3, Raise e')
          | (self3, w3, Blocked) => (self3, w3, Blocked)
          | (self3, w3, OutOfFuel) => (self3, w3, OutOfFuel)
          end
      | (self2, w2, Blocked) => (self2, w2, Blocked)
      | (self2, w2, OutOfFuel) => (self2, w2, OutOfFuel)
      end
  | (self1, w1, Raise e) => (self1, w1, Raise e)
  | (self1, w1, Blocked) => (self1, w1, Blocked)
  | (self1, w1, OutOfFuel) => (self1, w1, OutOfFuel)
  end.

End LockBaseMethods.

#[export] Instance Lock_LockBase : LockBase Lock.t nat :=
  {| acquire := Lock.acquire; release := Lock.release |}.

#[export] Instance RLock_LockBase : LockBase RLock.t (option nat) :=
  {| acquire := RLock.acquire; release := RLock.release |}.

#[export] Instance TemporaryFileLock_LockBase : LockBase TemporaryFileLock.t nat :=
  {| acquire := TemporaryFileLock.acquire;
     release := TemporaryFileLock.release |}.

(** [BoundedSemaphore.acquire] takes no [fail_when_locked]; passing one is
    a [TypeError]. *)
#[export] Instance BoundedSemaphore_LockBase
  : LockBase BoundedSemaphore.t (option Lock.t) :=
  {| acquire := fun fuel timeout check_interval fail_when_locked self w =>
       match fail_when_locked with
       | None => BoundedSemaphore.acquire fuel timeout check_interval self w
       | Some _ =>
           (self, w,
            Raise (TypeError "acquire() got an unexpected keyword argument"))
       end;
     release := BoundedSemaphore.release |}.

(** *** open_atomic *)

Definition os_path_exists (path : string) (w : World) : bool :=
  os_path_isfile path w || bool_decide (path ∈ dirs w).

Definition os_path_isdir (path : string) (w : World) : bool :=
  bool_decide (path ∈ dirs w).

Fixpoint makedirs_go (fuel : nat) (path : string) (d : gset string) : gset string :=
  match fuel with
  | O => d
  | S fuel' =>
      if String.eqb path "" then d
      else if bool_decide (path ∈ d) then d
      else
        let head := (os_path_split path).1 in
        if String.eqb head path then {[path]} ∪ d
        else {[path]} ∪ makedirs_go fuel' head d
  end.

Definition os_makedirs (path : string) (w : World) : World * result unit :=
  if os_path_exists path w then (w, Raise (FileExistsError path))
  else (set_dirs (makedirs_go (S (String.length path)) path (dirs w)) w, Ok tt).

(** [tempfile.NamedTemporaryFile(mode, dir, delete=False)]: random names are
    tried until one does not exist; the file is created and opened.  The
    result is the file object and its [name]. *)
Fixpoint temp_candidates (dir : string) (draws : list nat) (w : World)
    : option (string * list nat) :=
  match draws with
  | [] => None
  | d :: rest =>
      let candidate := path_join dir ("tmp" +:+ pretty d) in
      if os_path_exists candidate w then temp_candidates dir rest w
      else Some (candidate, rest)
  end.

Definition NamedTemporaryFile (mode dir : string) (w : World)
    : World * result (nat * string) :=
  match temp_candidates dir (rng w) w with
  | None =>
      (set_rng [] w,
       Raise (FileExistsError "No usable temporary file name found"))
  | Some (temp_name, rest) =>
      match new_handle temp_name mode
              (set_files (<[temp_name := ""]> (files w)) (set_rng rest w)) with
      | (w', Ok fh) => (w', Ok (fh, temp_name))
      | (w', Raise e) => (w', Raise e)
      | (w', Blocked) => (w', Blocked)
      | (w', OutOfFuel) => (w', OutOfFuel)
      end
  end.

Definition flush (fh : nat) (w : World) : World * result unit :=
  match handles w !! fh with
  | None => (w, Raise (ValueError "I/O operation on closed file"))
  | Some _ => if faulty FaultFlush w then (w, Raise (OSError "flush")) else (w, Ok tt)
  end.

Definition os_fsync (fh : nat) (w : World) : World * result unit :=
  match handles w !! fh with
  | None => (w, Raise (ValueError "I/O operation on closed file"))
  | Some _ => if faulty FaultFsync w then (w, Raise (OSError "fsync")) else (w, Ok tt)
  end.

Definition os_rename (src dst : string) (w : World) : World * result unit :=
  if faulty FaultRename w then (w, Raise (OSError "rename"))
  else
    match files w !! src with
    | None => (w, Raise (FileNotFoundError src))
    | Some content =>
        if bool_decide (dst ∈ dirs w) then (w, Raise (IsADirectoryError dst))
        else if ends_with_slash dst then (w, Raise (NotADirectoryError dst))
        else
          (log (EvRename src dst)
               (set_files (<[dst := content]> (delete src (files w))) w),
           Ok tt)
    end.

(** [open_atomic] is a generator under [contextlib.contextmanager]: entering
    the with statement runs it up to its [yield], leaving the scope
    normally resumes it after the [yield], and an exception of the scope
    body is thrown into it at the [yield], where nothing handles it. *)

(** The generator up to the [yield]: the file object and its [name]. *)
Definition open_atomic_enter (filename : string) (binary : bool) (w : World)
    : World * result (nat * string) :=
  if os_path_exists filename w
  then (w, Raise (AssertionError ("'" +:+ filename +:+ "' exists")))
  else
    let '(path, name) := os_path_split filename in
    match (if negb (String.eqb path "") && negb (os_path_isdir path w)
           then os_makedirs path w else (w, Ok tt)) with
    | (w1, Ok _) => NamedTemporaryFile (if binary then "wb" else "w") path w1
    | (w1, Raise e) => (w1, Raise e)
    | (w1, Blocked) => (w1, Blocked)
    | (w1, OutOfFuel) => (w1, OutOfFuel)
    end.

(** [try: os.rename(temp_fh.name, filename) finally: try:
    os.remove(temp_fh.name) except Exception: pass] *)
Definition rename_finally_remove (temp_name filename : string) (w : World)
    : World * result unit :=
  let '(w1, r) := os_rename temp_name filename w in
  let '(w2, _) := os_remove temp_name w1 in
  (w2, r).

(** The generator after the [yield]. *)
Definition open_atomic_exit (temp_fh : nat) (temp_name filename : string)
    (w : World) : World * result unit :=
  match flush temp_fh w with
  | (w1, Ok _) =>
      match os_fsync temp_fh w1 with
      | (w2, Ok _) =>
          rename_finally_remove temp_name filename (close temp_fh w2)
      | (w2, r) => (w2, r)
      end
  | (w1, r) => (w1, r)
  end.

(** [with open_atomic(filename, binary) as fh: body]. *)
Definition open_atomic (filename : string) (binary : bool)
    (body : nat -> World -> World * result unit) (w : World)
    : World * result unit :=
  match open_atomic_enter filename binary w with
  | (w1, Ok (temp_fh, temp_name)) =>
      match body temp_fh w1 with
      | (w2, Ok _) => open_atomic_exit temp_fh temp_name filename w2
      | (w2, r) => (w2, r)
      end
  | (w1, Raise e) => (w1, Raise e)
  | (w1, Blocked) => (w1, Blocked)
  | (w1, OutOfFuel) => (w1, OutOfFuel)
  end.

(** * The vocabulary of the properties *)

Local Open Scope list_scope.

(** ** Reading a trace *)

Definition is_lock_attempt (e : event) : bool :=
  match e with EvLock _ _ _ => true | _ => false end.
Definition is_sleep (e : event) : bool :=
  match e with EvSleep _ => true | _ => false end.

(** How often the advisory lock primitive was called, and [time.sleep]. *)
Definition lock_attempts (tr : list event) : nat :=
  length (List.filter is_lock_attempt tr).
Definition sleeps (tr : list event) : nat :=
  length (List.filter is_sleep tr).

(** The files that were opened, in the order of their opening. *)
Definition opened_files (tr : list event) : list string :=
  omap (fun e => match e with EvOpen _ f _ => Some f | _ => None end) tr.

(** What a call added to the trace. *)
Definition events_since (w w' : World) : list event :=
  drop (length (trace w)) (trace w').

(** [k] rounds of the polling loop that met contention. *)
Fixpoint retries (k : nat) (fh : nat) (flags : Z) (check_interval : N)
    : list event :=
  match k with
  | O => []
  | S k' =>
      EvLock fh flags false :: EvSleep check_interval
        :: retries k' fh flags check_interval
  end.

(** Every truncation in a trace is done through a file object that holds
    an advisory lock at that point of the trace. *)
Fixpoint truncates_under_lock (held : list nat) (tr : list event) : bool :=
  match tr with
  | [] => true
  | e :: tr' =>
      match e with
      | EvLock h _ true => truncates_under_lock (h :: held) tr'
      | EvUnlock h | EvClose h =>
          truncates_under_lock
            (List.filter (fun x => negb (Nat.eqb x h)) held) tr'
      | EvTruncate h _ =>
          existsb (Nat.eqb h) held && truncates_under_lock held tr'
      | _ => truncates_under_lock held tr'
      end
  end.

(** The files a call opened are some full passes over [filenames],
    followed by the beginning of one. *)
Definition passes_over (filenames opened : list string) : Prop :=
  ∃ n last, opened = concat (replicate n filenames) ++ last ∧
            last `prefix_of` filenames.

(** ** Relating worlds and objects *)

(** What no step of [Lock.acquire]'s loop touches. *)
Definition frame (w w' : World) : Prop :=
  files w' = files w ∧ dirs w' = dirs w ∧ rng w' = rng w ∧
  faults w' = faults w ∧ atexit w' = atexit w ∧
  next_handle w' = next_handle w ∧ tick w' = tick w.

(** The outcome of a call, in a world with another random source. *)
Definition with_rng {T A : Type} (d : list nat) (x : T * World * result A)
    : T * World * result A :=
  (x.1.1, set_rng d x.1.2, x.2).

(** The arguments of [Lock.acquire] after its first lines: an argument
    left out is the instance's, and a timeout absent there too is 0. *)
Definition resolved_timeout (timeout : option Z) (self : Lock.t) : Z :=
  match timeout with
  | Some t => t
  | None => match Lock.timeout self with Some t => t | None => 0 end
  end.

Definition resolved_check_interval (check_interval : option N)
    (self : Lock.t) : N :=
  match check_interval with Some c => c | None => Lock.check_interval self end.

Definition resolved_fail_when_locked (fail_when_locked : option bool)
    (self : Lock.t) : bool :=
  match fail_when_locked with
  | Some b => b | None => Lock.fail_when_locked self end.

(** The wrapped lock is held: it has a file object, which is open and
    holds an advisory lock. *)
Definition held (b : Lock.t) (w : World) : Prop :=
  ∃ h, Lock.fh b = Some h ∧ is_Some (handles w !! h) ∧ is_Some (flocks w !! h).

(** The counter of a reentrant lock and its wrapped lock agree. *)
Definition RLock_invariant (self : RLock.t) (w : World) : Prop :=
  0 <= RLock._acquire_count self ∧
  (0 < RLock._acquire_count self → held (RLock.base self) w) ∧
  (RLock._acquire_count self = 0 → Lock.fh (RLock.base self) = None).

(** [n] calls of [acquire()] and of [release()] in a row. *)
Fixpoint acquire_times (n fuel : nat) (self : RLock.t) (w : World)
    : RLock.t * World :=
  match n with
  | O => (self, w)
  | S n' =>
      let '(self', w', _) := RLock.acquire fuel None None None self w in
      acquire_times n' fuel self' w'
  end.

Fixpoint release_times (n : nat) (self : RLock.t) (w : World)
    : RLock.t * World :=
  match n with
  | O => (self, w)
  | S n' =>
      let '(self', w', _) := RLock.release self w in
      release_times n' self' w'
  end.

(** The semaphore keeps a lock object that holds no file object. *)
Definition stale (self : BoundedSemaphore.t) : Prop :=
  ∃ l, BoundedSemaphore.lock self = Some l ∧ Lock.fh l = None.

(** Every directory lies in a directory that is there too: its parent is
    the working directory, itself (a root) or a member. *)
Definition parents_closed (d : gset string) : Prop :=
  ∀ p, p ∈ d →
    (os_path_split p).1 = "" ∨ (os_path_split p).1 = p
    ∨ (os_path_split p).1 ∈ d.

(** Every candidate file is locked through a file object that was opened
    before. *)
Definition all_busy (filenames : list string) (w : World) : Prop :=
  ∀ f, f ∈ filenames →
       ∃ h0 e0, flocks w !! h0 = Some (f, e0) ∧ (h0 < next_handle w)%nat.

(** ** Worlds, objects and scope bodies to run on *)

(** Nothing exists, the clock stands at 0 and a reading takes no time. *)
Definition empty_world : World := mkWorld 0 0 ∅ ∅ ∅ 0 ∅ [] [] [] [].

(** The same with the root directory and the directory of temporary
    files, [/tmp]. *)
Definition world_with_tmp : World := set_dirs {["/"; "/tmp"]} empty_world.

(** A world in which another lock object holds [filename]. *)
Definition held_by_other (filename : string) (w : World) : World :=
  (Lock.acquire 1 None None None (Lock.new filename) w).1.2.

(** [Lock('f').acquire(timeout=0, fail_when_locked=...)] on a held file. *)
Definition fail_fast_zero_timeout_run : Lock.t * World * result nat :=
  Lock.acquire 1 (Some 0) None (Some true) (Lock.new "f")
               (held_by_other "f" empty_world).

Definition waiting_zero_timeout_run : Lock.t * World * result nat :=
  Lock.acquire 1 (Some 0) None (Some false) (Lock.new "f")
               (held_by_other "f" empty_world).

(** One permit, taken by another lock object; no timeout. *)
Definition one_permit : BoundedSemaphore.t :=
  BoundedSemaphore.__init__ 1 "bounded_semaphore" "{name}.{number:02d}.lock"
                            "" None 250.

Definition one_permit_busy : World :=
  held_by_other "bounded_semaphore.00.lock" empty_world.

(** Two permits, both taken by other lock objects; the random source is
    whatever [draws] is. *)
Definition two_permits : BoundedSemaphore.t :=
  BoundedSemaphore.__init__ 2 "bounded_semaphore" "{name}.{number:02d}.lock"
                            "" (Some 600) 250.

Definition two_permits_busy (draws : list nat) : World :=
  set_rng draws
    (held_by_other "bounded_semaphore.01.lock"
       (held_by_other "bounded_semaphore.00.lock" empty_world)).

(** Scope bodies: one writes and ends, one writes and raises, one raises
    at once. *)
Definition write_test (fh : nat) (w : World) : World * result unit :=
  (write fh "test" w, Ok tt).

Definition write_then_fail (fh : nat) (w : World) : World * result unit :=
  (write fh "te" w, Raise (UserException "boom")).

Definition raising_body {T R : Type} (r : R) (self : T) (w : World)
    : T * World * result unit :=
  (self, w, Raise (UserException "boom")).

(** * Properties *)

Ltac by_computation :=
  intros; repeat match goal with |- _ ∧ _ => split end;
  vm_compute; reflexivity.

(** ** Frames *)

Lemma frame_refl w : frame w w.
Proof. by repeat split. Qed.

Lemma frame_trans w1 w2 w3 : frame w1 w2 → frame w2 w3 → frame w1 w3.
Proof.
  unfold frame. intros (?&?&?&?&?&?&?) (?&?&?&?&?&?&?).
  repeat split; congruence.
Qed.

(** ** The advisory lock primitive *)

Lemma portalocker_lock_open fh flags w path :
  handles w !! fh = Some path →
  portalocker_lock fh flags w =
    if faulty FaultLock w
    then (log (EvLock fh flags false) w, Raise fatal_error)
    else if conflicts (flocks w) fh path (Z.testbit flags 1) then
      if Z.testbit flags 2
      then (log (EvLock fh flags false) w, Raise contention_error)
      else (w, Blocked)
    else (log (EvLock fh flags true)
              (set_flocks (<[fh := (path, Z.testbit flags 1)]> (flocks w)) w),
          Ok tt).
Proof. intros H. unfold portalocker_lock. by rewrite H. Qed.

(** ** The polling loop of [Lock.acquire] *)

Section AcquireLoop.
Variables (self : Lock.t) (fh : nat) (timeout_end : Z)
          (check_interval : N) (fail_when_locked : bool).

Let loop fuel := Lock.acquire_loop fuel self fh timeout_end check_interval
                                   fail_when_locked.
Let fl := Lock.flags self.

(** Once the deadline is not ahead of the clock, the loop body does not
    run any more: the handle is closed and the generic exception raised
    with whatever was seen last. *)
Lemma acquire_loop_expired fuel exception w :
  timeout_end <= now w →
  loop (S fuel) exception w =
    (Lock.try_close fh (current_time w).1,
     Raise (LockException [exception])).
Proof.
  intros Hle. subst loop. simpl.
  destruct (timeout_end >? now w) eqn:E; [lia | done].
Qed.

(** One round of the loop on an open file object. *)
Lemma acquire_loop_step fuel exception w path :
  handles w !! fh = Some path →
  loop (S fuel) exception w =
    let w1 := (current_time w).1 in
    if timeout_end >? now w then
      if faulty FaultLock w
      then (log (EvLock fh fl false) w1, Raise fatal_error)
      else if conflicts (flocks w) fh path (Z.testbit fl 1) then
        if Z.testbit fl 2 then
          if fail_when_locked
          then (Lock.try_close fh (log (EvLock fh fl false) w1),
                Raise (AlreadyLocked [ArgExn contention_error]))
          else loop fuel (ArgExn contention_error)
                    (sleep check_interval (log (EvLock fh fl false) w1))
        else (w1, Blocked)
      else (log (EvLock fh fl true)
                (set_flocks (<[fh := (path, Z.testbit fl 1)]> (flocks w)) w1),
            Ok fh)
    else (Lock.try_close fh w1, Raise (LockException [exception])).
Proof.
  intros Hopen. subst loop fl.
  cbn -[Z.testbit conflicts Z.gtb Z.add].
  destruct (timeout_end >? now w); [|done].
  unfold Lock._get_lock.
  rewrite (portalocker_lock_open _ _ _ path) by done.
  cbn -[Z.testbit conflicts Z.gtb Z.add faulty].
  change (faulty FaultLock (set_now (now w + Z.of_N (tick w)) w))
    with (faulty FaultLock w).
  destruct (faulty FaultLock w); [done|].
  destruct (conflicts _ _ _ _); [|done].
  destruct (Z.testbit _ 2); [|done].
  by destruct fail_when_locked.
Qed.

(** The shape of every run of the loop on an open file object. *)
Lemma acquire_loop_spec fuel : ∀ exception w w' r path,
  handles w !! fh = Some path →
  loop fuel exception w = (w', r) →
  frame w w' ∧
  ∃ k, (fail_when_locked = true → k = O) ∧
    match r with
    | Ok h =>
        h = fh ∧
        trace w' = trace w ++ retries k fh fl check_interval
                           ++ [EvLock fh fl true] ∧
        handles w' = handles w ∧
        flocks w' = <[fh := (path, Z.testbit fl 1)]> (flocks w)
    | Raise e =>
        (faulty FaultLock w = true ∧ e = fatal_error ∧
         handles w' = handles w ∧ flocks w' = flocks w ∧
         trace w' = trace w ++ [EvLock fh fl false])
        ∨
        (handles w' = delete fh (handles w) ∧
         flocks w' = delete fh (flocks w) ∧
         ((e = LockException
                 [match k with O => exception | _ => ArgExn contention_error end] ∧
           trace w' = trace w ++ retries k fh fl check_interval ++ [EvClose fh])
          ∨
          (fail_when_locked = true ∧
           e = AlreadyLocked [ArgExn contention_error] ∧
           trace w' = trace w ++ [EvLock fh fl false; EvClose fh])))
    | Blocked | OutOfFuel =>
        trace w' = trace w ++ retries k fh fl check_interval ∧
        handles w' = handles w ∧ flocks w' = flocks w
    end.
Proof.
  induction fuel as [|n IH]; intros exception w w' r path Hopen Hrun.
  - subst loop. simpl in Hrun. simplify_eq.
    split; [apply frame_refl|]. exists O.
    split; [done|]. simpl. by rewrite app_nil_r.
  - rewrite (acquire_loop_step _ _ _ path) in Hrun by done.
    cbn zeta in Hrun.
    destruct (timeout_end >? now w) eqn:Hdeadline.
    + destruct (faulty FaultLock w) eqn:Hfault.
      { simplify_eq.
        split; [by repeat split|]. exists O. split; [done|]. by left. }
      destruct (conflicts _ _ _ _) eqn:Hc.
      * destruct (Z.testbit fl 2) eqn:Hnb.
        -- destruct fail_when_locked eqn:Hf.
           ++ simplify_eq.
              split; [by repeat split|]. exists O. split; [done|].
              right. split; [done|]. split; [done|]. right.
              split; [done|]. split; [done|].
              simpl. by rewrite <- app_assoc.
           ++ apply (IH _ _ _ _ path) in Hrun; [|done].
              destruct Hrun as (Hfr & k & _ & Hk).
              split.
              { eapply frame_trans; [|exact Hfr]. by repeat split. }
              exists (S k). split; [done|].
              destruct r as [h|e| |]; simpl in *.
              ** destruct Hk as (-> & Ht & Hh & Hl).
                 repeat split; try done.
                 rewrite Ht. by rewrite <- !app_assoc.
              ** destruct Hk as [(Hfault' & _)|(Hh & Hl & Hcase)].
                 { change (faulty FaultLock w = true) in Hfault'.
                   congruence. }
                 right. repeat split; try done.
                 destruct Hcase as [(-> & Ht)|(? & _)]; [|done].
                 left. split; [by destruct k|].
                 rewrite Ht. by rewrite <- !app_assoc.
              ** destruct Hk as (Ht & Hh & Hl). repeat split; try done.
                 rewrite Ht. by rewrite <- !app_assoc.
              ** destruct Hk as (Ht & Hh & Hl). repeat split; try done.
                 rewrite Ht. by rewrite <- !app_assoc.
        -- simplify_eq.
           split; [by repeat split|]. exists O. split; [done|].
           simpl. by rewrite app_nil_r.
      * simplify_eq.
        split; [by repeat split|]. exists O. split; [done|]. simpl.
        done.
    + simplify_eq.
      split; [by repeat split|]. exists O. split; [done|]. simpl.
      right. split; [done|]. split; [done|]. by left.
Qed.

(** With time passing in every round, the loop ends: fuel beyond the
    time left to the deadline is never used up; and with a non-blocking
    flag the primitive never blocks. *)
Lemma acquire_loop_terminates fuel : ∀ exception w path,
  handles w !! fh = Some path →
  0 < Z.of_N (tick w) + Z.of_N check_interval →
  (Z.to_nat (timeout_end - now w) < fuel)%nat →
  (loop fuel exception w).2 ≠ OutOfFuel ∧
  (Z.testbit fl 2 = true → (loop fuel exception w).2 ≠ Blocked).
Proof.
  induction fuel as [|n IH]; intros exception w path Hopen Hstep Hfuel; [lia|].
  rewrite (acquire_loop_step _ _ _ path) by done. cbn zeta.
  destruct (timeout_end >? now w) eqn:Hdeadline; [|done].
  destruct (faulty FaultLock w); [done|].
  destruct (conflicts _ _ _ _); [|done].
  destruct (Z.testbit _ 2); [|by split].
  destruct fail_when_locked; [done|].
  apply (IH _ _ path); simpl; [done|lia|lia].
Qed.

End AcquireLoop.

(** ** Opening a file *)

Lemma new_handle_spec path mode w :
  new_handle path mode w =
    (log (EvOpen (next_handle w) path mode)
         (set_next_handle (S (next_handle w))
            (set_handles (<[next_handle w := path]> (handles w)) w)),
     Ok (next_handle w)).
Proof. reflexivity. Qed.

Lemma open_ok path mode w w1 h :
  open path mode w = (w1, Ok h) →
  h = next_handle w ∧
  handles w1 = <[h := path]> (handles w) ∧
  flocks w1 = flocks w ∧
  trace w1 = trace w ++ [EvOpen h path mode] ∧
  is_Some (files w1 !! path) ∧
  (has_char "w" mode = false →
   ∀ p c, files w !! p = Some c → files w1 !! p = Some c).
Proof.
  unfold open. intros Hopen.
  destruct (negb (valid_mode mode)); [done|].
  destruct (bool_decide (path ∈ dirs w)); [done|].
  destruct (negb (parent_exists path w)); [done|].
  destruct (faulty FaultOpen w); [done|].
  destruct (has_char "r" mode).
  { destruct (files w !! path) eqn:Hf; [|done].
    rewrite new_handle_spec in Hopen. simplify_eq. simpl.
    by rewrite Hf. }
  destruct (has_char "w" mode).
  { rewrite new_handle_spec in Hopen. simplify_eq. simpl.
    rewrite lookup_insert_eq. by repeat split. }
  assert (∀ w0, files w0 = <[path := ""]> (files w) →
                files w !! path = None →
                is_Some (files w0 !! path) ∧
                ∀ p c, files w !! p = Some c → files w0 !! p = Some c)
    as Hfresh.
  { intros w0 -> Hnone. rewrite lookup_insert_eq. split; [done|].
    intros p c Hp. rewrite lookup_insert_ne; [done|]. congruence. }
  destruct (has_char "x" mode).
  - destruct (files w !! path) eqn:Hf; [done|].
    rewrite new_handle_spec in Hopen. simplify_eq. simpl.
    destruct (Hfresh (set_files (<[path := ""]> (files w)) w)) as [? ?];
      by repeat split.
  - destruct (files w !! path) eqn:Hf;
      rewrite new_handle_spec in Hopen; simplify_eq; simpl.
    + rewrite Hf. by repeat split.
    + destruct (Hfresh (set_files (<[path := ""]> (files w)) w)) as [? ?];
        by repeat split.
Qed.

Lemma open_not_ok path mode w w1 r :
  open path mode w = (w1, r) →
  (∀ h, r ≠ Ok h) →
  w1 = w ∧ ∃ e, r = Raise e.
Proof.
  unfold open. intros Hopen Hr.
  assert (∀ w0, new_handle path mode w0 = (w1, r) → False) as Hnew.
  { intros w0 H0. rewrite new_handle_spec in H0. simplify_eq.
    by destruct (Hr (next_handle w0)). }
  destruct (negb (valid_mode mode)); [simplify_eq; eauto|].
  destruct (bool_decide (path ∈ dirs w)); [simplify_eq; eauto|].
  destruct (negb (parent_exists path w)); [simplify_eq; eauto|].
  destruct (faulty FaultOpen w); [simplify_eq; eauto|].
  destruct (has_char "r" mode).
  { destruct (files w !! path); [by destruct (Hnew _ Hopen)|].
    simplify_eq; eauto. }
  destruct (has_char "w" mode); [by destruct (Hnew _ Hopen)|].
  destruct (has_char "x" mode).
  - destruct (files w !! path); [simplify_eq; eauto|].
    by destruct (Hnew _ Hopen).
  - destruct (files w !! path); by destruct (Hnew _ Hopen).
Qed.

(** What [open] leaves alone. *)
Lemma open_frame path mode w w1 r :
  open path mode w = (w1, r) →
  now w1 = now w ∧ tick w1 = tick w ∧ rng w1 = rng w ∧
  dirs w1 = dirs w ∧ faults w1 = faults w ∧ atexit w1 = atexit w.
Proof.
  unfold open, new_handle. intros Hopen.
  repeat match type of Hopen with
  | (if ?c then _ else _) = _ => destruct c
  | match ?o with Some _ => _ | None => _ end = _ => destruct o
  end; by simplify_eq.
Qed.


(** ** Lock.acquire and Lock.release *)

(** [acquire] on a lock that holds no file object, in terms of its loop. *)
Lemma acquire_unfold fuel timeout check_interval fail_when_locked self w :
  Lock.fh self = None →
  Lock.acquire fuel timeout check_interval fail_when_locked self w =
    match Lock._get_fh self w with
    | (w1, Ok h) =>
        match Lock.acquire_loop fuel self h
                (now w1 + resolved_timeout timeout self)
                (resolved_check_interval check_interval self)
                (resolved_fail_when_locked fail_when_locked self)
                ArgNone (current_time w1).1 with
        | (w3, Ok h') =>
            (Lock.set_fh (Some (Lock._prepare_fh self h' w3).2) self,
             (Lock._prepare_fh self h' w3).1,
             Ok (Lock._prepare_fh self h' w3).2)
        | (w3, Raise e) => (self, w3, Raise e)
        | (w3, Blocked) => (self, w3, Blocked)
        | (w3, OutOfFuel) => (self, w3, OutOfFuel)
        end
    | (w1, Raise e) => (self, w1, Raise e)
    | (w1, Blocked) => (self, w1, Blocked)
    | (w1, OutOfFuel) => (self, w1, OutOfFuel)
    end.
Proof.
  intros Hfh. unfold Lock.acquire. rewrite Hfh.
  destruct (Lock._get_fh self w) as [w1 [h|e| |]]; try done.
  unfold current_time, resolved_timeout, resolved_check_interval,
    resolved_fail_when_locked.
  destruct timeout as [t|], check_interval as [c|], fail_when_locked as [b|];
    cbn [fst snd];
    repeat match goal with
    | |- context [Lock.acquire_loop ?a ?b ?c ?d ?e ?f ?g ?h] =>
        destruct (Lock.acquire_loop a b c d e f g h) as [? [?|?| |]]
    | |- context [Lock._prepare_fh ?a ?b ?c] =>
        destruct (Lock._prepare_fh a b c)
    | |- context [Lock.timeout ?s] => destruct (Lock.timeout s)
    end; try done.
Qed.

Lemma acquire_held fuel timeout check_interval fail_when_locked self w h :
  Lock.fh self = Some h →
  Lock.acquire fuel timeout check_interval fail_when_locked self w =
    (self, w, Ok h).
Proof. intros Hfh. unfold Lock.acquire. by rewrite Hfh. Qed.

Lemma prepare_fh_spec self h w :
  (Lock._prepare_fh self h w).2 = h ∧
  handles (Lock._prepare_fh self h w).1 = handles w ∧
  flocks (Lock._prepare_fh self h w).1 = flocks w ∧
  trace (Lock._prepare_fh self h w).1 =
    trace w ++ (if Lock.truncate self then [EvSeek h 0; EvTruncate h 0] else []) ∧
  (Lock.truncate self = true →
   handles w !! h = Some (Lock.filename self) →
   is_Some (files w !! Lock.filename self) →
   files (Lock._prepare_fh self h w).1 !! Lock.filename self = Some "").
Proof.
  unfold Lock._prepare_fh, truncate_file, seek.
  destruct (Lock.truncate self); simpl.
  - destruct (handles w !! h) as [path|] eqn:Hh; simpl.
    + destruct (files w !! path) eqn:Hf; simpl;
        rewrite <- ?app_assoc; repeat split; try done.
      * intros _ [= ->] _. by rewrite lookup_insert_eq.
      * intros _ [= ->] [? ?]. congruence.
    + rewrite <- ?app_assoc. by repeat split.
  - rewrite app_nil_r. by repeat split.
Qed.

(** Every run of [acquire] on a lock that holds no file object. *)
Lemma acquire_spec fuel timeout check_interval fail_when_locked self w self' w' r :
  Lock.fh self = None →
  Lock.acquire fuel timeout check_interval fail_when_locked self w
    = (self', w', r) →
  let h := next_handle w in
  let fl := Lock.flags self in
  let opened := EvOpen h (Lock.filename self) (Lock.mode self) in
  let ci := resolved_check_interval check_interval self in
  let fwl := resolved_fail_when_locked fail_when_locked self in
  match r with
  | Ok h' =>
      h' = h ∧ self' = Lock.set_fh (Some h) self ∧
      handles w' = <[h := Lock.filename self]> (handles w) ∧
      flocks w' = <[h := (Lock.filename self, Z.testbit fl 1)]> (flocks w) ∧
      (Lock.truncate self = true → files w' !! Lock.filename self = Some "") ∧
      ∃ k, (fwl = true → k = O) ∧
        trace w' =
          trace w ++ opened :: retries k h fl ci ++ EvLock h fl true
            :: (if Lock.truncate self then [EvSeek h 0; EvTruncate h 0] else [])
  | Raise e =>
      self' = self ∧
      ((w' = w ∧ Lock._get_fh self w = (w, Raise e)) ∨
       (handles w' = delete h (handles w) ∧
        flocks w' = delete h (flocks w) ∧
        (has_char "w" (Lock.mode self) = false →
         ∀ p c, files w !! p = Some c → files w' !! p = Some c) ∧
        ((∃ k, (fwl = true → k = O) ∧
            e = LockException
                  [match k with O => ArgNone | _ => ArgExn contention_error end] ∧
            trace w' = trace w ++ opened :: retries k h fl ci ++ [EvClose h])
         ∨
         (fwl = true ∧ e = AlreadyLocked [ArgExn contention_error] ∧
          trace w' = trace w ++ [opened; EvLock h fl false; EvClose h])))
       ∨
       (faulty FaultLock w = true ∧ e = fatal_error ∧
        handles w' = <[h := Lock.filename self]> (handles w) ∧
        flocks w' = flocks w ∧
        (has_char "w" (Lock.mode self) = false →
         ∀ p c, files w !! p = Some c → files w' !! p = Some c) ∧
        trace w' = trace w ++ [opened; EvLock h fl false]))
  | Blocked | OutOfFuel =>
      self' = self ∧
      (has_char "w" (Lock.mode self) = false →
       ∀ p c, files w !! p = Some c → files w' !! p = Some c) ∧
      ∃ k, trace w' = trace w ++ opened :: retries k h fl ci
  end.
Proof.
  intros Hfh Hrun. cbn zeta.
  rewrite acquire_unfold in Hrun by done.
  destruct (Lock._get_fh self w) as [w1 r1] eqn:Hopen.
  unfold Lock._get_fh in Hopen.
  destruct r1 as [h0|e0| |]; cycle 1.
  - simplify_eq. split; [done|]. left.
    pose proof (open_not_ok _ _ _ _ _ Hopen) as [E _]; [done|].
    subst w'. split; [done|]. unfold Lock._get_fh. by rewrite ?Hopen.
  - by apply open_not_ok in Hopen as [_ [? ?]].
  - by apply open_not_ok in Hopen as [_ [? ?]].
  - pose proof (open_frame _ _ _ _ _ Hopen) as (_ & _ & _ & _ & Hfaults & _).
    apply open_ok in Hopen as (-> & Hh1 & Hl1 & Ht1 & Hex & Hkeep).
    destruct (Lock.acquire_loop _ _ _ _ _ _ _ _) as [w3 r3] eqn:Hloop.
    apply (acquire_loop_spec _ _ _ _ _ _ _ _ _ _ (Lock.filename self))
      in Hloop as (Hfr & k & Hk0 & Hk);
      [|simpl; rewrite Hh1; apply lookup_insert_eq].
    destruct Hfr as (Hfiles & _).
    unfold faulty in Hk. simpl in Hk. rewrite Hfaults in Hk.
    fold (faulty FaultLock w) in Hk.
    destruct r3 as [h3|e3| |]; simplify_eq; cycle 2.
    + destruct Hk as (Ht3 & _). split; [done|].
      split; [intros Hw p c Hp; rewrite Hfiles; by apply Hkeep|].
      exists k. rewrite Ht3, Ht1. by rewrite <- !app_assoc.
    + destruct Hk as (Ht3 & _). split; [done|].
      split; [intros Hw p c Hp; rewrite Hfiles; by apply Hkeep|].
      exists k. rewrite Ht3, Ht1. by rewrite <- !app_assoc.
    + destruct Hk as (-> & Ht3 & Hh3 & Hl3).
      destruct (prepare_fh_spec self (next_handle w) w3)
        as (E2 & Eh & El & Et & Etr).
      rewrite E2. split; [done|]. split; [done|].
      rewrite Eh, Hh3, Hh1. split; [done|].
      rewrite El, Hl3, Hl1. split; [done|].
      split.
      { intros Htr. apply Etr; [done| |].
        - rewrite Hh3, Hh1. apply lookup_insert_eq.
        - by rewrite Hfiles. }
      exists k. split; [done|].
      rewrite Et, Ht3, Ht1. by rewrite <- !app_assoc.
    + destruct Hk as [(Hfault & -> & Hh3 & Hl3 & Ht3)|(Hh3 & Hl3 & Hcase)].
      { split; [done|]. right. right.
        rewrite Hh3, Hh1, Hl3, Hl1.
        split; [done|]. split; [done|]. split; [done|]. split; [done|].
        split; [intros Hw p c Hp; rewrite Hfiles; by apply Hkeep|].
        rewrite Ht3, Ht1. by rewrite <- !app_assoc. }
      split; [done|]. right. left.
      rewrite Hh3, Hh1, Hl3, Hl1, delete_insert_eq.
      split; [done|]. split; [done|].
      split; [intros Hw p c Hp; rewrite Hfiles; by apply Hkeep|].
      destruct Hcase as [(-> & Ht3)|(Hf & -> & Ht3)].
      * left. exists k. split; [done|]. split; [done|].
        rewrite Ht3, Ht1. by rewrite <- !app_assoc.
      * right. split; [done|]. split; [done|].
        rewrite Ht3, Ht1. by rewrite <- !app_assoc.
Qed.

(** [acquire] comes to an end: with time passing in every round of the
    loop and fuel beyond the timeout, the model never runs out of fuel,
    and with a non-blocking flag the call returns or raises. *)
Lemma acquire_terminates fuel timeout check_interval fail_when_locked self w :
  0 < Z.of_N (tick w) + Z.of_N (resolved_check_interval check_interval self) →
  (Z.to_nat (resolved_timeout timeout self) < fuel)%nat →
  (Lock.acquire fuel timeout check_interval fail_when_locked self w).2
    ≠ OutOfFuel ∧
  (Z.testbit (Lock.flags self) 2 = true →
   terminated
     (Lock.acquire fuel timeout check_interval fail_when_locked self w).2
   = true).
Proof.
  intros Hstep Hfuel.
  destruct (Lock.fh self) as [h|] eqn:Hfh.
  { by rewrite (acquire_held _ _ _ _ _ _ h). }
  rewrite acquire_unfold by done.
  destruct (Lock._get_fh self w) as [w1 r1] eqn:Hopen.
  unfold Lock._get_fh in Hopen.
  destruct r1 as [h|e| |]; try done;
    try (by apply open_not_ok in Hopen as [_ [? ?]]).
  assert (tick w1 = tick w) as Htick.
  { clear -Hopen. unfold open, new_handle in Hopen.
    repeat match type of Hopen with
    | (if ?c then _ else _) = _ => destruct c
    | match ?o with Some _ => _ | None => _ end = _ => destruct o
    end; by simplify_eq. }
  apply open_ok in Hopen as (-> & Hh1 & _).
  destruct (acquire_loop_terminates self (next_handle w)
              (now w1 + resolved_timeout timeout self)
              (resolved_check_interval check_interval self)
              (resolved_fail_when_locked fail_when_locked self)
              fuel ArgNone (current_time w1).1 (Lock.filename self))
    as [Hfuel' Hblocked].
  { simpl. rewrite Hh1. apply lookup_insert_eq. }
  { simpl. by rewrite Htick. }
  { simpl. lia. }
  destruct (Lock.acquire_loop _ _ _ _ _ _ _ _) as [w3 [h3|e3| |]]; try done.
  split; [done|]. intros Hnb. by destruct (Hblocked Hnb).
Qed.

(** ** Counting in traces *)

Lemma lock_attempts_app tr1 tr2 :
  lock_attempts (tr1 ++ tr2) = (lock_attempts tr1 + lock_attempts tr2)%nat.
Proof. unfold lock_attempts. by rewrite List.filter_app, length_app. Qed.

Lemma sleeps_app tr1 tr2 :
  sleeps (tr1 ++ tr2) = (sleeps tr1 + sleeps tr2)%nat.
Proof. unfold sleeps. by rewrite List.filter_app, length_app. Qed.

Lemma lock_attempts_retries k fh fl ci :
  lock_attempts (retries k fh fl ci) = k.
Proof.
  induction k as [|k IH]; [done|].
  change (retries (S k) fh fl ci)
    with ([EvLock fh fl false; EvSleep ci] ++ retries k fh fl ci).
  rewrite lock_attempts_app, IH. done.
Qed.

Lemma sleeps_retries k fh fl ci : sleeps (retries k fh fl ci) = k.
Proof.
  induction k as [|k IH]; [done|].
  change (retries (S k) fh fl ci)
    with ([EvLock fh fl false; EvSleep ci] ++ retries k fh fl ci).
  rewrite sleeps_app, IH. done.
Qed.

(** ** C1: a zero timeout *)

(** C1 (the code departs from it).  The claim is that a lock whose
    resolved timeout is 0 makes exactly one attempt of the primitive, so
    that it succeeds on a free lock.  In the code the deadline
    [current_time() + 0] is compared with a later reading of the clock
    before the first attempt: for every lock that holds no file object and
    every world, [acquire] with a resolved timeout of 0 never returns a
    handle, makes no attempt and no sleep, and, when the file could be
    opened, raises the generic [LockException(None)].  The part of the
    claim that holds: an explicit 0 and a timeout absent at both levels
    give the same outcome. *)
Theorem acquire_zero_timeout_never_attempts
    fuel timeout check_interval fail_when_locked self w self' w' r :
  Lock.fh self = None →
  resolved_timeout timeout self = 0 →
  Lock.acquire (S fuel) timeout check_interval fail_when_locked self w
    = (self', w', r) →
  (∀ h, r ≠ Ok h) ∧
  lock_attempts (trace w') = lock_attempts (trace w) ∧
  sleeps (trace w') = sleeps (trace w) ∧
  flocks w' ⊆ flocks w ∧
  (∀ h w1, Lock._get_fh self w = (w1, Ok h) →
           r = Raise (LockException [ArgNone])) ∧
  (Lock.timeout self = None →
   Lock.acquire (S fuel) (Some 0) check_interval fail_when_locked self w =
   Lock.acquire (S fuel) None check_interval fail_when_locked self w).
Proof.
  intros Hfh Hzero Hrun.
  assert (Lock.timeout self = None →
          Lock.acquire (S fuel) (Some 0) check_interval fail_when_locked self w =
          Lock.acquire (S fuel) None check_interval fail_when_locked self w)
    as Hsame.
  { intros Hnone. unfold Lock.acquire. by rewrite Hnone. }
  rewrite acquire_unfold in Hrun by done. rewrite Hzero in Hrun.
  destruct (Lock._get_fh self w) as [w1 r1] eqn:Hopen.
  unfold Lock._get_fh in Hopen.
  destruct r1 as [h1|e1| |].
  - rewrite acquire_loop_expired in Hrun by (simpl; lia).
    simplify_eq. apply open_ok in Hopen as (-> & _ & Hl1 & Ht1 & _).
    simpl. rewrite Hl1, Ht1.
    rewrite !lock_attempts_app, !sleeps_app.
    cbn [lock_attempts sleeps List.filter is_lock_attempt is_sleep length].
    repeat split; try done; try lia.
    apply delete_subseteq.
  - apply open_not_ok in Hopen as [-> _]; [|done]. simplify_eq.
    repeat split; done.
  - apply open_not_ok in Hopen as [_ [? ?]]; done.
  - apply open_not_ok in Hopen as [_ [? ?]]; done.
Qed.

Lemma acquire_zero_timeout_never_attempts_witness :
  let run := Lock.acquire 1 (Some 0) None None (Lock.new "f") empty_world in
  (∀ h, run.2 ≠ Ok h) ∧
  lock_attempts (trace run.1.2) = lock_attempts (trace empty_world) ∧
  sleeps (trace run.1.2) = sleeps (trace empty_world) ∧
  flocks run.1.2 ⊆ flocks empty_world ∧
  (∀ h w1, Lock._get_fh (Lock.new "f") empty_world = (w1, Ok h) →
           run.2 = Raise (LockException [ArgNone])) ∧
  (Lock.timeout (Lock.new "f") = None →
   Lock.acquire 1 (Some 0) None None (Lock.new "f") empty_world =
   Lock.acquire 1 None None None (Lock.new "f") empty_world).
Proof.
  intros run.
  assert (Lock.acquire 1 (Some 0) None None (Lock.new "f") empty_world
          = (run.1.1, run.1.2, run.2)) as Hrun by (vm_compute; reflexivity).
  apply (acquire_zero_timeout_never_attempts
           0 (Some 0) None None (Lock.new "f") empty_world _ _ _
           eq_refl eq_refl Hrun).
Defined.

(** ** C5: how a contended acquire fails *)

(** What the claim describes holds whenever the loop is entered: a failed
    [acquire] either could not open the file, or closed the file object it
    had opened and kept nothing, and then it raised [AlreadyLocked] after
    one attempt and no sleep (fail-fast), or the generic [LockException]
    carrying the last contention error, or, with the deadline passed
    before any attempt, the generic [LockException(None)]; or the
    primitive failed for another reason than contention, and then its
    exception is passed on and the file object is left open. *)
Lemma acquire_failure_classified
    fuel timeout check_interval fail_when_locked self w self' w' e :
  Lock.fh self = None →
  Lock.acquire fuel timeout check_interval fail_when_locked self w
    = (self', w', Raise e) →
  self' = self ∧
  ((w' = w ∧ Lock._get_fh self w = (w, Raise e)) ∨
   (handles w' !! next_handle w = None ∧
    flocks w' !! next_handle w = None ∧
    ((e = LockException [ArgNone] ∧
      lock_attempts (trace w') = lock_attempts (trace w))
     ∨
     (resolved_fail_when_locked fail_when_locked self = true ∧
      e = AlreadyLocked [ArgExn contention_error] ∧
      lock_attempts (trace w') = S (lock_attempts (trace w)) ∧
      sleeps (trace w') = sleeps (trace w))
     ∨
     (resolved_fail_when_locked fail_when_locked self = false ∧
      e = LockException [ArgExn contention_error] ∧
      (lock_attempts (trace w) < lock_attempts (trace w'))%nat))) ∨
   (faulty FaultLock w = true ∧ e = fatal_error ∧
    handles w' !! next_handle w = Some (Lock.filename self) ∧
    lock_attempts (trace w') = S (lock_attempts (trace w)) ∧
    sleeps (trace w') = sleeps (trace w))).
Proof.
  intros Hfh Hrun.
  apply acquire_spec in Hrun as (-> & Hcase); [|done].
  split; [done|].
  destruct Hcase as [?|[(Hh & Hl & _ & Hcase)|(Hfault & -> & Hh & _ & _ & Ht)]];
    [by left| |].
  2: { right. right. split; [done|]. split; [done|].
       rewrite Hh, lookup_insert_eq. split; [done|]. rewrite Ht.
       rewrite lock_attempts_app, sleeps_app.
       cbn [lock_attempts sleeps List.filter is_lock_attempt is_sleep length].
       lia. }
  right. left.
  rewrite Hh, Hl, !lookup_delete_eq. split; [done|]. split; [done|].
  destruct Hcase as [(k & Hk0 & -> & Ht)|(Hf & -> & Ht)].
  - destruct k as [|k].
    + left. split; [done|]. rewrite Ht.
      rewrite lock_attempts_app. simpl.
      change (lock_attempts (_ :: [EvClose _])) with 0%nat. lia.
    + right. right.
      destruct (resolved_fail_when_locked fail_when_locked self);
        [by specialize (Hk0 eq_refl)|].
      split; [done|]. split; [done|]. rewrite Ht.
      rewrite lock_attempts_app.
      change (EvOpen ?a ?b ?c :: ?l) with ([EvOpen a b c] ++ l).
      rewrite !lock_attempts_app, lock_attempts_retries.
      cbn [lock_attempts List.filter is_lock_attempt length]. lia.
  - right. left. split; [done|]. split; [done|]. rewrite Ht.
    rewrite lock_attempts_app, sleeps_app.
    cbn [lock_attempts sleeps List.filter is_lock_attempt is_sleep length].
    lia.
Qed.

(** C5 (the code departs from it, by the defect of C1).  On a file that
    another lock object holds, a fail-fast [acquire] with timeout 0 does
    not raise [AlreadyLocked]: the loop body never runs, so the contention
    is never seen and the generic [LockException(None)] is raised; without
    fail-fast the generic exception carries [None], not a contention
    error.  The handle is closed and nothing is kept in both cases. *)
Theorem zero_timeout_failure_is_generic :
  conflicts (flocks (held_by_other "f" empty_world)) 1 "f" true = true ∧
  fail_fast_zero_timeout_run.2 = Raise (LockException [ArgNone]) ∧
  waiting_zero_timeout_run.2 = Raise (LockException [ArgNone]) ∧
  Lock.fh fail_fast_zero_timeout_run.1.1 = None ∧
  handles fail_fast_zero_timeout_run.1.2 !! 1%nat = None ∧
  (Lock.acquire 1 (Some 1) None (Some true) (Lock.new "f")
                (held_by_other "f" empty_world)).2
    = Raise (AlreadyLocked [ArgExn contention_error]).
Proof. repeat split; reflexivity. Qed.

(** ** C9: acquire, then release *)

Lemma release_spec self w :
  Lock.release self w =
    match Lock.fh self with
    | Some h => (Lock.set_fh None self, close h (portalocker_unlock h w), Ok tt)
    | None => (self, w, Ok tt)
    end.
Proof. reflexivity. Qed.



(** ** C4: write modes truncate only under the lock *)

Lemma events_since_app w w' evs :
  trace w' = trace w ++ evs → events_since w w' = evs.
Proof. unfold events_since. intros ->. by rewrite drop_app_length. Qed.

Lemma truncates_under_lock_retries k h fl ci held rest :
  truncates_under_lock held (retries k h fl ci ++ rest)
  = truncates_under_lock held rest.
Proof. induction k as [|k IH]; [done|]. simpl. exact IH. Qed.

Lemma has_char_replace_w_a mode :
  has_char "w" (Lock.replace_w_a mode) = false.
Proof.
  unfold has_char, Lock.replace_w_a.
  rewrite list_ascii_of_string_of_list_ascii.
  induction (list_ascii_of_string mode) as [|c l IH]; [done|].
  cbn [existsb map]. rewrite IH, orb_false_r.
  destruct (Ascii.eqb c "w") eqn:E; [done|].
  by rewrite Ascii.eqb_sym.
Qed.

(** [mode.replace('w', 'a')], character by character. *)
Lemma replace_w_a_get mode i :
  String.get i (Lock.replace_w_a mode)
  = (λ c : ascii, if Ascii.eqb c "w" then "a"%char else c)
      <$> String.get i mode.
Proof.
  unfold Lock.replace_w_a. revert i.
  induction mode as [|c mode IH]; intros i; [done|].
  destruct i as [|i]; [done|]. simpl. apply IH.
Qed.

Lemma replace_w_a_length mode :
  String.length (Lock.replace_w_a mode) = String.length mode.
Proof.
  unfold Lock.replace_w_a.
  induction mode as [|c mode IH]; [done|]. simpl. by rewrite IH.
Qed.

Lemma has_char_replace_w_a_other c mode :
  c ≠ "w"%char → c ≠ "a"%char →
  has_char c (Lock.replace_w_a mode) = has_char c mode.
Proof.
  intros Hw Ha. unfold has_char, Lock.replace_w_a.
  rewrite list_ascii_of_string_of_list_ascii.
  induction (list_ascii_of_string mode) as [|d l IH]; [done|].
  cbn [existsb map]. rewrite IH. f_equal.
  destruct (Ascii.eqb_spec d "w") as [->|Hd]; [|done].
  destruct (Ascii.eqb_spec c "a"), (Ascii.eqb_spec c "w"); congruence.
Qed.

Lemma has_char_replace_w_a_a mode :
  has_char "a" (Lock.replace_w_a mode)
  = has_char "w" mode || has_char "a" mode.
Proof.
  unfold has_char, Lock.replace_w_a.
  rewrite list_ascii_of_string_of_list_ascii.
  induction (list_ascii_of_string mode) as [|d l IH]; [done|].
  cbn [existsb map]. rewrite IH.
  destruct (Ascii.eqb_spec d "w") as [->|Hd].
  - done.
  - destruct (Ascii.eqb_spec "w"%char d) as [<-|_]; [done|].
    by destruct (Ascii.eqb "a" d), (existsb (Ascii.eqb "w") l),
                (existsb (Ascii.eqb "a") l).
Qed.

(** C4.  A lock constructed with a mode that contains 'w' stores the mode
    with every 'w' replaced by 'a' and every other character kept in its
    place (so the mode opens for appending, binary and update flags are
    as given), and sets the truncate flag.  In every
    run of [acquire] on it the file is opened, then locked, then
    truncated: every truncation happens through a file object that holds
    the lock, a successful run ends with the lock taken, the seek and the
    truncation, in this order, and leaves the file empty; a run that does
    not obtain the lock changes the content of no existing file. *)
Theorem write_mode_truncates_after_lock
    filename mode timeout check_interval fail_when_locked flags kwargs :
  has_char "w" mode = true →
  let self := Lock.__init__ filename mode timeout check_interval
                fail_when_locked flags kwargs in
  Lock.truncate self = true ∧
  Lock.mode self = Lock.replace_w_a mode ∧
  has_char "w" (Lock.mode self) = false ∧
  has_char "a" (Lock.mode self) = true ∧
  String.length (Lock.mode self) = String.length mode ∧
  (∀ i, String.get i (Lock.mode self)
        = (λ c : ascii, if Ascii.eqb c "w" then "a"%char else c)
            <$> String.get i mode) ∧
  (∀ c, c ≠ "w"%char → c ≠ "a"%char →
        has_char c (Lock.mode self) = has_char c mode) ∧
  ∀ fuel t c f w self' w' r,
    Lock.acquire fuel t c f self w = (self', w', r) →
    truncates_under_lock [] (events_since w w') = true ∧
    match r with
    | Ok h =>
        files w' !! filename = Some "" ∧
        ∃ before,
          events_since w w' =
            EvOpen h filename (Lock.mode self) :: before
              ++ [EvLock h flags true; EvSeek h 0; EvTruncate h 0] ∧
          Forall (λ e, e = EvLock h flags false ∨ is_sleep e = true) before
    | _ => ∀ p content, files w !! p = Some content →
                        files w' !! p = Some content
    end.
Proof.
  intros Hw self.
  assert (Lock.truncate self = true ∧ Lock.mode self = Lock.replace_w_a mode
          ∧ Lock.filename self = filename ∧ Lock.flags self = flags
          ∧ Lock.fh self = None) as (Htr & Hmode & Hname & Hflags & Hfh).
  { subst self. unfold Lock.__init__. by rewrite Hw. }
  split; [done|]. split; [done|].
  split; [rewrite Hmode; apply has_char_replace_w_a|].
  split; [by rewrite Hmode, has_char_replace_w_a_a, Hw|].
  split; [rewrite Hmode; apply replace_w_a_length|].
  split; [intros i; rewrite Hmode; apply replace_w_a_get|].
  split; [intros c0 ? ?; rewrite Hmode; by apply has_char_replace_w_a_other|].
  intros fuel t c f w self' w' r Hrun.
  apply acquire_spec in Hrun; [|done]. cbn zeta in Hrun.
  rewrite Htr, Hmode, Hname, Hflags in Hrun.
  assert (∀ k h ci,
            Forall (λ e, e = EvLock h flags false ∨ is_sleep e = true)
                   (retries k h flags ci)) as Hwaits.
  { intros k h ci. induction k as [|k IH]; simpl; [constructor|].
    constructor; [by left|]. constructor; [by right|]. done. }
  destruct r as [h|e| |].
  - destruct Hrun as (-> & _ & _ & _ & Hempty & k & _ & Ht).
    rewrite (events_since_app _ _ _ Ht).
    split.
    { cbn [truncates_under_lock].
      rewrite truncates_under_lock_retries. simpl.
      by rewrite Nat.eqb_refl. }
    split; [by apply Hempty|].
    exists (retries k (next_handle w) flags
                    (resolved_check_interval c self)).
    split; [by rewrite Hmode|]. apply Hwaits.
  - destruct Hrun
      as (_ & [[-> _]|[(_ & _ & Hkeep & Hcase)|(_ & _ & _ & _ & Hkeep & Ht)]]).
    + split; [|done]. unfold events_since. by rewrite drop_all.
    + split; [|apply Hkeep, has_char_replace_w_a].
      destruct Hcase as [(k & _ & _ & Ht)|(_ & _ & Ht)];
        rewrite (events_since_app _ _ _ Ht).
      * cbn [truncates_under_lock].
        by rewrite truncates_under_lock_retries.
      * done.
    + split; [|apply Hkeep, has_char_replace_w_a].
      by rewrite (events_since_app _ _ _ Ht).
  - destruct Hrun as (_ & Hkeep & k & Ht).
    rewrite (events_since_app _ _ _ Ht).
    split; [|apply Hkeep, has_char_replace_w_a].
    cbn [truncates_under_lock].
    rewrite <- (app_nil_r (retries _ _ _ _)).
    by rewrite truncates_under_lock_retries.
  - destruct Hrun as (_ & Hkeep & k & Ht).
    rewrite (events_since_app _ _ _ Ht).
    split; [|apply Hkeep, has_char_replace_w_a].
    cbn [truncates_under_lock].
    rewrite <- (app_nil_r (retries _ _ _ _)).
    by rewrite truncates_under_lock_retries.
Qed.

Lemma write_mode_truncates_after_lock_witness :
  let self := Lock.__init__ "f" "wb+" (Some 1000) 250 false LOCK_METHOD [] in
  Lock.mode self = "ab+" ∧
  Lock.truncate self = true ∧
  Lock.mode self = Lock.replace_w_a "wb+" ∧
  has_char "w" (Lock.mode self) = false ∧
  has_char "a" (Lock.mode self) = true ∧
  String.length (Lock.mode self) = String.length "wb+" ∧
  (∀ i, String.get i (Lock.mode self)
        = (λ c : ascii, if Ascii.eqb c "w" then "a"%char else c)
            <$> String.get i "wb+") ∧
  (∀ c, c ≠ "w"%char → c ≠ "a"%char →
        has_char c (Lock.mode self) = has_char c "wb+") ∧
  ∀ fuel t c f w self' w' r,
    Lock.acquire fuel t c f self w = (self', w', r) →
    truncates_under_lock [] (events_since w w') = true ∧
    match r with
    | Ok h =>
        files w' !! "f" = Some "" ∧
        ∃ before,
          events_since w w' =
            EvOpen h "f" (Lock.mode self) :: before
              ++ [EvLock h LOCK_METHOD true; EvSeek h 0; EvTruncate h 0] ∧
          Forall (λ e, e = EvLock h LOCK_METHOD false ∨ is_sleep e = true)
                 before
    | _ => ∀ p content, files w !! p = Some content →
                        files w' !! p = Some content
    end.
Proof.
  split; [reflexivity|].
  apply (write_mode_truncates_after_lock
           "f" "wb+" (Some 1000) 250%N false LOCK_METHOD []).
  reflexivity.
Defined.

(** ** C6 and C7: the reentrant lock *)

Lemma rlock_acquire_reentrant fuel t c f self w :
  1 <= RLock._acquire_count self →
  RLock.acquire fuel t c f self w =
    (RLock.mk (RLock.base self) (RLock._acquire_count self + 1), w,
     Ok (Lock.fh (RLock.base self))).
Proof.
  intros H. unfold RLock.acquire.
  destruct (RLock._acquire_count self >=? 1) eqn:E; [done|lia].
Qed.

Lemma rlock_release_inner self w :
  1 < RLock._acquire_count self →
  RLock.release self w =
    (RLock.mk (RLock.base self) (RLock._acquire_count self - 1), w, Ok tt).
Proof.
  intros H. unfold RLock.release.
  destruct (RLock._acquire_count self =? 0)%Z eqn:E0; [lia|].
  destruct (RLock._acquire_count self =? 1)%Z eqn:E1; [lia|done].
Qed.

Lemma rlock_acquire_first fuel t c f self w :
  RLock._acquire_count self = 0 →
  RLock.acquire fuel t c f self w =
    match Lock.acquire fuel t c f (RLock.base self) w with
    | (b, w', Ok h) => (RLock.mk b 1, w', Ok (Some h))
    | (b, w', Raise e) => (RLock.mk b 0, w', Raise e)
    | (b, w', Blocked) => (RLock.mk b 0, w', Blocked)
    | (b, w', OutOfFuel) => (RLock.mk b 0, w', OutOfFuel)
    end.
Proof. intros H. unfold RLock.acquire. by rewrite H. Qed.

Lemma rlock_release_last self w :
  RLock._acquire_count self = 1 →
  RLock.release self w =
    (RLock.mk (Lock.set_fh None (RLock.base self)) 0,
     match Lock.fh (RLock.base self) with
     | Some h => close h (portalocker_unlock h w)
     | None => w
     end, Ok tt).
Proof.
  intros H. unfold RLock.release. rewrite H. simpl.
  rewrite release_spec. by destruct (RLock.base self) as [[h|] ?].
Qed.

Lemma acquire_times_reentrant n fuel b w : ∀ count,
  1 <= count →
  acquire_times n fuel (RLock.mk b count) w
  = (RLock.mk b (count + Z.of_nat n), w).
Proof.
  induction n as [|n IH]; intros count Hc.
  - simpl. by rewrite Z.add_0_r.
  - cbn [acquire_times].
    rewrite rlock_acquire_reentrant by done. simpl.
    rewrite IH by lia. do 2 f_equal. lia.
Qed.

Lemma release_times_inner n b w : ∀ count,
  Z.of_nat n < count →
  release_times n (RLock.mk b count) w = (RLock.mk b (count - Z.of_nat n), w).
Proof.
  induction n as [|n IH]; intros count Hc.
  - simpl. by rewrite Z.sub_0_r.
  - cbn [release_times].
    rewrite rlock_release_inner by (simpl; lia). simpl.
    rewrite IH by lia. do 2 f_equal. lia.
Qed.

Lemma rlock_invariant_acquire fuel t c f self w self' w' r :
  RLock_invariant self w →
  RLock.acquire fuel t c f self w = (self', w', r) →
  RLock_invariant self' w'.
Proof.
  intros (Hnn & Hpos & Hzero) Hrun.
  destruct (decide (1 <= RLock._acquire_count self)) as [Hge|Hlt].
  - rewrite rlock_acquire_reentrant in Hrun by done. simplify_eq.
    split; [simpl; lia|]. split; [intros _; apply Hpos; lia|].
    simpl. lia.
  - assert (RLock._acquire_count self = 0) as Hc by lia.
    rewrite rlock_acquire_first in Hrun by done.
    destruct (Lock.acquire fuel t c f (RLock.base self) w)
      as [[b w1] r1] eqn:Hacq.
    apply acquire_spec in Hacq; [|by apply Hzero]. cbn zeta in Hacq.
    destruct r1 as [h|e| |]; simplify_eq.
    + destruct Hacq as (-> & -> & Hh & Hl & _).
      split; [done|]. split; [|done]. intros _.
      exists (next_handle w). simpl. split; [done|].
      rewrite Hh, Hl, !lookup_insert_eq. eauto.
    + destruct Hacq as [-> _].
      split; [done|]. split; [simpl; lia|]. intros _. by apply Hzero.
    + destruct Hacq as [-> _].
      split; [done|]. split; [simpl; lia|]. intros _. by apply Hzero.
    + destruct Hacq as [-> _].
      split; [done|]. split; [simpl; lia|]. intros _. by apply Hzero.
Qed.

Lemma rlock_invariant_release self w self' w' r :
  RLock_invariant self w →
  RLock.release self w = (self', w', r) →
  RLock_invariant self' w'.
Proof.
  intros (Hnn & Hpos & Hzero) Hrun.
  destruct (decide (RLock._acquire_count self = 0)) as [H0|Hn0].
  - unfold RLock.release in Hrun. rewrite H0 in Hrun. simpl in Hrun.
    simplify_eq. done.
  - destruct (decide (RLock._acquire_count self = 1)) as [H1|Hn1].
    + rewrite rlock_release_last in Hrun by done. simplify_eq.
      split; [done|]. split; [simpl; lia|]. done.
    + rewrite rlock_release_inner in Hrun by lia. simplify_eq.
      split; [simpl; lia|]. split; [intros _; apply Hpos; lia|].
      simpl. lia.
Qed.

(** C6.  A new reentrant lock has its counter and its wrapped lock in
    agreement (counter above 0: the wrapped lock is held; counter 0: it
    holds no file object), and [acquire] and [release] keep them in
    agreement.  At a counter of 1 or more [acquire] returns the held file
    object, adds one and leaves the world as it is; at a counter above 1
    [release] subtracts one and leaves the world as it is; at 0 [acquire]
    is the wrapped lock's [acquire], and at 1 [release] is the wrapped
    lock's [release].  Hence after a first successful [acquire], [n] more
    and then [n] calls of [release], the lock is where the first
    [acquire] left it, still held, and one more [release] unlocks and
    closes the file object. *)
Theorem rlock_counts_acquisitions fuel self w :
  RLock_invariant self w →
  (∀ filename mode t c f flags w0,
     RLock_invariant (RLock.__init__ filename mode t c f flags) w0) ∧
  (∀ t c f self' w' r,
     RLock.acquire fuel t c f self w = (self', w', r) →
     RLock_invariant self' w') ∧
  (∀ self' w' r,
     RLock.release self w = (self', w', r) → RLock_invariant self' w') ∧
  (1 <= RLock._acquire_count self →
   held (RLock.base self) w ∧
   ∀ t c f,
     RLock.acquire fuel t c f self w =
       (RLock.mk (RLock.base self) (RLock._acquire_count self + 1), w,
        Ok (Lock.fh (RLock.base self)))) ∧
  (1 < RLock._acquire_count self →
   RLock.release self w =
     (RLock.mk (RLock.base self) (RLock._acquire_count self - 1), w, Ok tt)) ∧
  (RLock._acquire_count self = 0 →
   ∀ t c f,
     (RLock.acquire fuel t c f self w).1.2
       = (Lock.acquire fuel t c f (RLock.base self) w).1.2) ∧
  (RLock._acquire_count self = 1 →
   (RLock.release self w).1.2 = (Lock.release (RLock.base self) w).1.2 ∧
   RLock._acquire_count (RLock.release self w).1.1 = 0 ∧
   Lock.fh (RLock.base (RLock.release self w).1.1) = None) ∧
  (∀ n self1 w1 h,
     RLock._acquire_count self = 0 →
     RLock.acquire fuel None None None self w = (self1, w1, Ok (Some h)) →
     release_times n (acquire_times n fuel self1 w1).1
                     (acquire_times n fuel self1 w1).2 = (self1, w1) ∧
     RLock._acquire_count self1 = 1 ∧
     RLock._acquire_count (acquire_times n fuel self1 w1).1 = 1 + Z.of_nat n ∧
     Lock.fh (RLock.base self1) = Some h ∧
     is_Some (handles w1 !! h) ∧ is_Some (flocks w1 !! h) ∧
     (RLock.release self1 w1).2 = Ok tt ∧
     RLock._acquire_count (RLock.release self1 w1).1.1 = 0 ∧
     Lock.fh (RLock.base (RLock.release self1 w1).1.1) = None ∧
     handles (RLock.release self1 w1).1.2 !! h = None ∧
     flocks (RLock.release self1 w1).1.2 !! h = None).
Proof.
  intros Hinv.
  split.
  { intros filename mode t c f flags w0. unfold RLock.__init__, Lock.__init__.
    split; [done|]. split; [simpl; lia|]. intros _.
    by destruct (has_char "w" mode). }
  split; [intros; by eapply rlock_invariant_acquire|].
  split; [intros; by eapply rlock_invariant_release|].
  destruct Hinv as (Hnn & Hpos & Hzero).
  split.
  { intros Hge. split; [apply Hpos; lia|].
    intros. by apply rlock_acquire_reentrant. }
  split; [apply rlock_release_inner|].
  split.
  { intros H0 t c f. rewrite rlock_acquire_first by done.
    by destruct (Lock.acquire fuel t c f (RLock.base self) w)
      as [[b w1] [h|e| |]]. }
  split.
  { intros H1. rewrite rlock_release_last by done.
    rewrite release_spec. by destruct (Lock.fh (RLock.base self)). }
  intros n self1 w1 h H0 Hacq.
  rewrite rlock_acquire_first in Hacq by done.
  destruct (Lock.acquire fuel None None None (RLock.base self) w)
    as [[b w2] r2] eqn:Hbase.
  destruct r2 as [h2|e| |]; simplify_eq.
  apply acquire_spec in Hbase; [|by apply Hzero]. cbn zeta in Hbase.
  destruct Hbase as (-> & -> & Hh & Hl & _).
  rewrite acquire_times_reentrant by done. cbn [fst snd].
  rewrite release_times_inner by lia.
  replace (1 + Z.of_nat n - Z.of_nat n) with 1 by lia.
  split; [done|]. split; [done|]. split; [done|]. split; [done|].
  rewrite Hh, Hl, !lookup_insert_eq.
  split; [eauto|]. split; [eauto|].
  rewrite rlock_release_last by done. simpl.
  by rewrite !lookup_delete_eq.
Qed.

Lemma rlock_counts_acquisitions_witness :
  let first := RLock.acquire 1 None None None (RLock.new "f") empty_world in
  let self1 := first.1.1 in
  let w1 := first.1.2 in
  RLock_invariant (RLock.new "f") empty_world ∧
  first.2 = Ok (Some 0%nat) ∧
  release_times 2 (acquire_times 2 1 self1 w1).1
                  (acquire_times 2 1 self1 w1).2 = (self1, w1) ∧
  RLock._acquire_count self1 = 1 ∧
  RLock._acquire_count (acquire_times 2 1 self1 w1).1 = 1 + Z.of_nat 2 ∧
  Lock.fh (RLock.base self1) = Some 0%nat ∧
  is_Some (handles w1 !! 0%nat) ∧ is_Some (flocks w1 !! 0%nat) ∧
  (RLock.release self1 w1).2 = Ok tt ∧
  RLock._acquire_count (RLock.release self1 w1).1.1 = 0 ∧
  Lock.fh (RLock.base (RLock.release self1 w1).1.1) = None ∧
  handles (RLock.release self1 w1).1.2 !! 0%nat = None ∧
  flocks (RLock.release self1 w1).1.2 !! 0%nat = None.
Proof.
  intros first self1 w1.
  assert (RLock_invariant (RLock.new "f") empty_world) as Hinv.
  { split; [simpl; lia|]. split; [simpl; lia|]. reflexivity. }
  assert (RLock.acquire 1 None None None (RLock.new "f") empty_world
          = (self1, w1, Ok (Some 0%nat))) as Hfirst
    by (vm_compute; reflexivity).
  split; [exact Hinv|]. split; [vm_compute; reflexivity|].
  destruct (rlock_counts_acquisitions 1 (RLock.new "f") empty_world Hinv)
    as (_ & _ & _ & _ & _ & _ & _ & Htimes).
  exact (Htimes 2%nat self1 w1 0%nat eq_refl Hfirst).
Defined.

(** C7.  At a counter of 0, [release] raises an exception with the
    message that the lock cannot be released more times than acquired; the
    lock object and the world (its trace included: nothing was called, no
    second try) are as before. *)
Theorem rlock_release_unacquired self w :
  RLock._acquire_count self = 0 →
  RLock.release self w =
    (self, w,
     Raise (LockException [ArgStr "Cannot release more times than acquired"])).
Proof. intros H. unfold RLock.release. by rewrite H. Qed.

Lemma rlock_release_unacquired_witness :
  RLock._acquire_count (RLock.new "f") = 0 ∧
  RLock.release (RLock.new "f") empty_world =
    (RLock.new "f", empty_world,
     Raise (LockException [ArgStr "Cannot release more times than acquired"])).
Proof.
  split; [reflexivity|].
  apply (rlock_release_unacquired (RLock.new "f") empty_world). reflexivity.
Defined.

(** ** C2 and C3: the bounded semaphore *)

Lemma slot_lock_fh filename : Lock.fh (BoundedSemaphore.slot_lock filename) = None.
Proof. reflexivity. Qed.

Lemma try_lock_spec fuel filenames : ∀ self w self' w' r,
  BoundedSemaphore.try_lock fuel filenames self w = (self', w', r) →
  (∀ a, r ≠ Raise (AlreadyLocked a)) ∧
  (r = Ok false → (filenames = [] ∨ stale self') ∧ (stale self → stale self')).
Proof.
  induction filenames as [|filename rest IH]; intros self w self' w' r Hrun.
  - simpl in Hrun. simplify_eq. split; [done|]. intros _. split; [by left|done].
  - cbn [BoundedSemaphore.try_lock] in Hrun.
    destruct (Lock.acquire fuel None None None
                (BoundedSemaphore.slot_lock filename) w)
      as [[l w1] r1] eqn:Hacq.
    apply acquire_spec in Hacq; [|apply slot_lock_fh]. cbn zeta in Hacq.
    destruct r1 as [h|e| |]; try (simplify_eq; by split).
    destruct Hacq as [-> _].
    assert (stale (BoundedSemaphore.set_lock
                     (Some (BoundedSemaphore.slot_lock filename)) self))
      as Hstale by (eexists; split; [reflexivity|apply slot_lock_fh]).
    destruct e; try (simplify_eq; by split).
    apply IH in Hrun as [Hne Hfalse].
    split; [done|]. intros Hr. destruct (Hfalse Hr) as [Hcase Hkeep].
    split; [right|intros _]; by apply Hkeep.
Qed.

Lemma semaphore_loop_stale fuel filenames timeout_end check_interval :
  ∀ self w self' w' a,
  stale self →
  BoundedSemaphore.acquire_loop fuel filenames timeout_end check_interval
    self w = (self', w', Raise (AlreadyLocked a)) →
  stale self'.
Proof.
  induction fuel as [|n IH]; intros self w self' w' a Hstale Hrun.
  - simpl in Hrun. by simplify_eq.
  - cbn [BoundedSemaphore.acquire_loop] in Hrun.
    destruct (current_time w) as [w1 t].
    destruct (timeout_end >? t); [|by simplify_eq].
    destruct (BoundedSemaphore.try_lock (S n) filenames self w1)
      as [[self1 w2] r1] eqn:Htry.
    apply try_lock_spec in Htry as [Hne Hfalse].
    destruct r1 as [[|]|e| |]; try by simplify_eq.
    + apply IH in Hrun; [done|]. by apply Hfalse.
    + simplify_eq. by destruct (Hne a).
Qed.

Lemma get_filenames_nonempty self :
  0 < BoundedSemaphore.maximum self → BoundedSemaphore.get_filenames self ≠ [].
Proof.
  intros Hmax. unfold BoundedSemaphore.get_filenames.
  destruct (Z.to_nat (BoundedSemaphore.maximum self)) eqn:E; [lia|done].
Qed.

(** C3 (the code departs from it).  The claim is that after an [acquire]
    that fails with [AlreadyLocked] the semaphore keeps no lock object, so
    that a later [acquire] is not taken for a second one.  [try_lock]
    stores the lock object in [self.lock] before trying it and does not
    clear it when the file is busy: after such a failure of a semaphore
    with at least one permit, [self.lock] is a lock object that holds no
    file object, and every later [acquire] on the instance fails with the
    assertion error 'Already locked', whatever the state of the files. *)
Theorem failed_acquire_keeps_stale_lock
    fuel timeout check_interval self w self' w' :
  BoundedSemaphore.lock self = None →
  0 < BoundedSemaphore.maximum self →
  BoundedSemaphore.acquire fuel timeout check_interval self w
    = (self', w', Raise (AlreadyLocked [])) →
  stale self' ∧
  ∀ fuel' timeout' check_interval' w'',
    BoundedSemaphore.acquire fuel' timeout' check_interval' self' w''
    = (self', w'', Raise (AssertionError "Already locked")).
Proof.
  intros Hnone Hmax Hrun.
  assert (stale self') as Hstale.
  { unfold BoundedSemaphore.acquire in Hrun. rewrite Hnone in Hrun.
    destruct (BoundedSemaphore.try_lock fuel
                (BoundedSemaphore.get_filenames self) self w)
      as [[self1 w1] r1] eqn:Htry.
    apply try_lock_spec in Htry as [Hne Hfalse].
    destruct r1 as [[|]|e| |]; try by simplify_eq.
    - destruct (Hfalse eq_refl) as [[Hempty|Hst] _];
        [by apply get_filenames_nonempty in Hempty|].
      match type of Hrun with
      | (if ?c then _ else _) = _ => destruct c
      end; [by simplify_eq|].
      destruct (current_time w1) as [w2 t0].
      by eapply semaphore_loop_stale.
    - simplify_eq. by destruct (Hne []). }
  split; [done|].
  intros fuel' timeout' check_interval' w''.
  destruct Hstale as (l & Hl & _).
  unfold BoundedSemaphore.acquire. by rewrite Hl.
Qed.

Lemma failed_acquire_keeps_stale_lock_witness :
  let run := BoundedSemaphore.acquire 1 None None one_permit one_permit_busy in
  BoundedSemaphore.lock one_permit = None ∧
  0 < BoundedSemaphore.maximum one_permit ∧
  run.2 = Raise (AlreadyLocked []) ∧
  stale run.1.1 ∧
  ∀ fuel' timeout' check_interval' w'',
    BoundedSemaphore.acquire fuel' timeout' check_interval' run.1.1 w''
    = (run.1.1, w'', Raise (AssertionError "Already locked")).
Proof.
  intros run.
  assert (BoundedSemaphore.acquire 1 None None one_permit one_permit_busy
          = (run.1.1, run.1.2, Raise (AlreadyLocked []))) as Hrun
    by (vm_compute; reflexivity).
  split; [reflexivity|]. split; [reflexivity|].
  split; [vm_compute; reflexivity|].
  apply (failed_acquire_keeps_stale_lock
           1 None None one_permit one_permit_busy _ _ eq_refl eq_refl Hrun).
Defined.

(** *** What [acquire] does with the random source and in which order it
    opens the files *)

Lemma acquire_loop_set_rng d self fh te ci fwl fuel : ∀ exc w,
  Lock.acquire_loop fuel self fh te ci fwl exc (set_rng d w) =
  (set_rng d (Lock.acquire_loop fuel self fh te ci fwl exc w).1,
   (Lock.acquire_loop fuel self fh te ci fwl exc w).2).
Proof.
  induction fuel as [|n IH]; intros exc w; [reflexivity|].
  cbn -[Z.testbit conflicts Z.gtb Z.add Lock.acquire_loop].
  cbn [Lock.acquire_loop].
  cbn -[Z.testbit conflicts Z.gtb Z.add Lock.acquire_loop].
  destruct (te >? now w); [|reflexivity].
  unfold Lock._get_lock, portalocker_lock.
  cbn -[Z.testbit conflicts Z.gtb Z.add Lock.acquire_loop].
  destruct (handles w !! fh) as [path|]; [|reflexivity].
  destruct (existsb (io_fault_eqb FaultLock) (faults w)); [reflexivity|].
  destruct (conflicts (flocks w) fh path (Z.testbit (Lock.flags self) 1));
    [|reflexivity].
  destruct (Z.testbit (Lock.flags self) 2); [|reflexivity].
  cbn -[Z.testbit conflicts Z.gtb Z.add Lock.acquire_loop].
  destruct fwl; [reflexivity|].
  exact (IH _ (sleep ci (log (EvLock fh (Lock.flags self) false)
                             (current_time w).1))).
Qed.

Lemma open_set_rng d path mode w :
  open path mode (set_rng d w) =
  (set_rng d (open path mode w).1, (open path mode w).2).
Proof.
  unfold open, new_handle, parent_exists, faulty.
  cbn [dirs files faults set_rng].
  repeat match goal with
  | |- context [if ?c then _ else _] => destruct c
  | |- context [match files w !! path with _ => _ end] =>
      destruct (files w !! path)
  end; reflexivity.
Qed.

Lemma lock_acquire_set_rng d fuel t c f self w :
  Lock.acquire fuel t c f self (set_rng d w)
  = with_rng d (Lock.acquire fuel t c f self w).
Proof.
  unfold Lock.acquire, with_rng, Lock._get_fh.
  destruct (Lock.fh self); [reflexivity|].
  rewrite open_set_rng.
  destruct (open (Lock.filename self) (Lock.mode self) w) as [w1 [h|e| |]];
    try reflexivity.
  cbn [fst snd current_time now tick set_rng].
  match goal with
  | |- context [Lock.acquire_loop ?a ?b ?c ?d' ?e ?g ?h (set_now ?t (set_rng d w1))] =>
      change (set_now t (set_rng d w1)) with (set_rng d (set_now t w1));
      rewrite (acquire_loop_set_rng d b c d' e g a h (set_now t w1));
      destruct (Lock.acquire_loop a b c d' e g h (set_now t w1)) as [w3 [h3|e3| |]]
  end; try reflexivity.
  unfold Lock._prepare_fh, truncate_file, seek.
  destruct (Lock.truncate self); [|reflexivity].
  cbn [fst snd handles files log set_rng].
  destruct (handles w3 !! h3) as [p|]; [|reflexivity].
  destruct (files w3 !! p); reflexivity.
Qed.

Lemma try_lock_set_rng d fuel filenames : ∀ self w,
  BoundedSemaphore.try_lock fuel filenames self (set_rng d w)
  = with_rng d (BoundedSemaphore.try_lock fuel filenames self w).
Proof.
  induction filenames as [|filename rest IH]; intros self w; [reflexivity|].
  cbn [BoundedSemaphore.try_lock]. rewrite lock_acquire_set_rng.
  unfold with_rng at 1.
  destruct (Lock.acquire fuel None None None
              (BoundedSemaphore.slot_lock filename) w) as [[l w1] [h|e| |]];
    cbn [fst snd]; try reflexivity.
  destruct e; try reflexivity. apply IH.
Qed.

Lemma semaphore_loop_set_rng d filenames te ci fuel : ∀ self w,
  BoundedSemaphore.acquire_loop fuel filenames te ci self (set_rng d w)
  = with_rng d (BoundedSemaphore.acquire_loop fuel filenames te ci self w).
Proof.
  induction fuel as [|n IH]; intros self w; [reflexivity|].
  cbn [BoundedSemaphore.acquire_loop current_time now tick set_rng].
  destruct (te >? now w); [|reflexivity].
  change (set_now ?t (set_rng d w)) with (set_rng d (set_now t w)).
  rewrite try_lock_set_rng. unfold with_rng at 1.
  destruct (BoundedSemaphore.try_lock (S n) filenames self _)
    as [[self1 w2] [[|]|e| |]]; cbn [fst snd]; try reflexivity.
  exact (IH self1 (sleep ci w2)).
Qed.

Lemma semaphore_acquire_set_rng d fuel t c self w :
  BoundedSemaphore.acquire fuel t c self (set_rng d w)
  = with_rng d (BoundedSemaphore.acquire fuel t c self w).
Proof.
  unfold BoundedSemaphore.acquire.
  destruct (BoundedSemaphore.lock self); [reflexivity|].
  rewrite try_lock_set_rng. unfold with_rng at 1.
  destruct (BoundedSemaphore.try_lock fuel _ self w)
    as [[self1 w1] [[|]|e| |]]; cbn [fst snd]; try reflexivity.
  match goal with |- context [if ?c then _ else _] => destruct c end;
    [reflexivity|].
  cbn [current_time now tick set_rng].
  change (set_now ?t (set_rng d w1)) with (set_rng d (set_now t w1)).
  apply semaphore_loop_set_rng.
Qed.

Lemma opened_files_app tr1 tr2 :
  opened_files (tr1 ++ tr2) = opened_files tr1 ++ opened_files tr2.
Proof. unfold opened_files. apply omap_app. Qed.

Lemma opened_files_retries k fh fl ci : opened_files (retries k fh fl ci) = [].
Proof. induction k as [|k IH]; [done|]. exact IH. Qed.

Lemma open_raises path mode w w1 e :
  open path mode w = (w1, Raise e) → ∀ a, e ≠ AlreadyLocked a.
Proof.
  unfold open, new_handle. intros Hopen a.
  repeat match type of Hopen with
  | (if ?c then _ else _) = _ => destruct c
  | match ?o with Some _ => _ | None => _ end = _ => destruct o
  end; by simplify_eq.
Qed.

(** A call of [acquire] on a lock that holds nothing opens its file, once,
    unless [open] itself fails. *)
Lemma lock_acquire_opens fuel t c f self w self' w' r :
  Lock.fh self = None →
  Lock.acquire fuel t c f self w = (self', w', r) →
  ∃ evs, trace w' = trace w ++ evs ∧
    (opened_files evs = [Lock.filename self] ∨
     (opened_files evs = [] ∧ ∃ e, r = Raise e ∧ ∀ a, e ≠ AlreadyLocked a)).
Proof.
  intros Hfh Hrun. apply acquire_spec in Hrun; [|done]. cbn zeta in Hrun.
  destruct r as [h|e| |].
  - destruct Hrun as (_ & _ & _ & _ & _ & k & _ & Ht).
    eexists. split; [exact Ht|]. left.
    change (EvOpen ?a ?b ?c :: ?l) with ([EvOpen a b c] ++ l).
    rewrite !opened_files_app, opened_files_retries.
    by destruct (Lock.truncate self).
  - destruct Hrun
      as (_ & [[-> Hopen]|[(_ & _ & _ & Hcase)|(_ & _ & _ & _ & _ & Ht)]]).
    + exists []. split; [by rewrite app_nil_r|]. right. split; [done|].
      exists e. split; [done|]. by eapply open_raises.
    + destruct Hcase as [(k & _ & _ & Ht)|(_ & _ & Ht)];
        (eexists; split; [exact Ht|]); left; [|done].
      change (EvOpen ?a ?b ?c :: ?l) with ([EvOpen a b c] ++ l).
      by rewrite !opened_files_app, opened_files_retries.
    + eexists. split; [exact Ht|]. by left.
  - destruct Hrun as (_ & _ & k & Ht).
    eexists. split; [exact Ht|]. left.
    change (EvOpen ?a ?b ?c :: ?l) with ([EvOpen a b c] ++ l).
    by rewrite !opened_files_app, opened_files_retries.
  - destruct Hrun as (_ & _ & k & Ht).
    eexists. split; [exact Ht|]. left.
    change (EvOpen ?a ?b ?c :: ?l) with ([EvOpen a b c] ++ l).
    by rewrite !opened_files_app, opened_files_retries.
Qed.

(** One pass opens the candidates in the order of the list it is given,
    all of them when every one is busy. *)
Lemma try_lock_opens_in_order fuel filenames : ∀ self w self' w' r,
  BoundedSemaphore.try_lock fuel filenames self w = (self', w', r) →
  ∃ evs, trace w' = trace w ++ evs ∧
    opened_files evs `prefix_of` filenames ∧
    (r = Ok false → opened_files evs = filenames).
Proof.
  induction filenames as [|filename rest IH]; intros self w self' w' r Hrun.
  - simpl in Hrun. simplify_eq. exists []. by rewrite app_nil_r.
  - cbn [BoundedSemaphore.try_lock] in Hrun.
    destruct (Lock.acquire fuel None None None
                (BoundedSemaphore.slot_lock filename) w)
      as [[l w1] r1] eqn:Hacq.
    apply lock_acquire_opens in Hacq as (evs1 & Ht1 & Hopened);
      [|apply slot_lock_fh].
    change (Lock.filename (BoundedSemaphore.slot_lock filename))
      with filename in Hopened.
    assert (opened_files evs1 `prefix_of` filename :: rest) as Hpre.
    { destruct Hopened as [->|[-> _]];
        [by apply prefix_cons, prefix_nil | apply prefix_nil]. }
    destruct r1 as [h|e| |];
      try (simplify_eq; exists evs1; by repeat split).
    destruct e; try (simplify_eq; exists evs1; by repeat split).
    destruct Hopened as [Hone|(_ & e & [= <-] & Hne)];
      [|by destruct (Hne args)].
    apply IH in Hrun as (evs2 & Ht2 & Hpre2 & Hall).
    exists (evs1 ++ evs2). split; [by rewrite Ht2, Ht1, app_assoc|].
    rewrite opened_files_app, Hone. split.
    + by apply prefix_cons.
    + intros Hr. by rewrite (Hall Hr).
Qed.

Lemma passes_over_pass filenames rest :
  passes_over filenames rest → passes_over filenames (filenames ++ rest).
Proof.
  intros (n & last & -> & Hlast). exists (S n), last.
  split; [|done]. simpl. by rewrite app_assoc.
Qed.

Lemma semaphore_loop_order filenames te ci fuel : ∀ self w self' w' r,
  BoundedSemaphore.acquire_loop fuel filenames te ci self w = (self', w', r) →
  ∃ evs, trace w' = trace w ++ evs ∧ passes_over filenames (opened_files evs).
Proof.
  induction fuel as [|n IH]; intros self w self' w' r Hrun.
  - simpl in Hrun. simplify_eq. exists []. split; [by rewrite app_nil_r|].
    exists O, []. split; [done|apply prefix_nil].
  - cbn [BoundedSemaphore.acquire_loop current_time] in Hrun.
    destruct (te >? now w).
    + destruct (BoundedSemaphore.try_lock (S n) filenames self _)
        as [[self1 w2] r1] eqn:Htry.
      apply try_lock_opens_in_order in Htry as (evs1 & Ht1 & Hpre & Hall).
      simpl in Ht1.
      assert (passes_over filenames (opened_files evs1)) as Hlast
        by (by exists O, (opened_files evs1)).
      destruct r1 as [[|]|e| |];
        try (simplify_eq; exists evs1; by split).
      apply IH in Hrun as (evs2 & Ht2 & Hpasses). simpl in Ht2.
      exists (evs1 ++ EvSleep ci :: evs2).
      split; [rewrite Ht2, Ht1; by rewrite <- !app_assoc|].
      change (EvSleep ci :: evs2) with ([EvSleep ci] ++ evs2).
      rewrite !opened_files_app, (Hall eq_refl). simpl.
      by apply passes_over_pass.
    + simplify_eq. exists []. split; [by rewrite app_nil_r|].
      exists O, []. split; [done|apply prefix_nil].
Qed.

Lemma semaphore_acquire_order fuel t c self w self' w' r :
  BoundedSemaphore.acquire fuel t c self w = (self', w', r) →
  ∃ evs, trace w' = trace w ++ evs ∧
    passes_over (BoundedSemaphore.get_filenames self) (opened_files evs).
Proof.
  unfold BoundedSemaphore.acquire. intros Hrun.
  destruct (BoundedSemaphore.lock self).
  { simplify_eq. exists []. split; [by rewrite app_nil_r|].
    exists O, []. split; [done|apply prefix_nil]. }
  destruct (BoundedSemaphore.try_lock fuel _ self w)
    as [[self1 w1] r1] eqn:Htry.
  apply try_lock_opens_in_order in Htry as (evs1 & Ht1 & Hpre & Hall).
  assert (passes_over (BoundedSemaphore.get_filenames self)
                      (opened_files evs1)) as Hlast
    by (by exists O, (opened_files evs1)).
  destruct r1 as [[|]|e| |]; try (simplify_eq; exists evs1; by split).
  match type of Hrun with (if ?c then _ else _) = _ => destruct c end;
    [simplify_eq; exists evs1; by split|].
  cbn [current_time] in Hrun.
  apply semaphore_loop_order in Hrun as (evs2 & Ht2 & Hpasses).
  simpl in Ht2. exists (evs1 ++ evs2).
  split; [rewrite Ht2, Ht1; by rewrite <- !app_assoc|].
  rewrite opened_files_app, (Hall eq_refl). by apply passes_over_pass.
Qed.

(** C2 (the code departs from it).  The claim is that every pass over the
    candidate files takes them in a fresh random permutation.  [acquire]
    calls [get_filenames], not [get_random_filenames], once, before the
    first pass.  For every call: what it does is the same whatever the
    random source holds, no draw is taken, and the files it opens are
    full passes over [get_filenames] in index order followed by the
    beginning of one.  With two permits, both busy, and a timeout that
    allows four passes, the order is 00, 01 on every pass, while
    [get_random_filenames] itself does permute (here to 01, 00). *)
Theorem semaphore_passes_in_fixed_order
    fuel timeout check_interval self w (draws : list nat) :
  BoundedSemaphore.acquire fuel timeout check_interval self (set_rng draws w)
    = with_rng draws
        (BoundedSemaphore.acquire fuel timeout check_interval self w) ∧
  (∃ evs,
     trace (BoundedSemaphore.acquire fuel timeout check_interval self w).1.2
       = trace w ++ evs ∧
     passes_over (BoundedSemaphore.get_filenames self) (opened_files evs)) ∧
  BoundedSemaphore.get_filenames two_permits
    = ["bounded_semaphore.00.lock"; "bounded_semaphore.01.lock"] ∧
  (BoundedSemaphore.acquire 4 None None two_permits
      (two_permits_busy draws)).2 = Raise (AlreadyLocked []) ∧
  opened_files
    (events_since (two_permits_busy draws)
       (BoundedSemaphore.acquire 4 None None two_permits
          (two_permits_busy draws)).1.2)
    = ["bounded_semaphore.00.lock"; "bounded_semaphore.01.lock";
       "bounded_semaphore.00.lock"; "bounded_semaphore.01.lock";
       "bounded_semaphore.00.lock"; "bounded_semaphore.01.lock";
       "bounded_semaphore.00.lock"; "bounded_semaphore.01.lock"] ∧
  sleeps
    (events_since (two_permits_busy draws)
       (BoundedSemaphore.acquire 4 None None two_permits
          (two_permits_busy draws)).1.2) = 3%nat ∧
  rng (BoundedSemaphore.acquire 4 None None two_permits
         (two_permits_busy draws)).1.2 = draws ∧
  (BoundedSemaphore.get_random_filenames two_permits
     (two_permits_busy [0%nat])).2
    = ["bounded_semaphore.01.lock"; "bounded_semaphore.00.lock"].
Proof.
  split; [apply semaphore_acquire_set_rng|].
  split.
  { destruct (BoundedSemaphore.acquire fuel timeout check_interval self w)
      as [[self' w'] r] eqn:Hrun.
    by eapply semaphore_acquire_order. }
  repeat split; vm_compute; reflexivity.
Qed.

(** ** C8: open_atomic *)

Lemma temp_candidates_fresh dir w : ∀ draws tmp rest,
  temp_candidates dir draws w = Some (tmp, rest) →
  os_path_exists tmp w = false.
Proof.
  induction draws as [|d draws IH]; intros tmp rest Hc; [done|].
  simpl in Hc.
  destruct (os_path_exists (path_join dir ("tmp" +:+ pretty d)) w) eqn:E.
  - by eapply IH.
  - by simplify_eq.
Qed.

Lemma NamedTemporaryFile_ok mode dir w w' fh tmp :
  NamedTemporaryFile mode dir w = (w', Ok (fh, tmp)) →
  os_path_exists tmp w = false ∧
  files w' = <[tmp := ""]> (files w) ∧
  handles w' = <[fh := tmp]> (handles w) ∧
  dirs w' = dirs w ∧ faults w' = faults w.
Proof.
  unfold NamedTemporaryFile. intros Hrun.
  destruct (temp_candidates dir (rng w) w) as [[tmp' rest]|] eqn:Hc; [|done].
  rewrite new_handle_spec in Hrun. simplify_eq. simpl.
  split; [by eapply temp_candidates_fresh|]. done.
Qed.

Lemma os_rename_spec src dst w w1 r :
  os_rename src dst w = (w1, r) →
  handles w1 = handles w ∧ faults w1 = faults w ∧
  match r with
  | Ok _ => ∃ content, files w !! src = Some content ∧
                       files w1 = <[dst := content]> (delete src (files w))
  | _ => w1 = w
  end.
Proof.
  unfold os_rename. intros Hrun.
  destruct (faulty FaultRename w); [by simplify_eq|].
  destruct (files w !! src) as [content|]; [|by simplify_eq].
  destruct (bool_decide (dst ∈ dirs w)); [by simplify_eq|].
  destruct (ends_with_slash dst); simplify_eq; [done|].
  simpl. eauto.
Qed.

Lemma os_remove_spec path w w1 r :
  os_remove path w = (w1, r) →
  handles w1 = handles w ∧
  (faulty FaultRemove w = false → files w1 !! path = None) ∧
  (∀ q, q ≠ path → files w1 !! q = files w !! q) ∧
  (files w !! path = None → files w1 = files w).
Proof.
  unfold os_remove. intros Hrun.
  destruct (faulty FaultRemove w); [by simplify_eq|].
  destruct (files w !! path) eqn:Hf; simplify_eq; simpl.
  - rewrite lookup_delete_eq. repeat split; try done.
    intros q Hq. by rewrite lookup_delete_ne.
  - done.
Qed.

Lemma rename_finally_remove_spec tmp filename w w' r :
  rename_finally_remove tmp filename w = (w', r) →
  r = (os_rename tmp filename w).2 ∧
  handles w' = handles w ∧
  (faulty FaultRemove w = false → files w' !! tmp = None) ∧
  (r = Ok tt → tmp ≠ filename →
   files w' !! filename = files w !! tmp ∧ is_Some (files w !! tmp) ∧
   files w' !! tmp = None).
Proof.
  unfold rename_finally_remove. intros Hrun.
  destruct (os_rename tmp filename w) as [w1 r1] eqn:Hren.
  destruct (os_remove tmp w1) as [w2 r2] eqn:Hrem.
  simplify_eq. cbn [snd].
  apply os_rename_spec in Hren as (Hh1 & Hf1 & Hr).
  apply os_remove_spec in Hrem as (Hh2 & Hgone & Hother & Hsame).
  split; [done|]. split; [congruence|].
  split; [unfold faulty in *; rewrite Hf1 in Hgone; exact Hgone|].
  intros -> Hne. destruct Hr as (content & Hsrc & Hfiles).
  assert (files w1 !! tmp = None) as Hnone.
  { rewrite Hfiles, lookup_insert_ne, lookup_delete_eq; done. }
  rewrite (Hsame Hnone), Hnone, Hfiles, lookup_insert_eq, Hsrc.
  eauto.
Qed.

Lemma open_atomic_exit_spec fh tmp filename w w' r :
  open_atomic_exit fh tmp filename w = (w', r) →
  (is_Some (handles w !! fh) ∧ faulty FaultFlush w = false ∧
   faulty FaultFsync w = false ∧
   rename_finally_remove tmp filename (close fh w) = (w', r))
  ∨
  ((handles w !! fh = None ∨ faulty FaultFlush w = true
    ∨ faulty FaultFsync w = true) ∧
   w' = w ∧ ∃ e, r = Raise e).
Proof.
  unfold open_atomic_exit, flush, os_fsync. intros Hrun.
  destruct (handles w !! fh) eqn:Hh; [|right; simplify_eq; eauto].
  destruct (faulty FaultFlush w) eqn:Hfl; [right; simplify_eq; eauto 6|].
  rewrite Hh in Hrun.
  destruct (faulty FaultFsync w) eqn:Hfs; [right; simplify_eq; eauto 6|].
  left. eauto.
Qed.

Lemma open_atomic_enter_ok filename binary w w1 fh tmp :
  open_atomic_enter filename binary w = (w1, Ok (fh, tmp)) →
  os_path_exists filename w = false ∧
  files w1 !! tmp = Some "" ∧ handles w1 !! fh = Some tmp.
Proof.
  unfold open_atomic_enter. intros Hrun.
  destruct (os_path_exists filename w); [done|]. split; [done|].
  destruct (os_path_split filename) as [path name].
  destruct (if negb (String.eqb path "") && negb (os_path_isdir path w)
            then os_makedirs path w else (w, Ok tt)) as [w0 [[]|e| |]];
    try done.
  apply NamedTemporaryFile_ok in Hrun as (_ & -> & -> & _).
  by rewrite !lookup_insert_eq.
Qed.

(** C8, as the code has it.  A target path that exists fails the
    assertion before anything is created.  Otherwise, with the temp file
    created and the scope body run: when the body ends normally and the
    whole call succeeds, the target (a name other than the temp file's)
    holds exactly what the body left in the temp file, no temp file
    remains and the file object is closed; once flush and fsync have
    succeeded the outcome is the outcome of the rename, whatever the
    removal of the temp file does, and the temp file is gone unless its
    removal failed; when flush or fsync fails, or the body does not end
    normally, the error is passed on and the world, the temp file
    included, is left as it was at that point. *)
Theorem open_atomic_contract filename binary body w w' r :
  open_atomic filename binary body w = (w', r) →
  (os_path_exists filename w = true →
   w' = w ∧ r = Raise (AssertionError ("'" +:+ filename +:+ "' exists"))) ∧
  (∀ w1 fh tmp w2 rb,
     open_atomic_enter filename binary w = (w1, Ok (fh, tmp)) →
     body fh w1 = (w2, rb) →
     files w1 !! tmp = Some "" ∧ handles w1 !! fh = Some tmp ∧
     match rb with
     | Ok _ =>
         (r = Ok tt → tmp ≠ filename →
          files w' !! filename = files w2 !! tmp ∧
          is_Some (files w2 !! tmp) ∧
          files w' !! tmp = None ∧ handles w' !! fh = None) ∧
         (is_Some (handles w2 !! fh) → faulty FaultFlush w2 = false →
          faulty FaultFsync w2 = false →
          r = (os_rename tmp filename (close fh w2)).2 ∧
          (faulty FaultRemove w2 = false → files w' !! tmp = None)) ∧
         (handles w2 !! fh = None ∨ faulty FaultFlush w2 = true
          ∨ faulty FaultFsync w2 = true →
          w' = w2 ∧ ∃ e, r = Raise e)
     | _ => w' = w2 ∧ r = rb
     end).
Proof.
  intros Hrun. unfold open_atomic in Hrun. split.
  - intros Hex. unfold open_atomic_enter in Hrun. rewrite Hex in Hrun.
    by simplify_eq.
  - intros w1 fh tmp w2 rb Henter Hbody.
    rewrite Henter, Hbody in Hrun.
    apply open_atomic_enter_ok in Henter as (_ & Hf1 & Hh1).
    split; [done|]. split; [done|].
    destruct rb as [[]|e| |]; try by simplify_eq.
    apply open_atomic_exit_spec in Hrun
      as [(Hopen & Hfl & Hfs & Hrun)|(Hcause & -> & e & ->)].
    + apply rename_finally_remove_spec in Hrun as (Hr & Hh & Hgone & Hok).
      split; [|split].
      * intros Hr' Hne. destruct (Hok Hr' Hne) as (? & ? & ?).
        repeat split; try done.
        rewrite Hh. simpl. apply lookup_delete_eq.
      * intros _ _ _. split; [done|]. exact Hgone.
      * intros [Hn|[Hn|Hn]]; [|congruence|congruence].
        rewrite Hn in Hopen. by destruct Hopen.
    + split; [done|]. split; [|eauto].
      intros Hopen Hfl Hfs.
      destruct Hcause as [Hn|[Hn|Hn]]; [|congruence|congruence].
      rewrite Hn in Hopen. by destruct Hopen.
Qed.

Lemma open_atomic_contract_witness :
  let w := set_rng [7%nat] empty_world in
  let run := open_atomic "d/test_file.txt" true write_test w in
  run.2 = Ok tt ∧
  files run.1 !! "d/test_file.txt" = Some "test" ∧
  files run.1 !! "d/tmp7" = None ∧
  handles run.1 !! 0%nat = None.
Proof.
  intros w run.
  assert (open_atomic "d/test_file.txt" true write_test w = (run.1, run.2))
    as Hrun by (vm_compute; reflexivity).
  destruct (open_atomic_contract _ _ _ _ _ _ Hrun) as [_ Hscope].
  assert (open_atomic_enter "d/test_file.txt" true w
          = ((open_atomic_enter "d/test_file.txt" true w).1, Ok (0%nat, "d/tmp7")))
    as Henter by (vm_compute; reflexivity).
  assert (write_test 0 (open_atomic_enter "d/test_file.txt" true w).1
          = ((write_test 0 (open_atomic_enter "d/test_file.txt" true w).1).1,
             Ok tt))
    as Hbody by reflexivity.
  destruct (Hscope _ _ _ _ _ Henter Hbody) as (_ & _ & Hok & _).
  destruct Hok as (Htarget & _ & Htmp & Hclosed);
    [vm_compute; reflexivity | vm_compute; discriminate |].
  split; [vm_compute; reflexivity|]. split; [|split; assumption].
  rewrite Htarget. vm_compute. reflexivity.
Defined.

(** C8, where the claim fails: a scope body that raises after writing.
    The exception passes through the generator at its [yield]; the temp
    file stays in the directory with the partial content, and its file
    object stays open. *)
Lemma open_atomic_body_failure_leaves_temp_file :
  let w := set_rng [7%nat] empty_world in
  let run := open_atomic "test_file.txt" true write_then_fail w in
  files w !! "tmp7" = None ∧
  run.2 = Raise (UserException "boom") ∧
  files run.1 !! "tmp7" = Some "te" ∧
  files run.1 !! "test_file.txt" = None ∧
  handles run.1 !! 0%nat = Some "tmp7".
Proof. repeat split; vm_compute; reflexivity. Qed.

(** ** C10: the with statement *)

(** C10.  For every class that derives from [LockBase]: [__enter__] is
    [acquire()] with no argument, so with the instance's defaults, and
    [__exit__] is [release()]; once [acquire] has returned, however the
    scope body ends (normally or with an exception), the with statement
    calls [release] on the state the body left, the state after the scope
    is the state after that [release], and the body's outcome is passed on
    unless [release] itself raises. *)
Theorem with_statement_releases
    {T R A : Type} {L : LockBase T R} fuel
    (body : R → T → World → T * World * result A)
    self w self1 w1 r self2 w2 out :
  acquire fuel None None None self w = (self1, w1, Ok r) →
  body r self1 w1 = (self2, w2, out) →
  terminated out = true →
  __enter__ fuel self w = acquire fuel None None None self w ∧
  __exit__ self2 w2 = release self2 w2 ∧
  (with_ fuel body self w).1 = (release self2 w2).1 ∧
  ((release self2 w2).2 = Ok tt → (with_ fuel body self w).2 = out) ∧
  (∀ e, (release self2 w2).2 = Raise e →
        (with_ fuel body self w).2 = Raise e).
Proof.
  intros Henter Hbody Hterm.
  split; [done|]. split; [done|].
  unfold with_, __enter__, __exit__. rewrite Henter, Hbody.
  destruct out as [a|e| |]; try done;
    destruct (release self2 w2) as [[self3 w3] [[]|e'| |]]; simpl;
    repeat split; try done; intros; by simplify_eq.
Qed.

Lemma with_statement_releases_witness :
  (let self := Lock.new "f" in
   let a := acquire 1 None None None self empty_world in
   let s := with_ 1 raising_body self empty_world in
   s.1 = (release a.1.1 a.1.2).1 ∧ s.2 = Raise (UserException "boom") ∧
   Lock.fh s.1.1 = None ∧ flocks s.1.2 = ∅ ∧ handles s.1.2 = ∅) ∧
  (let self := RLock.new "f" in
   let a := acquire 1 None None None self empty_world in
   let s := with_ 1 raising_body self empty_world in
   s.1 = (release a.1.1 a.1.2).1 ∧ s.2 = Raise (UserException "boom") ∧
   RLock._acquire_count s.1.1 = 0 ∧ flocks s.1.2 = ∅ ∧ handles s.1.2 = ∅) ∧
  (let self := (TemporaryFileLock.new empty_world).1 in
   let w := (TemporaryFileLock.new empty_world).2 in
   let a := acquire 1 None None None self w in
   let s := with_ 1 raising_body self w in
   s.1 = (release a.1.1 a.1.2).1 ∧ s.2 = Raise (UserException "boom") ∧
   flocks s.1.2 = ∅ ∧ handles s.1.2 = ∅ ∧ files s.1.2 = ∅) ∧
  (let self := BoundedSemaphore.new 2 in
   let a := acquire 1 None None None self world_with_tmp in
   let s := with_ 1 raising_body self world_with_tmp in
   s.1 = (release a.1.1 a.1.2).1 ∧ s.2 = Raise (UserException "boom") ∧
   BoundedSemaphore.lock s.1.1 = None ∧ flocks s.1.2 = ∅ ∧ handles s.1.2 = ∅).
Proof.
  split; [|split; [|split]]; intros self; intros.
  - assert (acquire 1 None None None self empty_world
            = (a.1.1, a.1.2, Ok 0%nat)) as Ha by (vm_compute; reflexivity).
    destruct (with_statement_releases 1 raising_body _ _ _ _ _ _ _ _
                Ha eq_refl eq_refl) as (_ & _ & Hstate & Hout & _).
    split; [exact Hstate|]. split; [apply Hout; vm_compute; reflexivity|].
    repeat split; vm_compute; reflexivity.
  - assert (acquire 1 None None None self empty_world
            = (a.1.1, a.1.2, Ok (Some 0%nat))) as Ha
      by (vm_compute; reflexivity).
    destruct (with_statement_releases 1 raising_body _ _ _ _ _ _ _ _
                Ha eq_refl eq_refl) as (_ & _ & Hstate & Hout & _).
    split; [exact Hstate|]. split; [apply Hout; vm_compute; reflexivity|].
    repeat split; vm_compute; reflexivity.
  - assert (acquire 1 None None None self w
            = (a.1.1, a.1.2, Ok 0%nat)) as Ha by (vm_compute; reflexivity).
    destruct (with_statement_releases 1 raising_body _ _ _ _ _ _ _ _
                Ha eq_refl eq_refl) as (_ & _ & Hstate & Hout & _).
    split; [exact Hstate|]. split; [apply Hout; vm_compute; reflexivity|].
    repeat split; vm_compute; reflexivity.
  - assert (acquire 1 None None None self world_with_tmp
            = (a.1.1, a.1.2, Ok (BoundedSemaphore.lock a.1.1))) as Ha
      by (vm_compute; reflexivity).
    destruct (with_statement_releases 1 raising_body _ _ _ _ _ _ _ _
                Ha eq_refl eq_refl) as (_ & _ & Hstate & Hout & _).
    split; [exact Hstate|]. split; [apply Hout; vm_compute; reflexivity|].
    repeat split; vm_compute; reflexivity.
Defined.

(** ** The scenarios of the repository's tests *)

(** [test_acquire_release]: a second lock object on the file times out
    with the generic exception while the first holds it; releasing twice
    is harmless. *)
Example test_acquire_release :
  let lock := Lock.new "tmpfile" in
  let lock2 := Lock.__init__ "tmpfile" "a" (Some DEFAULT_TIMEOUT)
                 DEFAULT_CHECK_INTERVAL false LOCK_METHOD [] in
  let a := Lock.acquire 1 None None None lock empty_world in
  let b := Lock.acquire 2 (Some 10) None None lock2 a.1.2 in
  let c := Lock.release a.1.1 b.1.2 in
  let d := Lock.release c.1.1 c.1.2 in
  a.2 = Ok 0%nat ∧
  b.2 = Raise (LockException [ArgExn contention_error]) ∧
  c.2 = Ok tt ∧ d = c ∧ flocks d.1.2 = ∅ ∧ handles d.1.2 = ∅.
Proof. by_computation. Qed.

(** [test_with_timeout]: a fail-fast lock object in mode 'wb' on a held
    file raises [AlreadyLocked], and what the holder wrote is still
    there. *)
Example test_with_timeout :
  let a := Lock.acquire 1 (Some 100) None None (Lock.new "tmpfile")
             empty_world in
  let w := write 0 "writing some stuff to my cache..." a.1.2 in
  let inner := Lock.__init__ "tmpfile" "wb" (Some 100) DEFAULT_CHECK_INTERVAL
                 true LOCK_METHOD [] in
  let b := Lock.acquire 1 None None None inner w in
  b.2 = Raise (AlreadyLocked [ArgExn contention_error]) ∧
  files b.1.2 !! "tmpfile" = Some "writing some stuff to my cache..." ∧
  Lock.mode inner = "ab" ∧ Lock.truncate inner = true.
Proof. by_computation. Qed.

(** [test_truncate]: mode 'a+' keeps the content, mode 'w+' empties the
    file once the lock is held. *)
Example test_truncate :
  let w := set_files {[ "tmpfile" := "spam and eggs" ]} empty_world in
  let keep := Lock.__init__ "tmpfile" "a+" (Some DEFAULT_TIMEOUT)
                DEFAULT_CHECK_INTERVAL false LOCK_METHOD [] in
  let wipe := Lock.__init__ "tmpfile" "w+" (Some DEFAULT_TIMEOUT)
                DEFAULT_CHECK_INTERVAL false LOCK_METHOD [] in
  let a := with_ 1 raising_body keep w in
  let b := Lock.acquire 1 None None None wipe a.1.2 in
  files a.1.2 !! "tmpfile" = Some "spam and eggs" ∧
  b.2 = Ok 1%nat ∧ files b.1.2 !! "tmpfile" = Some "" ∧
  events_since a.1.2 b.1.2
    = [EvOpen 1 "tmpfile" "a+"; EvLock 1 LOCK_METHOD true;
       EvSeek 1 0; EvTruncate 1 0].
Proof. by_computation. Qed.

(** [test_rlock_acquire_release_count]: the file object is closed by the
    second of two releases, not by the first. *)
Example test_rlock_acquire_release_count :
  let a := acquire_times 2 1 (RLock.new "tmpfile") empty_world in
  let b := release_times 1 a.1 a.2 in
  let c := release_times 1 b.1 b.2 in
  RLock._acquire_count a.1 = 2 ∧
  handles b.2 !! 0%nat = Some "tmpfile" ∧
  handles c.2 !! 0%nat = None ∧ RLock._acquire_count c.1 = 0.
Proof. by_computation. Qed.

(** [test_release_unacquired] *)
Example test_release_unacquired :
  (RLock.release (RLock.new "tmpfile") empty_world).2
  = Raise (LockException [ArgStr "Cannot release more times than acquired"]).
Proof. reflexivity. Qed.

(** The doctest of [BoundedSemaphore]. *)
Example bounded_semaphore_doctest :
  let semaphore :=
    BoundedSemaphore.__init__ 2 "bounded_semaphore" "{name}.{number:02d}.lock"
                              "" (Some DEFAULT_TIMEOUT) DEFAULT_CHECK_INTERVAL in
  BoundedSemaphore.get_filenames semaphore !! 0%nat
    = Some "bounded_semaphore.00.lock" ∧
  (BoundedSemaphore.get_random_filenames semaphore
     (set_rng [0%nat] empty_world)).2
    = ["bounded_semaphore.01.lock"; "bounded_semaphore.00.lock"] ∧
  (BoundedSemaphore.get_random_filenames semaphore
     (set_rng [1%nat] empty_world)).2
    = ["bounded_semaphore.00.lock"; "bounded_semaphore.01.lock"].
Proof. by_computation. Qed.

(** * Further properties of the locks *)

(** ** Contention *)

Lemma conflicts_held locks fh path exclusive h0 e0 :
  locks !! h0 = Some (path, e0) →
  h0 ≠ fh →
  exclusive || e0 = true →
  conflicts locks fh path exclusive = true.
Proof.
  intros Hheld Hne Hexcl. unfold conflicts. apply existsb_exists.
  exists (h0, (path, e0)). split.
  - apply list_elem_of_In, elem_of_map_to_list. exact Hheld.
  - simpl. rewrite Hexcl, String.eqb_refl, !andb_true_r.
    apply negb_true_iff, Nat.eqb_neq. exact Hne.
Qed.

Lemma conflicts_free locks fh path exclusive :
  (∀ h0 p e0, locks !! h0 = Some (p, e0) → p ≠ path) →
  conflicts locks fh path exclusive = false.
Proof.
  intros Hfree. unfold conflicts.
  destruct (existsb _ _) eqn:E; [|done].
  apply existsb_exists in E as ([h0 [p e0]] & Hin & Hc).
  apply list_elem_of_In, elem_of_map_to_list in Hin. simpl in Hc.
  apply andb_prop in Hc as [Hc _]. apply andb_prop in Hc as [_ Hp].
  apply String.eqb_eq in Hp. by destruct (Hfree _ _ _ Hin).
Qed.

(** On a file locked incompatibly through another file object, the loop
    with a non-blocking flag never obtains the lock and never blocks. *)
Lemma acquire_loop_contended self fh timeout_end check_interval
    fail_when_locked path fuel : ∀ exception w,
  handles w !! fh = Some path →
  conflicts (flocks w) fh path (Z.testbit (Lock.flags self) 1) = true →
  Z.testbit (Lock.flags self) 2 = true →
  match (Lock.acquire_loop fuel self fh timeout_end check_interval
           fail_when_locked exception w).2 with
  | Ok _ | Blocked => False
  | _ => True
  end.
Proof.
  induction fuel as [|n IH]; intros exception w Hopen Hc Hnb; [done|].
  rewrite (acquire_loop_step _ _ _ _ _ _ _ _ path) by done. cbn zeta.
  destruct (timeout_end >? now w); [|done].
  destruct (faulty FaultLock w); [done|].
  rewrite Hc, Hnb. destruct fail_when_locked; [done|].
  by apply IH.
Qed.

(** A run of [acquire] that does not obtain the lock leaves the advisory
    locks of all other file objects as they were, and hands out no file
    object number twice. *)
Lemma acquire_without_success_frame fuel t c f self w self' w' r :
  Lock.fh self = None →
  Lock.acquire fuel t c f self w = (self', w', r) →
  (next_handle w <= next_handle w')%nat ∧
  ((∀ h, r ≠ Ok h) →
   ∀ h0, h0 ≠ next_handle w → flocks w' !! h0 = flocks w !! h0).
Proof.
  intros Hfh Hrun.
  rewrite acquire_unfold in Hrun by done.
  destruct (Lock._get_fh self w) as [w1 r1] eqn:Hopen.
  unfold Lock._get_fh in Hopen.
  destruct r1 as [h|e| |];
    try (by apply open_not_ok in Hopen as [_ [? ?]]).
  - assert (next_handle w1 = S (next_handle w)) as Hn1.
    { clear -Hopen. unfold open, new_handle in Hopen.
      repeat match type of Hopen with
      | (if ?c then _ else _) = _ => destruct c
      | match ?o with Some _ => _ | None => _ end = _ => destruct o
      end; by simplify_eq. }
    apply open_ok in Hopen as (-> & Hh1 & Hl1 & _).
    destruct (Lock.acquire_loop _ _ _ _ _ _ _ _) as [w3 r3] eqn:Hloop.
    apply (acquire_loop_spec _ _ _ _ _ _ _ _ _ _ (Lock.filename self))
      in Hloop as ((_ & _ & _ & _ & _ & Hn3 & _) & k & _ & Hk);
      [|simpl; rewrite Hh1; apply lookup_insert_eq].
    simpl in Hk, Hn3.
    destruct r3 as [h3|e3| |]; injection Hrun as ? ? ?; subst self' w' r.
    + split.
      * destruct (prepare_fh_spec self h3 w3) as (_ & _ & _ & _ & _).
        unfold Lock._prepare_fh, truncate_file, seek.
        destruct (Lock.truncate self); simpl; [|lia].
        destruct (handles w3 !! h3) as [p|]; simpl; [|lia].
        destruct (files w3 !! p); simpl; lia.
      * intros Hno. by destruct (Hno (Lock._prepare_fh self h3 w3).2).
    + destruct Hk as [(_ & _ & _ & Hl3 & _)|(_ & Hl3 & _)]; (split; [lia|]);
        intros _ h0 Hne; rewrite Hl3, Hl1; [done|].
      by rewrite lookup_delete_ne.
    + destruct Hk as (_ & _ & Hl3). split; [lia|].
      intros _ h0 Hne. by rewrite Hl3, Hl1.
    + destruct Hk as (_ & _ & Hl3). split; [lia|].
      intros _ h0 Hne. by rewrite Hl3, Hl1.
  - pose proof (open_not_ok _ _ _ _ _ Hopen) as [-> _]; [done|].
    injection Hrun as ? ? ?; subst self' w' r. done.
Qed.

(** ** Lock.acquire on a free file, on a held file, and its deadline *)

(** The first round of [acquire] on a file without a conflicting lock,
    with the deadline ahead: the lock is obtained at once. *)
Lemma acquire_first_attempt
    fuel timeout check_interval fail_when_locked self w w1 h :
  Lock.fh self = None →
  Lock._get_fh self w = (w1, Ok h) →
  conflicts (flocks w) h (Lock.filename self)
            (Z.testbit (Lock.flags self) 1) = false →
  faulty FaultLock w = false →
  Z.of_N (tick w) < resolved_timeout timeout self →
  ∃ w',
    Lock.acquire (S fuel) timeout check_interval fail_when_locked self w
      = (Lock.set_fh (Some h) self, w', Ok h) ∧
    flocks w' = <[h := (Lock.filename self,
                        Z.testbit (Lock.flags self) 1)]> (flocks w) ∧
    handles w' = <[h := Lock.filename self]> (handles w) ∧
    trace w' = trace w
      ++ [EvOpen h (Lock.filename self) (Lock.mode self);
          EvLock h (Lock.flags self) true]
      ++ (if Lock.truncate self then [EvSeek h 0; EvTruncate h 0] else []).
Proof.
  intros Hfh Hopen Hfree Hfault Hahead.
  rewrite acquire_unfold by done. rewrite Hopen.
  unfold Lock._get_fh in Hopen.
  pose proof (open_frame _ _ _ _ _ Hopen)
    as (Hnow & Htick & _ & _ & Hfaults & _).
  apply open_ok in Hopen as (-> & Hh1 & Hl1 & Ht1 & _).
  rewrite (acquire_loop_step _ _ _ _ _ _ _ _ (Lock.filename self))
    by (simpl; rewrite Hh1; apply lookup_insert_eq).
  cbn zeta. unfold faulty in *.
  cbn [current_time fst now set_now tick flocks faults].
  destruct (now w1 + resolved_timeout timeout self
            >? now w1 + Z.of_N (tick w1)) eqn:Hdeadline; [|lia].
  rewrite Hfaults, Hfault, Hl1, Hfree.
  match goal with
  | |- context [Lock._prepare_fh ?a ?b ?c] =>
      set (W := c);
      destruct (prepare_fh_spec a b W) as (E2 & Eh & El & Et & _)
  end.
  assert (handles W = handles w1 ∧
          flocks W = <[next_handle w := (Lock.filename self,
                         Z.testbit (Lock.flags self) 1)]> (flocks w) ∧
          trace W = trace w1 ++ [EvLock (next_handle w) (Lock.flags self) true])
    as (HhW & HlW & HtW) by done.
  eexists. split; [by rewrite E2|].
  rewrite El, Eh, HhW, HlW, Hh1, Et, HtW, Ht1.
  split; [done|]. split; [done|]. by rewrite <- !app_assoc.
Qed.

(** When the primitive fails for another reason than contention, the
    first round of the loop passes its exception on and leaves the file
    object open. *)
Lemma acquire_fatal
    fuel timeout check_interval fail_when_locked self w w1 h :
  Lock.fh self = None →
  Lock._get_fh self w = (w1, Ok h) →
  faulty FaultLock w = true →
  Z.of_N (tick w) < resolved_timeout timeout self →
  ∃ w',
    Lock.acquire (S fuel) timeout check_interval fail_when_locked self w
      = (self, w', Raise fatal_error) ∧
    handles w' = <[h := Lock.filename self]> (handles w) ∧
    flocks w' = flocks w ∧
    trace w' = trace w
      ++ [EvOpen h (Lock.filename self) (Lock.mode self);
          EvLock h (Lock.flags self) false].
Proof.
  intros Hfh Hopen Hfault Hahead.
  rewrite acquire_unfold by done. rewrite Hopen.
  unfold Lock._get_fh in Hopen.
  pose proof (open_frame _ _ _ _ _ Hopen)
    as (Hnow & Htick & _ & _ & Hfaults & _).
  apply open_ok in Hopen as (-> & Hh1 & Hl1 & Ht1 & _).
  rewrite (acquire_loop_step _ _ _ _ _ _ _ _ (Lock.filename self))
    by (simpl; rewrite Hh1; apply lookup_insert_eq).
  cbn zeta. unfold faulty in *.
  cbn [current_time fst now set_now tick flocks faults].
  destruct (now w1 + resolved_timeout timeout self
            >? now w1 + Z.of_N (tick w1)) eqn:Hdeadline; [|lia].
  rewrite Hfaults, Hfault.
  eexists. split; [done|].
  cbn [handles flocks trace log set_now].
  rewrite Hh1, Hl1, Ht1, <- app_assoc. done.
Qed.



(** With the deadline ahead of the first clock reading, the first round
    of the loop calls the primitive. *)
Lemma acquire_attempts_when_ahead
    fuel timeout check_interval fail_when_locked self w w1 h self' w' r :
  Lock.fh self = None →
  Lock._get_fh self w = (w1, Ok h) →
  Z.testbit (Lock.flags self) 2 = true →
  Z.of_N (tick w) < resolved_timeout timeout self →
  Lock.acquire (S fuel) timeout check_interval fail_when_locked self w
    = (self', w', r) →
  lock_attempts (events_since w w') ≠ 0%nat.
Proof.
  intros Hfh Hopen Hnb Hgt Hrun Hzero.
  rewrite acquire_unfold in Hrun by done. rewrite Hopen in Hrun.
  unfold Lock._get_fh in Hopen.
  pose proof (open_frame _ _ _ _ _ Hopen) as (Hnow & Htick & _).
  apply open_ok in Hopen as (-> & Hh1 & Hl1 & Ht1 & _).
  rewrite (acquire_loop_step _ _ _ _ _ _ _ _ (Lock.filename self))
    in Hrun by (simpl; rewrite Hh1; apply lookup_insert_eq).
  cbn zeta in Hrun. cbn [current_time fst now set_now tick] in Hrun.
  destruct (now w1 + resolved_timeout timeout self
            >? now w1 + Z.of_N (tick w1)) eqn:Hdeadline; [|lia].
  rewrite Hnb in Hrun.
  assert (∀ evs w2, trace w2 = trace w1 ++ EvLock (next_handle w)
                                 (Lock.flags self) false :: evs →
                    lock_attempts (events_since w w2) ≠ 0%nat) as Hfail.
  { intros evs w2 Ht2.
    rewrite (events_since_app w w2
               ([EvOpen (next_handle w) (Lock.filename self) (Lock.mode self)]
                ++ [EvLock (next_handle w) (Lock.flags self) false] ++ evs))
      by (rewrite Ht2, Ht1; by rewrite <- !app_assoc).
    rewrite !lock_attempts_app.
    cbn [lock_attempts List.filter is_lock_attempt length]. lia. }
  destruct (faulty FaultLock _).
  { injection Hrun as ? ? ?; subst self' w' r.
    eapply (Hfail []); [|done]. reflexivity. }
  destruct (conflicts _ _ _ _).
  + destruct (resolved_fail_when_locked fail_when_locked self).
    * injection Hrun as ? ? ?; subst self' w' r.
      eapply (Hfail [EvClose (next_handle w)]); [|done].
      simpl. by rewrite <- app_assoc.
    * destruct (Lock.acquire_loop _ _ _ _ _ _ _ _) as [w3 r3] eqn:Hloop.
      apply (acquire_loop_spec _ _ _ _ _ _ _ _ _ _ (Lock.filename self))
        in Hloop as (_ & k & _ & Hk);
        [|simpl; rewrite Hh1; apply lookup_insert_eq].
      simpl in Hk.
      destruct r3 as [h3|e3| |]; injection Hrun as ? ? ?; subst self' w' r.
      -- destruct Hk as (-> & Ht3 & _).
         destruct (prepare_fh_spec self (next_handle w) w3)
           as (_ & _ & _ & Et & _).
         eapply Hfail; [|done]. rewrite Et, Ht3.
         rewrite <- !app_assoc. simpl. reflexivity.
      -- destruct Hk as [(_ & _ & _ & _ & Ht3)|(_ & _ & [(_ & Ht3)|(? & _)])];
           [| |done]; (eapply Hfail; [|done]); rewrite Ht3;
           rewrite <- ?app_assoc; simpl; reflexivity.
      -- destruct Hk as (Ht3 & _).
         eapply Hfail; [|done]. rewrite Ht3.
         rewrite <- !app_assoc. simpl. reflexivity.
      -- destruct Hk as (Ht3 & _).
         eapply Hfail; [|done]. rewrite Ht3.
         rewrite <- !app_assoc. simpl. reflexivity.
  + match type of Hrun with
    | context [Lock._prepare_fh ?a ?b ?c] =>
        set (W := c) in Hrun;
        destruct (prepare_fh_spec a b W) as (_ & _ & _ & Et & _)
    end.
    assert (trace W = trace w1
              ++ [EvLock (next_handle w) (Lock.flags self) true])
      as HtW by done.
    injection Hrun as ? ? ?; subst self' w' r.
    rewrite (events_since_app w _
               ([EvOpen (next_handle w) (Lock.filename self) (Lock.mode self)]
                ++ [EvLock (next_handle w) (Lock.flags self) true]
                ++ (if Lock.truncate self
                    then [EvSeek (next_handle w) 0;
                          EvTruncate (next_handle w) 0]
                    else []))) in Hzero
      by (rewrite Et, HtW, Ht1; by rewrite <- !app_assoc).
    by destruct (Lock.truncate self).
Qed.

(** X2.  With a non-blocking flag, [acquire] on a lock that holds no file
    object, once the file is open, calls the primitive at least once if
    and only if its timeout is longer than a clock reading takes: a
    timeout of 0, a negative one, or one the first reading uses up, gives
    [LockException(None)] without an attempt. *)
Theorem acquire_attempts_iff_deadline_ahead
    fuel timeout check_interval fail_when_locked self w w1 h self' w' r :
  Lock.fh self = None →
  Lock._get_fh self w = (w1, Ok h) →
  Z.testbit (Lock.flags self) 2 = true →
  Lock.acquire (S fuel) timeout check_interval fail_when_locked self w
    = (self', w', r) →
  (lock_attempts (events_since w w') = 0%nat
   ↔ resolved_timeout timeout self <= Z.of_N (tick w)) ∧
  (resolved_timeout timeout self <= Z.of_N (tick w) →
   r = Raise (LockException [ArgNone])).
Proof.
  intros Hfh Hopen Hnb Hrun.
  destruct (decide (resolved_timeout timeout self <= Z.of_N (tick w)))
    as [Hle|Hgt].
  - rewrite acquire_unfold in Hrun by done. rewrite Hopen in Hrun.
    unfold Lock._get_fh in Hopen.
    pose proof (open_frame _ _ _ _ _ Hopen) as (Hnow & Htick & _).
    apply open_ok in Hopen as (-> & Hh1 & Hl1 & Ht1 & _).
    rewrite acquire_loop_expired in Hrun by (simpl; lia).
    injection Hrun as ? ? ?; subst self' w' r.
    split; [|done]. split; [done|]. intros _.
    rewrite (events_since_app w _
               [EvOpen (next_handle w) (Lock.filename self) (Lock.mode self);
                EvClose (next_handle w)]);
      [done|]. simpl. rewrite Ht1. by rewrite <- app_assoc.
  - split; [|lia]. split; [|lia]. intros Hzero. exfalso.
    apply (acquire_attempts_when_ahead fuel timeout check_interval
             fail_when_locked self w w1 h self' w' r); try done. lia.
Qed.

Lemma acquire_attempts_iff_deadline_ahead_witness :
  let w := mkWorld 0 7 ∅ ∅ ∅ 0 ∅ [] [] [] [] in
  let run := Lock.acquire 1 (Some 7) None None (Lock.new "f") w in
  (lock_attempts (events_since w run.1.2) = 0%nat
   ↔ resolved_timeout (Some 7) (Lock.new "f") <= Z.of_N (tick w)) ∧
  (resolved_timeout (Some 7) (Lock.new "f") <= Z.of_N (tick w) →
   run.2 = Raise (LockException [ArgNone])).
Proof.
  intros w run.
  assert (Lock._get_fh (Lock.new "f") w
          = ((Lock._get_fh (Lock.new "f") w).1, Ok 0%nat)) as Hopen
    by (vm_compute; reflexivity).
  assert (Lock.acquire 1 (Some 7) None None (Lock.new "f") w
          = (run.1.1, run.1.2, run.2)) as Hrun by (vm_compute; reflexivity).
  exact (acquire_attempts_iff_deadline_ahead
           0 (Some 7) None None (Lock.new "f") w _ _ _ _ _
           eq_refl Hopen eq_refl Hrun).
Defined.

(** On a file locked incompatibly through another file object, [acquire]
    with a non-blocking flag obtains nothing. *)
Lemma acquire_contended
    fuel timeout check_interval fail_when_locked self w h0 e0 self' w' r :
  Lock.fh self = None →
  flocks w !! h0 = Some (Lock.filename self, e0) →
  h0 ≠ next_handle w →
  Z.testbit (Lock.flags self) 1 || e0 = true →
  Z.testbit (Lock.flags self) 2 = true →
  Lock.acquire fuel timeout check_interval fail_when_locked self w
    = (self', w', r) →
  (∀ h, r ≠ Ok h) ∧ r ≠ Blocked ∧ self' = self.
Proof.
  intros Hfh Hheld Hne Hexcl Hnb Hrun.
  rewrite acquire_unfold in Hrun by done.
  destruct (Lock._get_fh self w) as [w1 r1] eqn:Hopen.
  unfold Lock._get_fh in Hopen.
  destruct r1 as [h|e| |];
    try (by apply open_not_ok in Hopen as [_ [? ?]]).
  - apply open_ok in Hopen as (-> & Hh1 & Hl1 & _).
    assert (handles (current_time w1).1 !! next_handle w
            = Some (Lock.filename self)) as Hopen'
      by (simpl; rewrite Hh1; apply lookup_insert_eq).
    assert (conflicts (flocks (current_time w1).1) (next_handle w)
              (Lock.filename self) (Z.testbit (Lock.flags self) 1) = true)
      as Hc.
    { simpl. rewrite Hl1. by eapply conflicts_held. }
    pose proof (acquire_loop_contended self (next_handle w)
                  (now w1 + resolved_timeout timeout self)
                  (resolved_check_interval check_interval self)
                  (resolved_fail_when_locked fail_when_locked self)
                  (Lock.filename self) fuel ArgNone _ Hopen' Hc Hnb) as Hno.
    destruct (Lock.acquire_loop _ _ _ _ _ _ _ _) as [w3 r3] eqn:Hloop.
    simpl in Hno.
    destruct r3 as [h3|e3| |]; try done;
      injection Hrun as ? ? ?; by subst self' w' r.
  - injection Hrun as ? ? ?; by subst self' w' r.
Qed.

(** X3.  While another file object holds a lock on the file that excludes
    the requested one, [acquire] with a non-blocking flag never returns a
    file object, whatever the timeout: it raises or is still polling; the
    lock object keeps nothing and the holder's lock is untouched. *)
Theorem acquire_excluded_while_held
    fuel timeout check_interval fail_when_locked self w h0 e0 self' w' r :
  Lock.fh self = None →
  flocks w !! h0 = Some (Lock.filename self, e0) →
  h0 ≠ next_handle w →
  Z.testbit (Lock.flags self) 1 || e0 = true →
  Z.testbit (Lock.flags self) 2 = true →
  Lock.acquire fuel timeout check_interval fail_when_locked self w
    = (self', w', r) →
  (∀ h, r ≠ Ok h) ∧ r ≠ Blocked ∧
  self' = self ∧
  flocks w' !! h0 = Some (Lock.filename self, e0).
Proof.
  intros Hfh Hheld Hne Hexcl Hnb Hrun.
  destruct (acquire_contended _ _ _ _ _ _ _ _ _ _ _
              Hfh Hheld Hne Hexcl Hnb Hrun) as (Hno & Hnb' & ->).
  destruct (acquire_without_success_frame _ _ _ _ _ _ _ _ _ Hfh Hrun)
    as [_ Hkeep].
  repeat split; try done. by rewrite (Hkeep Hno).
Qed.

Lemma acquire_excluded_while_held_witness :
  let w := held_by_other "f" empty_world in
  let run := Lock.acquire 30 (Some 5000) None None (Lock.new "f") w in
  run.2 = Raise (LockException [ArgExn contention_error]) ∧
  (∀ h, run.2 ≠ Ok h) ∧ run.2 ≠ Blocked ∧
  run.1.1 = Lock.new "f" ∧
  flocks run.1.2 !! 0%nat = Some (Lock.filename (Lock.new "f"), true).
Proof.
  intros w run.
  assert (Lock.acquire 30 (Some 5000) None None (Lock.new "f") w
          = (run.1.1, run.1.2, run.2)) as Hrun by (vm_compute; reflexivity).
  split; [vm_compute; reflexivity|].
  apply (acquire_excluded_while_held
           30 (Some 5000) None None (Lock.new "f") w 0%nat true _ _ _
           eq_refl);
    [vm_compute; reflexivity | vm_compute; lia | reflexivity
    | reflexivity | exact Hrun].
Defined.

(** The clock during the loop: it never goes back, and it ends no later
    than one round after the deadline. *)
Lemma acquire_loop_now self fh timeout_end check_interval fail_when_locked
    fuel : ∀ exception w,
  let w' := (Lock.acquire_loop fuel self fh timeout_end check_interval
               fail_when_locked exception w).1 in
  tick w' = tick w ∧
  now w <= now w' <=
    Z.max (now w + Z.of_N (tick w))
          (timeout_end + 2 * Z.of_N (tick w) + Z.of_N check_interval).
Proof.
  induction fuel as [|n IH]; intros exception w; cbn zeta.
  - simpl. lia.
  - cbn -[Z.testbit conflicts Z.gtb Z.add Z.mul Z.max Lock.acquire_loop].
    cbn [Lock.acquire_loop].
    cbn -[Z.testbit conflicts Z.gtb Z.add Z.mul Z.max Lock.acquire_loop].
    destruct (timeout_end >? now w) eqn:Hdeadline; [|simpl; lia].
    unfold Lock._get_lock, portalocker_lock.
    cbn -[Z.testbit conflicts Z.gtb Z.add Z.mul Z.max Lock.acquire_loop].
    destruct (handles w !! fh) as [path|]; [|simpl; lia].
    destruct (existsb (io_fault_eqb FaultLock) (faults w)); [simpl; lia|].
    destruct (conflicts (flocks w) fh path (Z.testbit (Lock.flags self) 1));
      [|simpl; lia].
    destruct (Z.testbit (Lock.flags self) 2); [|simpl; lia].
    cbn -[Z.testbit conflicts Z.gtb Z.add Z.mul Z.max Lock.acquire_loop].
    destruct fail_when_locked; [simpl; lia|].
    match goal with
    | |- context [Lock.acquire_loop n _ _ _ _ _ ?e ?W] =>
        specialize (IH e W); cbn zeta in IH;
        destruct (Lock.acquire_loop n self fh timeout_end check_interval
                    false e W) as [w3 r3]
    end.
    simpl in *. lia.
Qed.

Lemma prepare_fh_now self h w :
  now (Lock._prepare_fh self h w).1 = now w.
Proof.
  unfold Lock._prepare_fh, truncate_file, seek.
  destruct (Lock.truncate self); [|done]. simpl.
  destruct (handles w !! h) as [p|]; [|done].
  by destruct (files w !! p).
Qed.

(** X4.  With a non-blocking flag, [acquire] comes to an end, returning
    or raising, and does not wait past its deadline by more than one
    polling interval: from the call to its end the clock advances by at
    most the timeout plus one check interval (nothing when that is
    negative), apart from the two clock readings that do not count as
    waiting.  (With a blocking flag the primitive itself waits, without
    bound; the statement is not about that case.) *)
Theorem acquire_wait_is_bounded
    fuel timeout check_interval fail_when_locked self w self' w' r :
  Z.testbit (Lock.flags self) 2 = true →
  0 < Z.of_N (tick w) + Z.of_N (resolved_check_interval check_interval self) →
  (Z.to_nat (resolved_timeout timeout self) < fuel)%nat →
  Lock.acquire fuel timeout check_interval fail_when_locked self w
    = (self', w', r) →
  terminated r = true ∧
  now w <= now w' <=
    now w + 2 * Z.of_N (tick w)
    + Z.max 0 (resolved_timeout timeout self
               + Z.of_N (resolved_check_interval check_interval self)).
Proof.
  intros Hnb Hstep Hfuel Hrun.
  split.
  { destruct (acquire_terminates fuel timeout check_interval fail_when_locked
                self w Hstep Hfuel) as [_ Hterm].
    rewrite Hrun in Hterm. by apply Hterm. }
  clear Hnb Hstep Hfuel.
  destruct (Lock.fh self) as [h|] eqn:Hfh.
  { rewrite (acquire_held _ _ _ _ _ _ h) in Hrun by done.
    injection Hrun as ? ? ?; subst. lia. }
  rewrite acquire_unfold in Hrun by done.
  destruct (Lock._get_fh self w) as [w1 r1] eqn:Hopen.
  unfold Lock._get_fh in Hopen.
  pose proof (open_frame _ _ _ _ _ Hopen) as (Hnow & Htick & _).
  destruct r1 as [h|e| |];
    try (injection Hrun as ? ? ?; subst; lia).
  pose proof (acquire_loop_now self h
                (now w1 + resolved_timeout timeout self)
                (resolved_check_interval check_interval self)
                (resolved_fail_when_locked fail_when_locked self)
                fuel ArgNone (current_time w1).1) as Hloop.
  cbn zeta in Hloop.
  destruct (Lock.acquire_loop _ _ _ _ _ _ _ _) as [w3 r3].
  simpl in Hloop.
  assert (now w <= now w3 <=
            now w + 2 * Z.of_N (tick w)
            + Z.max 0 (resolved_timeout timeout self
                       + Z.of_N (resolved_check_interval check_interval self)))
    as Hbound by lia.
  destruct r3 as [h3|e3| |];
    injection Hrun as ? ? ?; subst; try done.
  by rewrite prepare_fh_now.
Qed.

(** X5.  A lock constructed with a mode that contains no 'w' keeps the
    mode and does not set the truncate flag, and no run of [acquire] on
    it, successful or not, changes the content of an existing file. *)
Theorem other_modes_keep_content
    filename mode timeout check_interval fail_when_locked flags kwargs :
  has_char "w" mode = false →
  let self := Lock.__init__ filename mode timeout check_interval
                fail_when_locked flags kwargs in
  Lock.mode self = mode ∧
  Lock.truncate self = false ∧
  ∀ fuel t c f w self' w' r,
    Lock.acquire fuel t c f self w = (self', w', r) →
    ∀ p content, files w !! p = Some content → files w' !! p = Some content.
Proof.
  intros Hw self.
  assert (Lock.truncate self = false ∧ Lock.mode self = mode
          ∧ Lock.filename self = filename ∧ Lock.fh self = None)
    as (Htr & Hmode & Hname & Hfh).
  { subst self. unfold Lock.__init__. by rewrite Hw. }
  split; [done|]. split; [done|].
  intros fuel t c f w self' w' r Hrun p content Hp.
  rewrite acquire_unfold in Hrun by done.
  destruct (Lock._get_fh self w) as [w1 r1] eqn:Hopen.
  unfold Lock._get_fh in Hopen. rewrite Hmode, Hname in Hopen.
  destruct r1 as [h|e| |].
  - apply open_ok in Hopen as (-> & Hh1 & _ & _ & _ & Hkeep).
    specialize (Hkeep Hw p content Hp).
    destruct (Lock.acquire_loop _ _ _ _ _ _ _ _) as [w3 r3] eqn:Hloop.
    apply (acquire_loop_spec _ _ _ _ _ _ _ _ _ _ filename)
      in Hloop as ((Hfiles & _) & _);
      [|simpl; rewrite Hh1; apply lookup_insert_eq].
    simpl in Hfiles.
    destruct r3 as [h3|e3| |];
      injection Hrun as _ Hw' _; subst w'; try by rewrite Hfiles.
    unfold Lock._prepare_fh. rewrite Htr. simpl. by rewrite Hfiles.
  - pose proof (open_not_ok _ _ _ _ _ Hopen) as [-> _]; [done|].
    injection Hrun as _ Hw' _. by subst w'.
  - by apply open_not_ok in Hopen as [_ [? ?]].
  - by apply open_not_ok in Hopen as [_ [? ?]].
Qed.

Lemma other_modes_keep_content_witness :
  let self := Lock.__init__ "f" "a+" (Some 1000) 250 false LOCK_METHOD [] in
  Lock.mode self = "a+" ∧
  Lock.truncate self = false ∧
  ∀ fuel t c f w self' w' r,
    Lock.acquire fuel t c f self w = (self', w', r) →
    ∀ p content, files w !! p = Some content → files w' !! p = Some content.
Proof.
  apply (other_modes_keep_content "f" "a+" (Some 1000) 250%N false
           LOCK_METHOD []).
  reflexivity.
Defined.

(** X6.  Once [acquire] has returned a file object, every further
    [acquire] on the lock object, with any arguments and in any world,
    returns the same file object and does nothing else. *)
Theorem acquire_again_returns_held_handle
    fuel timeout check_interval fail_when_locked self w self1 w1 h :
  Lock.acquire fuel timeout check_interval fail_when_locked self w
    = (self1, w1, Ok h) →
  Lock.fh self1 = Some h ∧
  ∀ fuel' timeout' check_interval' fail_when_locked' w2,
    Lock.acquire fuel' timeout' check_interval' fail_when_locked' self1 w2
    = (self1, w2, Ok h).
Proof.
  intros Hrun.
  assert (Lock.fh self1 = Some h) as Hfh1.
  { destruct (Lock.fh self) as [h0|] eqn:Hfh.
    - rewrite (acquire_held _ _ _ _ _ _ h0) in Hrun by done.
      by injection Hrun as ? ? ?; subst.
    - apply acquire_spec in Hrun as (-> & -> & _); done. }
  split; [done|]. intros. by apply acquire_held.
Qed.

Lemma acquire_again_returns_held_handle_witness :
  let a := Lock.acquire 1 None None None (Lock.new "f") empty_world in
  Lock.fh a.1.1 = Some 0%nat ∧
  ∀ fuel' timeout' check_interval' fail_when_locked' w2,
    Lock.acquire fuel' timeout' check_interval' fail_when_locked' a.1.1 w2
    = (a.1.1, w2, Ok 0%nat).
Proof.
  intros a.
  assert (Lock.acquire 1 None None None (Lock.new "f") empty_world
          = (a.1.1, a.1.2, Ok 0%nat)) as Ha by (vm_compute; reflexivity).
  exact (acquire_again_returns_held_handle _ _ _ _ _ _ _ _ _ Ha).
Defined.

Lemma acquire_wait_is_bounded_witness :
  let w := held_by_other "f" (mkWorld 0 3 ∅ ∅ ∅ 0 ∅ [] [] [] []) in
  let run := Lock.acquire 1001 (Some 1000) None None (Lock.new "f") w in
  now w = 6 ∧ now run.1.2 = 1024 ∧
  run.2 = Raise (LockException [ArgExn contention_error]) ∧
  terminated run.2 = true ∧
  now w <= now run.1.2 <=
    now w + 2 * Z.of_N (tick w)
    + Z.max 0 (resolved_timeout (Some 1000) (Lock.new "f")
               + Z.of_N (resolved_check_interval None (Lock.new "f"))).
Proof.
  intros w run.
  assert (Lock.acquire 1001 (Some 1000) None None (Lock.new "f") w
          = (run.1.1, run.1.2, run.2)) as Hrun by (vm_compute; reflexivity).
  split; [vm_compute; reflexivity|]. split; [vm_compute; reflexivity|].
  split; [vm_compute; reflexivity|].
  apply (acquire_wait_is_bounded 1001 (Some 1000) None None (Lock.new "f") w
           run.1.1 run.1.2 run.2);
    [reflexivity | vm_compute; reflexivity | vm_compute; lia | exact Hrun].
Defined.

(** ** The reentrant lock's counter *)

(** X7.  A call of [RLock.acquire] or [RLock.release] that does not
    return leaves the lock object exactly as it was, counter included: a
    failed [acquire] is not to be paired with a [release].  A call that
    returns moves the counter by one. *)
Theorem rlock_failed_call_changes_nothing fuel t c f self w :
  match (RLock.acquire fuel t c f self w).2 with
  | Ok _ => RLock._acquire_count (RLock.acquire fuel t c f self w).1.1
            = RLock._acquire_count self + 1
  | _ => (RLock.acquire fuel t c f self w).1.1 = self
  end ∧
  match (RLock.release self w).2 with
  | Ok _ => RLock._acquire_count (RLock.release self w).1.1
            = RLock._acquire_count self - 1
  | _ => (RLock.release self w).1 = (self, w)
  end.
Proof.
  split.
  - unfold RLock.acquire.
    destruct (RLock._acquire_count self >=? 1); [done|].
    destruct (Lock.fh (RLock.base self)) as [h|] eqn:Hfh.
    { by rewrite (acquire_held _ _ _ _ _ _ h). }
    destruct (Lock.acquire fuel t c f (RLock.base self) w)
      as [[b w1] r] eqn:Hacq.
    apply acquire_spec in Hacq; [|done]. cbn zeta in Hacq.
    destruct r as [h|e| |]; simpl; [done| | |];
      destruct Hacq as [-> _]; by destruct self.
  - unfold RLock.release.
    destruct (RLock._acquire_count self =? 0)%Z; [done|].
    destruct (RLock._acquire_count self =? 1)%Z; [|done].
    rewrite release_spec.
    by destruct (Lock.fh (RLock.base self)).
Qed.

(** ** TemporaryFileLock *)

(** [TemporaryFileLock.release] in terms of what it does to the world. *)
Lemma temporary_release_unfold self w :
  let b := TemporaryFileLock.base self in
  let w1 := (Lock.release b w).1.2 in
  files w1 = files w ∧ faults w1 = faults w ∧
  TemporaryFileLock.release self w =
    match files w !! Lock.filename b with
    | Some _ =>
        if faulty FaultRemove w
        then (TemporaryFileLock.mk (Lock.set_fh None b), w1,
              Raise (OSError "remove"))
        else (TemporaryFileLock.mk (Lock.set_fh None b),
              log (EvUnlink (Lock.filename b))
                  (set_files (delete (Lock.filename b) (files w)) w1),
              Ok tt)
    | None => (TemporaryFileLock.mk (Lock.set_fh None b), w1, Ok tt)
    end.
Proof.
  cbn zeta. unfold TemporaryFileLock.release. rewrite !release_spec.
  destruct self as [b]. cbn [TemporaryFileLock.base].
  assert (∀ b' w1, files w1 = files w → faults w1 = faults w →
            Lock.filename b' = Lock.filename b →
            (if os_path_isfile (Lock.filename b') w1
             then let '(w2, r) := os_unlink (Lock.filename b') w1 in
                  (TemporaryFileLock.mk b', w2, r)
             else (TemporaryFileLock.mk b', w1, Ok tt))
            = match files w !! Lock.filename b with
              | Some _ =>
                  if faulty FaultRemove w
                  then (TemporaryFileLock.mk b', w1, Raise (OSError "remove"))
                  else (TemporaryFileLock.mk b',
                        log (EvUnlink (Lock.filename b))
                            (set_files (delete (Lock.filename b) (files w)) w1),
                        Ok tt)
              | None => (TemporaryFileLock.mk b', w1, Ok tt)
              end) as Hstep.
  { intros b' w1 Hf Hfa ->.
    unfold os_path_isfile, os_unlink, os_remove, faulty. rewrite Hf, Hfa.
    destruct (files w !! Lock.filename b) as [c|] eqn:Hc.
    - rewrite bool_decide_eq_true_2 by eauto.
      by destruct (existsb _ (faults w)).
    - rewrite bool_decide_eq_false_2; [done|]. by intros [? ?]. }
  destruct (Lock.fh b) as [h|] eqn:Hfh; cbn [fst snd].
  - split; [done|]. split; [done|]. by apply Hstep.
  - split; [done|]. split; [done|]. rewrite Hstep by done.
    assert (Lock.set_fh None b = b) as -> by (destruct b; simpl in *; by subst).
    done.
Qed.

(** X8.  [TemporaryFileLock.release] always gives the lock back: the lock
    object holds no file object afterwards, the file object it held is
    closed and holds no advisory lock, and the advisory locks and open
    file objects of everyone else, and every other file, are as before.
    It then removes the lock file if there is one, whether or not this
    instance held the lock: it returns exactly when there is no lock file
    or its removal does not fail, the lock file is gone then, and a
    second [release] (the hook registered with [atexit] after an explicit
    one) changes nothing; when the removal fails, its exception is passed
    on and the lock file stays. *)
Theorem temporary_file_lock_release_removes_file self w :
  let filename := Lock.filename (TemporaryFileLock.base self) in
  let self' := (TemporaryFileLock.release self w).1.1 in
  let w' := (TemporaryFileLock.release self w).1.2 in
  let r := (TemporaryFileLock.release self w).2 in
  Lock.fh (TemporaryFileLock.base self') = None ∧
  (∀ h, Lock.fh (TemporaryFileLock.base self) = Some h →
        flocks w' !! h = None ∧ handles w' !! h = None) ∧
  (∀ h, Lock.fh (TemporaryFileLock.base self) ≠ Some h →
        flocks w' !! h = flocks w !! h ∧ handles w' !! h = handles w !! h) ∧
  (∀ p, p ≠ filename → files w' !! p = files w !! p) ∧
  (r = Ok tt ↔ files w !! filename = None ∨ faulty FaultRemove w = false) ∧
  (r = Ok tt →
   files w' !! filename = None ∧
   TemporaryFileLock.release self' w' = (self', w', Ok tt)) ∧
  (r ≠ Ok tt →
   r = Raise (OSError "remove") ∧
   files w' !! filename = files w !! filename).
Proof.
  cbn zeta.
  destruct (temporary_release_unfold self w) as (Hf1 & Hfa1 & Hrel).
  cbn zeta in Hf1, Hfa1, Hrel.
  set (b := TemporaryFileLock.base self) in *.
  set (w1 := (Lock.release b w).1.2) in *.
  assert ((∀ h, Lock.fh b = Some h →
                flocks w1 !! h = None ∧ handles w1 !! h = None) ∧
          (∀ h, Lock.fh b ≠ Some h →
                flocks w1 !! h = flocks w !! h ∧
                handles w1 !! h = handles w !! h)) as [Hmine Hothers].
  { subst w1. rewrite release_spec.
    destruct (Lock.fh b) as [h0|] eqn:Hfh; cbn [fst snd].
    - split.
      + intros h [= <-]. simpl. by rewrite !lookup_delete_eq.
      + intros h Hne. simpl.
        rewrite !lookup_delete_ne by congruence. done.
    - split; [done|]. done. }
  destruct (files w !! Lock.filename b) as [c|] eqn:Hc.
  - destruct (faulty FaultRemove w) eqn:Hfault.
    + rewrite Hrel. cbn [fst snd TemporaryFileLock.base Lock.fh Lock.set_fh].
      rewrite Hf1, Hc.
      repeat split; try done; try (by apply Hmine); try (by apply Hothers).
      by intros [?|?].
    + rewrite Hrel. cbn [fst snd TemporaryFileLock.base Lock.fh Lock.set_fh].
      cbn [files flocks handles log set_files].
      rewrite lookup_delete_eq.
      split; [done|]. split; [by apply Hmine|]. split; [by apply Hothers|].
      split; [intros p Hp; by rewrite lookup_delete_ne|].
      split; [split; [by right|done]|].
      split; [|done]. intros _. split; [done|].
      destruct (temporary_release_unfold
                  (TemporaryFileLock.mk (Lock.set_fh None b))
                  (log (EvUnlink (Lock.filename b))
                     (set_files (delete (Lock.filename b) (files w)) w1)))
        as (_ & _ & ->).
      cbn [TemporaryFileLock.base Lock.filename Lock.set_fh files log
           set_files].
      rewrite lookup_delete_eq. rewrite release_spec.
      cbn [Lock.fh Lock.set_fh fst snd]. done.
  - rewrite Hrel. cbn [fst snd TemporaryFileLock.base Lock.fh Lock.set_fh].
    rewrite Hf1, Hc.
    split; [done|]. split; [by apply Hmine|]. split; [by apply Hothers|].
    split; [done|].
    split; [split; [by left|done]|].
    split; [|done]. intros _. split; [done|].
    destruct (temporary_release_unfold
                (TemporaryFileLock.mk (Lock.set_fh None b)) w1)
      as (_ & _ & ->).
    cbn [TemporaryFileLock.base Lock.filename Lock.set_fh].
    rewrite Hf1, Hc. rewrite release_spec.
    cbn [Lock.fh Lock.set_fh fst snd]. done.
Qed.

(** ** The bounded semaphore's permits *)

Lemma slot_lock_facts filename :
  Lock.filename (BoundedSemaphore.slot_lock filename) = filename ∧
  Lock.flags (BoundedSemaphore.slot_lock filename) = LOCK_METHOD ∧
  Lock.mode (BoundedSemaphore.slot_lock filename) = "a" ∧
  Lock.truncate (BoundedSemaphore.slot_lock filename) = false.
Proof. done. Qed.

(** A pass that reports success has stored a lock object that holds one of
    the candidate files. *)
Lemma try_lock_true fuel filenames : ∀ self w self' w',
  BoundedSemaphore.try_lock fuel filenames self w = (self', w', Ok true) →
  ∃ l h filename,
    BoundedSemaphore.lock self' = Some l ∧ Lock.fh l = Some h ∧
    filename ∈ filenames ∧ Lock.filename l = filename ∧
    flocks w' !! h = Some (filename, true) ∧
    handles w' !! h = Some filename.
Proof.
  induction filenames as [|filename rest IH]; intros self w self' w' Hrun.
  - simpl in Hrun. by simplify_eq.
  - cbn [BoundedSemaphore.try_lock] in Hrun.
    destruct (Lock.acquire fuel None None None
                (BoundedSemaphore.slot_lock filename) w)
      as [[l w1] r1] eqn:Hacq.
    apply acquire_spec in Hacq; [|apply slot_lock_fh]. cbn zeta in Hacq.
    destruct r1 as [h|e| |]; try (by simplify_eq).
    + injection Hrun as ? ?; subst self' w'.
      destruct Hacq as (-> & -> & Hh & Hl & _).
      exists (Lock.set_fh (Some (next_handle w))
                (BoundedSemaphore.slot_lock filename)),
             (next_handle w), filename.
      split; [done|]. split; [done|].
      split; [apply list_elem_of_here|]. split; [done|].
      rewrite Hh, Hl, !lookup_insert_eq. done.
    + destruct e; try (by simplify_eq).
      apply IH in Hrun as (l' & h & f' & ? & ? & Hin & ?).
      exists l', h, f'. repeat split; try tauto.
      by apply list_elem_of_further.
Qed.

Lemma semaphore_loop_permit filenames te ci fuel : ∀ self w self' w' l,
  BoundedSemaphore.acquire_loop fuel filenames te ci self w
    = (self', w', Ok l) →
  l = BoundedSemaphore.lock self' ∧
  ∃ fuel' self0 w0,
    BoundedSemaphore.try_lock fuel' filenames self0 w0 = (self', w', Ok true).
Proof.
  induction fuel as [|n IH]; intros self w self' w' l Hrun.
  - simpl in Hrun. by simplify_eq.
  - cbn [BoundedSemaphore.acquire_loop current_time] in Hrun.
    destruct (te >? now w); [|by simplify_eq].
    destruct (BoundedSemaphore.try_lock (S n) filenames self _)
      as [[self1 w2] r1] eqn:Htry.
    destruct r1 as [[|]|e| |]; try (by simplify_eq).
    + unfold BoundedSemaphore.returned_lock in Hrun.
      injection Hrun as ? ? ?; subst self1 w2 l.
      split; [done|]. eauto.
    + by apply IH in Hrun.
Qed.

(** A permit comes from a pass that reported success. *)
Lemma semaphore_acquire_ok fuel timeout check_interval self w self' w' l :
  BoundedSemaphore.acquire fuel timeout check_interval self w
    = (self', w', Ok l) →
  l = BoundedSemaphore.lock self' ∧
  ∃ fuel' self0 w0,
    BoundedSemaphore.try_lock fuel' (BoundedSemaphore.get_filenames self)
      self0 w0 = (self', w', Ok true).
Proof.
  unfold BoundedSemaphore.acquire. intros Hrun.
  destruct (BoundedSemaphore.lock self); [by simplify_eq|].
  destruct (BoundedSemaphore.try_lock fuel _ self w)
    as [[self1 w1] r1] eqn:Htry.
  destruct r1 as [[|]|e| |]; try (by simplify_eq).
  - unfold BoundedSemaphore.returned_lock in Hrun.
    injection Hrun as ? ? ?; subst self1 w1 l. split; [done|]. eauto.
  - match type of Hrun with (if ?c then _ else _) = _ => destruct c end;
      [by simplify_eq|].
    cbn [current_time] in Hrun.
    by apply semaphore_loop_permit in Hrun.
Qed.

(** X9.  A permit that [BoundedSemaphore.acquire] returns is the lock
    object kept in [self.lock]; it holds an open file object with an
    exclusive advisory lock on one of the semaphore's candidate files. *)
Theorem semaphore_permit_is_a_held_lock
    fuel timeout check_interval self w self' w' l :
  BoundedSemaphore.acquire fuel timeout check_interval self w
    = (self', w', Ok l) →
  ∃ lock h filename,
    l = Some lock ∧ BoundedSemaphore.lock self' = Some lock ∧
    Lock.fh lock = Some h ∧
    filename ∈ BoundedSemaphore.get_filenames self ∧
    Lock.filename lock = filename ∧
    flocks w' !! h = Some (filename, true) ∧
    handles w' !! h = Some filename.
Proof.
  intros Hrun.
  apply semaphore_acquire_ok in Hrun as [-> (fuel' & self0 & w0 & Htry)].
  apply try_lock_true in Htry as (lock & h & f & Hl & ? & ? & ? & ? & ?).
  exists lock, h, f. by rewrite Hl.
Qed.

Lemma semaphore_permit_is_a_held_lock_witness :
  let run := BoundedSemaphore.acquire 1 None None two_permits
               (held_by_other "bounded_semaphore.00.lock" empty_world) in
  ∃ lock h filename,
    BoundedSemaphore.lock run.1.1 = Some lock ∧
    BoundedSemaphore.lock run.1.1 = Some lock ∧
    Lock.fh lock = Some h ∧
    filename ∈ BoundedSemaphore.get_filenames two_permits ∧
    Lock.filename lock = filename ∧
    flocks run.1.2 !! h = Some (filename, true) ∧
    handles run.1.2 !! h = Some filename.
Proof.
  intros run.
  assert (BoundedSemaphore.acquire 1 None None two_permits
            (held_by_other "bounded_semaphore.00.lock" empty_world)
          = (run.1.1, run.1.2, Ok (BoundedSemaphore.lock run.1.1))) as Hrun
    by (vm_compute; reflexivity).
  exact (semaphore_permit_is_a_held_lock _ _ _ _ _ _ _ _ Hrun).
Defined.

(** ** A full semaphore *)

Lemma all_busy_step filenames w w' :
  all_busy filenames w →
  (next_handle w <= next_handle w')%nat →
  (∀ h0, h0 ≠ next_handle w → flocks w' !! h0 = flocks w !! h0) →
  all_busy filenames w'.
Proof.
  intros Hbusy Hn Hl f Hf. destruct (Hbusy f Hf) as (h0 & e0 & Hh0 & Hlt).
  exists h0, e0. split; [|lia]. rewrite Hl; [done|lia].
Qed.

Lemma try_lock_busy fuel all : ∀ filenames self w self' w' r,
  (∀ f, f ∈ filenames → f ∈ all) →
  all_busy all w →
  BoundedSemaphore.try_lock fuel filenames self w = (self', w', r) →
  r ≠ Ok true ∧
  (next_handle w <= next_handle w')%nat ∧
  (∀ h0, (h0 < next_handle w)%nat → flocks w' !! h0 = flocks w !! h0) ∧
  (r = Ok false → all_busy all w').
Proof.
  induction filenames as [|filename rest IH];
    intros self w self' w' r Hsub Hbusy Hrun.
  - simpl in Hrun. by simplify_eq.
  - cbn [BoundedSemaphore.try_lock] in Hrun.
    destruct (Lock.acquire fuel None None None
                (BoundedSemaphore.slot_lock filename) w)
      as [[l w1] r1] eqn:Hacq.
    destruct (Hbusy filename (Hsub _ (list_elem_of_here _ _)))
      as (h0 & e0 & Hh0 & Hlt).
    pose proof (acquire_contended _ _ _ _
                  (BoundedSemaphore.slot_lock filename) w h0 e0 _ _ _
                  (slot_lock_fh filename) Hh0 ltac:(lia) eq_refl eq_refl Hacq)
      as (Hno & Hnb & _).
    pose proof (acquire_without_success_frame _ _ _ _ _ _ _ _ _
                  (slot_lock_fh filename) Hacq) as (Hn1 & Hkeep).
    specialize (Hkeep Hno).
    assert (all_busy all w1) as Hbusy1 by (by eapply all_busy_step).
    assert (∀ h1, (h1 < next_handle w)%nat →
                  flocks w1 !! h1 = flocks w !! h1) as Hkeep'
      by (intros h1 Hh1; apply Hkeep; lia).
    destruct r1 as [h|e| |]; try (by destruct (Hno h));
      try (injection Hrun as ? ? ?; subst self' w' r; by repeat split).
    destruct e;
      try (injection Hrun as ? ? ?; subst self' w' r; by repeat split).
    apply IH in Hrun as (Hr & Hn2 & Hkeep2 & Hfalse); [|by auto using list_elem_of_further|done].
    split; [done|]. split; [lia|]. split; [|done].
    intros h1 Hh1. rewrite Hkeep2 by lia. by apply Hkeep'.
Qed.

Lemma semaphore_loop_busy filenames te ci fuel : ∀ self w self' w' r,
  all_busy filenames w →
  BoundedSemaphore.acquire_loop fuel filenames te ci self w = (self', w', r) →
  (∀ l, r ≠ Ok l) ∧
  (∀ h0, (h0 < next_handle w)%nat → flocks w' !! h0 = flocks w !! h0).
Proof.
  induction fuel as [|n IH]; intros self w self' w' r Hbusy Hrun.
  - simpl in Hrun. by simplify_eq.
  - cbn [BoundedSemaphore.acquire_loop current_time] in Hrun.
    destruct (te >? now w); [|by simplify_eq].
    destruct (BoundedSemaphore.try_lock (S n) filenames self _)
      as [[self1 w2] r1] eqn:Htry.
    apply (try_lock_busy _ filenames) in Htry
      as (Hr & Hn & Hkeep & Hfalse); [|done|done].
    simpl in Hn, Hkeep.
    destruct r1 as [[|]|e| |]; try done;
      try (injection Hrun as ? ? ?; subst self' w' r; by split).
    apply IH in Hrun as [Hno Hkeep2]; [|by apply Hfalse].
    split; [done|]. intros h0 Hh0.
    rewrite Hkeep2 by (simpl; lia). by apply Hkeep.
Qed.

(** X10.  While every candidate file is locked through some other file
    object, [BoundedSemaphore.acquire] never returns a permit, whatever
    the timeout, and it leaves those locks as they are: the semaphore
    never has more holders than files. *)
Theorem semaphore_full_gives_no_permit
    fuel timeout check_interval self w self' w' r :
  BoundedSemaphore.lock self = None →
  all_busy (BoundedSemaphore.get_filenames self) w →
  BoundedSemaphore.acquire fuel timeout check_interval self w
    = (self', w', r) →
  (∀ l, r ≠ Ok l) ∧
  (∀ h0, (h0 < next_handle w)%nat → flocks w' !! h0 = flocks w !! h0).
Proof.
  intros Hnone Hbusy Hrun.
  unfold BoundedSemaphore.acquire in Hrun. rewrite Hnone in Hrun.
  destruct (BoundedSemaphore.try_lock fuel _ self w)
    as [[self1 w1] r1] eqn:Htry.
  apply (try_lock_busy _ (BoundedSemaphore.get_filenames self)) in Htry
    as (Hr & Hn & Hkeep & Hfalse); [|done|done].
  destruct r1 as [[|]|e| |]; try done;
    try (injection Hrun as ? ? ?; subst self' w' r; by split).
  match type of Hrun with (if ?c then _ else _) = _ => destruct c end;
    [injection Hrun as ? ? ?; subst self' w' r; by split|].
  cbn [current_time] in Hrun.
  apply semaphore_loop_busy in Hrun as [Hno Hkeep2]; [|by apply Hfalse].
  split; [done|]. intros h0 Hh0.
  rewrite Hkeep2 by (simpl; lia). by apply Hkeep.
Qed.

Lemma semaphore_full_gives_no_permit_witness :
  let w := two_permits_busy [] in
  let run := BoundedSemaphore.acquire 4 None None two_permits w in
  run.2 = Raise (AlreadyLocked []) ∧
  (∀ l, run.2 ≠ Ok l) ∧
  (∀ h0, (h0 < next_handle w)%nat → flocks run.1.2 !! h0 = flocks w !! h0).
Proof.
  intros w run.
  assert (BoundedSemaphore.acquire 4 None None two_permits w
          = (run.1.1, run.1.2, run.2)) as Hrun by (vm_compute; reflexivity).
  split; [vm_compute; reflexivity|].
  apply (semaphore_full_gives_no_permit 4 None None two_permits w
           run.1.1 run.1.2 run.2 eq_refl); [|exact Hrun].
  intros f Hf.
  assert (f = "bounded_semaphore.00.lock" ∨ f = "bounded_semaphore.01.lock")
    as [->| ->].
  { change (BoundedSemaphore.get_filenames two_permits)
      with ["bounded_semaphore.00.lock"; "bounded_semaphore.01.lock"] in Hf.
    apply list_elem_of_In in Hf.
    destruct Hf as [<-|[<-|[]]]; [by left|by right]. }
  - exists 0%nat, true. split; [vm_compute; reflexivity | vm_compute; lia].
  - exists 1%nat, true. split; [vm_compute; reflexivity | vm_compute; lia].
Defined.

(** ** Giving a permit back *)

(** A pass that does not report success leaves a lock object without a
    file object in [self.lock], or [self.lock] as it was. *)
Lemma try_lock_no_fh fuel filenames : ∀ self w self' w' r,
  (∀ l, BoundedSemaphore.lock self = Some l → Lock.fh l = None) →
  BoundedSemaphore.try_lock fuel filenames self w = (self', w', r) →
  r ≠ Ok true →
  ∀ l, BoundedSemaphore.lock self' = Some l → Lock.fh l = None.
Proof.
  induction filenames as [|filename rest IH]; intros self w self' w' r Hno Hrun Hr.
  - simpl in Hrun. by simplify_eq.
  - cbn [BoundedSemaphore.try_lock] in Hrun.
    destruct (Lock.acquire fuel None None None
                (BoundedSemaphore.slot_lock filename) w)
      as [[l1 w1] r1] eqn:Hacq.
    apply acquire_spec in Hacq; [|apply slot_lock_fh]. cbn zeta in Hacq.
    assert (∀ l, BoundedSemaphore.lock
                   (BoundedSemaphore.set_lock
                      (Some (BoundedSemaphore.slot_lock filename)) self)
                 = Some l → Lock.fh l = None) as Hstale.
    { intros l [= <-]. apply slot_lock_fh. }
    destruct r1 as [h|e| |].
    + by simplify_eq.
    + destruct Hacq as [-> _].
      destruct e; try (injection Hrun as ? ? ?; by subst self' w' r).
      by eapply IH.
    + destruct Hacq as [-> _]. injection Hrun as ? ? ?; by subst self' w' r.
    + destruct Hacq as [-> _]. injection Hrun as ? ? ?; by subst self' w' r.
Qed.

Lemma semaphore_loop_no_fh filenames te ci fuel : ∀ self w self' w' r,
  (∀ l, BoundedSemaphore.lock self = Some l → Lock.fh l = None) →
  BoundedSemaphore.acquire_loop fuel filenames te ci self w = (self', w', r) →
  (∀ l, r ≠ Ok l) →
  ∀ l, BoundedSemaphore.lock self' = Some l → Lock.fh l = None.
Proof.
  induction fuel as [|n IH]; intros self w self' w' r Hno Hrun Hr.
  - simpl in Hrun. by simplify_eq.
  - cbn [BoundedSemaphore.acquire_loop current_time] in Hrun.
    destruct (te >? now w); [|by simplify_eq].
    destruct (BoundedSemaphore.try_lock (S n) filenames self _)
      as [[self1 w2] r1] eqn:Htry.
    pose proof (try_lock_no_fh _ _ _ _ _ _ _ Hno Htry) as Hno1.
    destruct r1 as [[|]|e| |];
      try (injection Hrun as ? ? ?; subst self' w' r; by apply Hno1).
    + unfold BoundedSemaphore.returned_lock in Hrun.
      injection Hrun as ? ? ?; subst self' w' r.
      by destruct (Hr (BoundedSemaphore.lock self1)).
    + eapply IH; [|done..]. by apply Hno1.
Qed.

(** X11.  After [BoundedSemaphore.acquire] on a semaphore that held
    nothing, [release] gives back what was taken.  After a permit it
    returns, closes the permit's file object, drops its advisory lock and
    those of no other file object, and empties [self.lock], so that the
    semaphore can be acquired again.  After a call that gave no permit,
    [release] touches nothing in the world: it raises [AttributeError]
    when no candidate was tried, and otherwise returns and empties
    [self.lock]. *)
Theorem semaphore_release_gives_back
    fuel timeout check_interval self w self1 w1 r :
  BoundedSemaphore.lock self = None →
  BoundedSemaphore.acquire fuel timeout check_interval self w
    = (self1, w1, r) →
  match r with
  | Ok _ =>
      ∃ h filename,
        filename ∈ BoundedSemaphore.get_filenames self ∧
        flocks w1 !! h = Some (filename, true) ∧
        BoundedSemaphore.release self1 w1
          = (BoundedSemaphore.set_lock None self1,
             close h (portalocker_unlock h w1), Ok tt) ∧
        flocks (close h (portalocker_unlock h w1)) !! h = None ∧
        handles (close h (portalocker_unlock h w1)) !! h = None ∧
        ∀ h', h' ≠ h →
          flocks (close h (portalocker_unlock h w1)) !! h' = flocks w1 !! h'
  | _ =>
      match BoundedSemaphore.lock self1 with
      | None =>
          BoundedSemaphore.release self1 w1
            = (self1, w1,
               Raise (AttributeError
                        "'NoneType' object has no attribute 'release'"))
      | Some _ =>
          BoundedSemaphore.release self1 w1
            = (BoundedSemaphore.set_lock None self1, w1, Ok tt)
      end
  end.
Proof.
  intros Hlock Hrun.
  assert ((∀ l, r ≠ Ok l) →
          ∀ l, BoundedSemaphore.lock self1 = Some l → Lock.fh l = None)
    as Hfail.
  { intros Hr. revert Hrun. unfold BoundedSemaphore.acquire. rewrite Hlock.
    destruct (BoundedSemaphore.try_lock fuel _ self w)
      as [[self0 w0] r0] eqn:Htry.
    assert (∀ l, BoundedSemaphore.lock self = Some l → Lock.fh l = None)
      as Hno0 by (by rewrite Hlock).
    pose proof (try_lock_no_fh _ _ _ _ _ _ _ Hno0 Htry) as Hno1.
    destruct r0 as [[|]|e0| |]; try (intros [= <- <- <-]; by apply Hno1).
    - unfold BoundedSemaphore.returned_lock. intros [= <- <- <-].
      by destruct (Hr (BoundedSemaphore.lock self0)).
    - match goal with |- (if ?c then _ else _) = _ → _ => destruct c end;
        [intros [= <- <- <-]; by apply Hno1|].
      cbn [current_time]. intros Hloop.
      eapply semaphore_loop_no_fh; [|done|done]. by apply Hno1. }
  assert ((∀ l, BoundedSemaphore.lock self1 = Some l → Lock.fh l = None) →
          match BoundedSemaphore.lock self1 with
          | None =>
              BoundedSemaphore.release self1 w1
                = (self1, w1,
                   Raise (AttributeError
                            "'NoneType' object has no attribute 'release'"))
          | Some _ =>
              BoundedSemaphore.release self1 w1
                = (BoundedSemaphore.set_lock None self1, w1, Ok tt)
          end) as Hrel.
  { intros Hno. unfold BoundedSemaphore.release.
    destruct (BoundedSemaphore.lock self1) as [l|]; [|done].
    by rewrite release_spec, (Hno l). }
  destruct r as [l|e| |]; try (by apply Hrel, Hfail).
  - apply semaphore_acquire_ok in Hrun as [-> (fuel' & self0 & w0 & Htry)].
    apply try_lock_true in Htry as (lock & h & f & Hl & Hfh & Hin & _ & Hfl & _).
    exists h, f. split; [done|]. split; [done|].
    unfold BoundedSemaphore.release. rewrite Hl, release_spec, Hfh.
    split; [done|]. cbn [close portalocker_unlock flocks handles log
                         set_flocks set_handles].
    rewrite !lookup_delete_eq. split; [done|]. split; [done|].
    intros h' Hne. by rewrite !lookup_delete_ne.
Qed.

Lemma semaphore_release_gives_back_witness :
  let w := held_by_other "bounded_semaphore.00.lock" empty_world in
  let run := BoundedSemaphore.acquire 1 None None two_permits w in
  BoundedSemaphore.lock two_permits = None ∧
  ∃ h filename,
    filename ∈ BoundedSemaphore.get_filenames two_permits ∧
    flocks run.1.2 !! h = Some (filename, true) ∧
    BoundedSemaphore.release run.1.1 run.1.2
      = (BoundedSemaphore.set_lock None run.1.1,
         close h (portalocker_unlock h run.1.2), Ok tt) ∧
    flocks (close h (portalocker_unlock h run.1.2)) !! h = None ∧
    handles (close h (portalocker_unlock h run.1.2)) !! h = None ∧
    ∀ h', h' ≠ h →
      flocks (close h (portalocker_unlock h run.1.2)) !! h' = flocks run.1.2 !! h'.
Proof.
  intros w run.
  assert (BoundedSemaphore.acquire 1 None None two_permits w
          = (run.1.1, run.1.2, Ok (BoundedSemaphore.lock run.1.1))) as Hrun
    by (vm_compute; reflexivity).
  split; [reflexivity|].
  exact (semaphore_release_gives_back 1 None None two_permits w
           run.1.1 run.1.2 (Ok (BoundedSemaphore.lock run.1.1))
           eq_refl Hrun).
Defined.

(** ** A semaphore without permits *)

Lemma semaphore_loop_no_candidates te ci fuel : ∀ self w self' w' r,
  BoundedSemaphore.acquire_loop fuel [] te ci self w = (self', w', r) →
  (∀ l, r ≠ Ok l) ∧ self' = self ∧
  files w' = files w ∧ handles w' = handles w ∧ flocks w' = flocks w ∧
  next_handle w' = next_handle w.
Proof.
  induction fuel as [|n IH]; intros self w self' w' r Hrun.
  - simpl in Hrun. by simplify_eq.
  - cbn [BoundedSemaphore.acquire_loop current_time
         BoundedSemaphore.try_lock] in Hrun.
    destruct (te >? now w); [|by simplify_eq].
    apply IH in Hrun as (? & ? & Hf & Hh & Hl & Hn).
    by rewrite Hf, Hh, Hl, Hn.
Qed.

(** X12.  A semaphore constructed with a maximum of 0 or less has no
    candidate file: [acquire] never gives a permit, opens no file and
    leaves the instance as it was, [self.lock] still [None]. *)
Theorem semaphore_without_permits
    fuel timeout check_interval self w self' w' r :
  BoundedSemaphore.maximum self <= 0 →
  BoundedSemaphore.lock self = None →
  BoundedSemaphore.acquire fuel timeout check_interval self w
    = (self', w', r) →
  BoundedSemaphore.get_filenames self = [] ∧
  (∀ l, r ≠ Ok l) ∧ self' = self ∧
  files w' = files w ∧ handles w' = handles w ∧ flocks w' = flocks w ∧
  next_handle w' = next_handle w.
Proof.
  intros Hmax Hlock Hrun.
  assert (BoundedSemaphore.get_filenames self = []) as Hnames.
  { unfold BoundedSemaphore.get_filenames.
    by replace (Z.to_nat (BoundedSemaphore.maximum self)) with O by lia. }
  split; [done|].
  unfold BoundedSemaphore.acquire in Hrun. rewrite Hlock, Hnames in Hrun.
  cbn [BoundedSemaphore.try_lock current_time] in Hrun.
  match type of Hrun with (if ?c then _ else _) = _ => destruct c end;
    [by simplify_eq|].
  by apply semaphore_loop_no_candidates in Hrun.
Qed.

Lemma semaphore_without_permits_witness :
  let self := BoundedSemaphore.new 0 in
  let run := BoundedSemaphore.acquire 30 (Some 1000) None self empty_world in
  BoundedSemaphore.maximum self <= 0 ∧
  run.2 = Raise (AlreadyLocked []) ∧
  BoundedSemaphore.get_filenames self = [] ∧
  (∀ l, run.2 ≠ Ok l) ∧ run.1.1 = self ∧
  files run.1.2 = files empty_world ∧ handles run.1.2 = handles empty_world ∧
  flocks run.1.2 = flocks empty_world ∧
  next_handle run.1.2 = next_handle empty_world.
Proof.
  intros self run.
  assert (BoundedSemaphore.acquire 30 (Some 1000) None self empty_world
          = (run.1.1, run.1.2, run.2)) as Hrun by (vm_compute; reflexivity).
  split; [vm_compute; discriminate|].
  split; [vm_compute; reflexivity|].
  apply (semaphore_without_permits 30 (Some 1000) None self empty_world
           run.1.1 run.1.2 run.2); [vm_compute; discriminate|reflexivity|exact Hrun].
Defined.

(** ** The shuffled candidate list *)

Lemma swap_head_Permutation {A} (a b : A) (t : list A) j :
  t !! j = Some b → b :: <[j := a]> t ≡ₚ a :: t.
Proof.
  revert j. induction t as [|c t IH]; intros [|j] Hj; try done.
  - simpl in Hj. simplify_eq. simpl. apply perm_swap.
  - simpl in Hj. simpl.
    rewrite (perm_swap c b), (IH _ Hj). apply perm_swap.
Qed.

Lemma swap_Permutation {A} (x : list A) : ∀ i j, swap i j x ≡ₚ x.
Proof.
  unfold swap.
  induction x as [|c x IH]; intros i j; [by destruct i|].
  destruct (_ !! i) as [a|] eqn:Hi; [|done].
  destruct (_ !! j) as [b|] eqn:Hj; [|done].
  destruct i as [|i], j as [|j]; simpl in Hi, Hj; simplify_eq; simpl.
  - done.
  - by apply swap_head_Permutation.
  - by apply swap_head_Permutation.
  - specialize (IH i j). rewrite Hi, Hj in IH. by rewrite IH.
Qed.

Lemma shuffle_from_spec {A} i : ∀ (x : list A) w,
  (shuffle_from i x w).2 ≡ₚ x ∧
  set_rng (rng w) (shuffle_from i x w).1 = w ∧
  ∃ k, rng (shuffle_from i x w).1 = drop k (rng w).
Proof.
  induction i as [|i IH]; intros x w.
  - simpl. split; [done|]. split; [by destruct w|]. by exists O.
  - cbn [shuffle_from]. unfold randbelow.
    destruct (rng w) as [|d ds] eqn:Hrng.
    + destruct (IH (swap (S i) 0 x) w) as (Hp & Hw & k & Hk).
      split; [by rewrite Hp, swap_Permutation|].
      rewrite Hrng in Hw, Hk. split; [exact Hw|]. by exists k.
    + destruct (IH (swap (S i) (d mod S (S i)) x) (set_rng ds w))
        as (Hp & Hw & k & Hk).
      split; [by rewrite Hp, swap_Permutation|].
      split.
      * assert (∀ a b w0, set_rng a (set_rng b w0) = set_rng a w0) as Hidem
          by done.
        cbn [rng set_rng] in Hw.
        rewrite <- (Hidem (d :: ds) ds), Hw, Hidem.
        destruct w; simpl in Hrng. by subst.
      * exists (S k). by rewrite Hk.
Qed.

Lemma randbelow_draw n d ds w :
  (d < n)%nat →
  randbelow n (set_rng (d :: ds) w) = (set_rng ds w, d).
Proof.
  intros Hd. unfold randbelow. cbn [rng set_rng].
  rewrite Nat.mod_small by done. by destruct w.
Qed.

Lemma swap_last {A} (q s : list A) (a b : A) j :
  q !! j = Some a →
  swap (length q) j (q ++ b :: s) = <[j := b]> q ++ a :: s.
Proof.
  intros Hj. unfold swap.
  rewrite list_lookup_middle by done.
  rewrite lookup_app_l by (by eapply lookup_lt_Some).
  rewrite Hj.
  rewrite insert_app_r_alt by lia. rewrite Nat.sub_diag. cbn [insert list_insert].
  rewrite insert_app_l by (by eapply lookup_lt_Some). done.
Qed.

Lemma swap_same {A} (x : list A) i : swap i i x = x.
Proof.
  unfold swap. destruct (x !! i) as [a|] eqn:Hi; [|done].
  rewrite list_insert_insert_eq. by apply list_insert_id.
Qed.

(** Every order of the first [S i] elements is the result of some
    draws. *)
Lemma shuffle_from_reaches {A} i : ∀ (p s l : list A),
  length p = S i → l ≡ₚ p →
  ∃ draws, length draws = i ∧
    ∀ rest w, shuffle_from i (p ++ s) (set_rng (draws ++ rest) w)
              = (set_rng rest w, l ++ s).
Proof.
  induction i as [|i IH]; intros p s l Hlen Hperm.
  - destruct p as [|a [|? ?]]; try done.
    apply Permutation_singleton_r in Hperm as ->.
    exists []. done.
  - destruct (exists_last (l := l)) as (l' & a & ->).
    { intros ->. apply Permutation_nil_l in Hperm. by subst p. }
    destruct (exists_last (l := p)) as (q & b & ->).
    { by intros ->. }
    rewrite length_app in Hlen. simpl in Hlen.
    assert (length q = S i) as Hq by lia.
    assert (a ∈ q ++ [b]) as Hin.
    { rewrite <- Hperm. apply elem_of_app. right. apply list_elem_of_here. }
    apply elem_of_app in Hin as [Hin|Hin].
    + apply list_elem_of_lookup in Hin as [j Hj].
      assert (j < S i)%nat as Hjlt by (rewrite <- Hq; by eapply lookup_lt_Some).
      destruct (IH (<[j := b]> q) (a :: s) l') as (draws & Hd & Hrun).
      { by rewrite length_insert. }
      { apply (Permutation_app_inv_r [a]).
        rewrite Hperm.
        rewrite <- !(Permutation_cons_append _ _).
        symmetry. by apply swap_head_Permutation. }
      exists (j :: draws). split; [simpl; by rewrite Hd|].
      intros rest w. cbn [shuffle_from app].
      rewrite randbelow_draw by lia.
      rewrite <- Hq, <- app_assoc. cbn [app].
      rewrite (swap_last q s a b j Hj), Hrun.
      by rewrite <- app_assoc.
    + apply list_elem_of_singleton in Hin as ->.
      destruct (IH q (b :: s) l') as (draws & Hd & Hrun); [done| |].
      { by apply (Permutation_app_inv_r [b]). }
      exists (S i :: draws). split; [simpl; by rewrite Hd|].
      intros rest w. cbn [shuffle_from app].
      rewrite randbelow_draw by lia.
      rewrite swap_same, <- !app_assoc. cbn [app]. by rewrite Hrun.
Qed.

Lemma shuffle_from_rng {A} i : ∀ (x : list A) w,
  rng (shuffle_from i x w).1 = drop i (rng w).
Proof.
  induction i as [|i IH]; intros x w; [done|].
  cbn [shuffle_from]. unfold randbelow.
  destruct (rng w) as [|d ds] eqn:Hrng.
  - rewrite IH, Hrng. by rewrite !drop_nil.
  - rewrite IH. done.
Qed.

Lemma swap_lookup_other {A} (x : list A) i j k :
  k ≠ i → k ≠ j → swap i j x !! k = x !! k.
Proof.
  intros Hi Hj. unfold swap.
  destruct (x !! i), (x !! j); try done.
  by rewrite !list_lookup_insert_ne.
Qed.

Lemma swap_lookup_first {A} (x : list A) i j :
  (i < length x)%nat → (j < length x)%nat → swap i j x !! i = x !! j.
Proof.
  intros Hi Hj. unfold swap.
  destruct (lookup_lt_is_Some_2 x i Hi) as [a Ha].
  destruct (lookup_lt_is_Some_2 x j Hj) as [b Hb].
  rewrite Ha, Hb.
  destruct (decide (i = j)) as [->|Hne].
  - rewrite list_lookup_insert_eq by (by rewrite length_insert). congruence.
  - rewrite list_lookup_insert_ne by done.
    by rewrite list_lookup_insert_eq.
Qed.

(** The shuffle leaves the positions after the one it started from. *)
Lemma shuffle_from_above {A} i : ∀ (x : list A) w k,
  (i < k)%nat → (shuffle_from i x w).2 !! k = x !! k.
Proof.
  induction i as [|i IH]; intros x w k Hk; [done|].
  cbn [shuffle_from].
  destruct (randbelow (S (S i)) w) as [w' j] eqn:Hr.
  assert (j < S (S i))%nat as Hj.
  { unfold randbelow in Hr. destruct (rng w); simplify_eq; [lia|].
    apply Nat.mod_upper_bound. lia. }
  rewrite IH by lia. apply swap_lookup_other; lia.
Qed.

(** The first draw decides which element goes last. *)
Lemma shuffle_from_last {A} i (x : list A) w :
  (i < length x)%nat →
  (shuffle_from i x w).2 !! i = x !! (hd 0%nat (rng w) mod S i)%nat.
Proof.
  intros Hi. destruct i as [|i].
  - cbn [shuffle_from snd]. by rewrite Nat.mod_1_r.
  - cbn [shuffle_from].
    destruct (randbelow (S (S i)) w) as [w' j] eqn:Hr.
    assert (j = (hd 0%nat (rng w) mod S (S i))%nat) as Hj.
    { unfold randbelow in Hr. destruct (rng w); simplify_eq; [|done].
      cbn [hd]. symmetry. apply Nat.Div0.mod_0_l. }
    rewrite shuffle_from_above by lia.
    rewrite swap_lookup_first; [by rewrite Hj|done|].
    rewrite Hj. pose proof (Nat.mod_upper_bound (hd 0%nat (rng w)) (S (S i))).
    lia.
Qed.

(** X13.  [get_random_filenames] returns the candidate files of
    [get_filenames] in an order that the random source decides: the
    result has the same names, each as often; it takes one draw for every
    candidate but one and changes nothing else; the first draw, reduced
    modulo the number of candidates, picks the candidate that comes last;
    and every order of the candidates is the result for some draws. *)
Theorem random_filenames_are_the_candidates self w :
  let names := BoundedSemaphore.get_filenames self in
  let shuffled := (BoundedSemaphore.get_random_filenames self w).2 in
  let w' := (BoundedSemaphore.get_random_filenames self w).1 in
  shuffled ≡ₚ names ∧
  length shuffled = Z.to_nat (BoundedSemaphore.maximum self) ∧
  set_rng (rng w) w' = w ∧
  rng w' = drop (length names - 1) (rng w) ∧
  shuffled !! (length names - 1)%nat
    = names !! (hd 0%nat (rng w) mod length names)%nat ∧
  ∀ l, l ≡ₚ names →
    ∃ draws, length draws = (length names - 1)%nat ∧
      ∀ w0, (BoundedSemaphore.get_random_filenames self
               (set_rng draws w0)).2 = l.
Proof.
  cbn zeta.
  unfold BoundedSemaphore.get_random_filenames, random_shuffle.
  set (names := BoundedSemaphore.get_filenames self).
  destruct (shuffle_from_spec (length names - 1) names w) as (Hp & Hw & _).
  split; [done|]. split.
  { rewrite Hp. unfold names, BoundedSemaphore.get_filenames.
    by rewrite length_map, length_seq. }
  split; [done|]. split; [apply shuffle_from_rng|]. split.
  - destruct names as [|a names'] eqn:Hn; [done|].
    replace (length (a :: names') - 1)%nat with (length names')
      by (simpl; lia).
    apply shuffle_from_last. simpl. lia.
  - intros l Hl. destruct names as [|a names'] eqn:Hn.
    + apply Permutation_nil_r in Hl as ->. exists []. done.
    + replace (length (a :: names') - 1)%nat with (length names')
        by (simpl; lia).
      destruct (shuffle_from_reaches (length names') (a :: names') [] l)
        as (draws & Hd & Hrun); [done|done|].
      exists draws. split; [done|]. intros w0.
      specialize (Hrun [] w0). rewrite !app_nil_r in Hrun.
      by rewrite Hrun.
Qed.

(** ** A free slot gives a permit *)

(** Opening for appending works on a path that is no directory, in a
    directory that is there, when the operating system does not refuse. *)
Lemma open_append path w :
  path ∉ dirs w →
  parent_exists path w = true →
  faulty FaultOpen w = false →
  ∃ w1, open path "a" w = (w1, Ok (next_handle w)).
Proof.
  intros Hdir Hparent Hfault. unfold open.
  change (negb (valid_mode "a")) with false.
  change (has_char "r" "a") with false.
  change (has_char "w" "a") with false.
  change (has_char "x" "a") with false.
  rewrite (bool_decide_eq_false_2 _ Hdir), Hparent, Hfault. cbn [negb].
  destruct (files w !! path); rewrite new_handle_spec; eauto.
Qed.

(** One candidate of a pass: the lock on its file is obtained, or the file
    is locked through another file object and the attempt is given up at
    once. *)
Lemma slot_acquire fuel filename w :
  filename ∉ dirs w →
  parent_exists filename w = true →
  faulty FaultOpen w = false →
  faulty FaultLock w = false →
  Z.of_N (tick w) < DEFAULT_TIMEOUT →
  ∃ w' evs,
    trace w' = trace w ++ evs ∧ sleeps evs = 0%nat ∧
    ((conflicts (flocks w) (next_handle w) filename true = false ∧
     Lock.acquire (S fuel) None None None
       (BoundedSemaphore.slot_lock filename) w
     = (Lock.set_fh (Some (next_handle w))
          (BoundedSemaphore.slot_lock filename), w', Ok (next_handle w)))
    ∨
    (conflicts (flocks w) (next_handle w) filename true = true ∧
     Lock.acquire (S fuel) None None None
       (BoundedSemaphore.slot_lock filename) w
     = (BoundedSemaphore.slot_lock filename, w',
        Raise (AlreadyLocked [ArgExn contention_error])) ∧
     dirs w' = dirs w ∧ tick w' = tick w ∧ faults w' = faults w ∧
     flocks w' = delete (next_handle w) (flocks w))).
Proof.
  intros Hdir Hparent Hfopen Hflock Htick.
  destruct (open_append filename w Hdir Hparent Hfopen) as [w1 Hopen].
  destruct (conflicts (flocks w) (next_handle w) filename true) eqn:Hc.
  - rewrite acquire_unfold by apply slot_lock_fh.
    unfold Lock._get_fh.
    change (Lock.filename (BoundedSemaphore.slot_lock filename)) with filename.
    change (Lock.mode (BoundedSemaphore.slot_lock filename)) with "a".
    rewrite Hopen.
    pose proof (open_frame _ _ _ _ _ Hopen)
      as (Hnow & Htick1 & _ & Hdirs & Hfaults & _).
    apply open_ok in Hopen as (_ & Hh1 & Hl1 & Ht1 & _).
    rewrite (acquire_loop_step _ _ _ _ _ _ _ _ filename)
      by (simpl; rewrite Hh1; apply lookup_insert_eq).
    cbn zeta. unfold faulty in *.
    cbn [current_time fst now set_now tick flocks faults].
    rewrite Hfaults, Hflock.
    change (resolved_timeout None (BoundedSemaphore.slot_lock filename))
      with DEFAULT_TIMEOUT.
    destruct (now w1 + DEFAULT_TIMEOUT >? now w1 + Z.of_N (tick w1))
      eqn:Hdeadline; [|lia].
    change (Z.testbit (Lock.flags (BoundedSemaphore.slot_lock filename)) 1)
      with true.
    change (Z.testbit (Lock.flags (BoundedSemaphore.slot_lock filename)) 2)
      with true.
    change (resolved_fail_when_locked None
              (BoundedSemaphore.slot_lock filename)) with true.
    rewrite Hl1, Hc.
    eexists; exists [EvOpen (next_handle w) filename "a";
                     EvLock (next_handle w) LOCK_METHOD false;
                     EvClose (next_handle w)].
    split; [|split; [done|]]; last first.
    { right. split; [done|]. split; [done|].
      cbn [Lock.try_close close dirs tick flocks faults log set_flocks
           set_handles set_now current_time fst].
      by rewrite Hdirs, Htick1, Hfaults, Hl1. }
    cbn [Lock.try_close close trace log set_flocks set_handles set_now
         current_time fst].
    rewrite Ht1, <- ?app_assoc. done.
  - destruct (acquire_first_attempt fuel None None None
                (BoundedSemaphore.slot_lock filename) w w1 (next_handle w)
                (slot_lock_fh filename) Hopen Hc Hflock)
      as (w' & Hrun & _ & _ & Ht); [done|].
    exists w'; eexists. split; [exact Ht|]. split; [done|]. by left.
Qed.

(** A pass over candidates of which one is locked by nobody reports
    success. *)
Lemma try_lock_free fuel filename : ∀ filenames self w,
  filename ∈ filenames →
  (∀ h0 e0, flocks w !! h0 ≠ Some (filename, e0)) →
  (∀ f, f ∈ filenames → (f ∉ dirs w) ∧ parent_exists f w = true) →
  faulty FaultOpen w = false →
  faulty FaultLock w = false →
  Z.of_N (tick w) < DEFAULT_TIMEOUT →
  ∃ self' w' evs,
    BoundedSemaphore.try_lock (S fuel) filenames self w = (self', w', Ok true) ∧
    trace w' = trace w ++ evs ∧ sleeps evs = 0%nat.
Proof.
  induction filenames as [|f rest IH];
    intros self w Hin Hfree Hdirs Hfopen Hflock Htick.
  - by apply elem_of_nil in Hin.
  - cbn [BoundedSemaphore.try_lock].
    destruct (Hdirs f (list_elem_of_here _ _)) as [Hfdir Hfparent].
    destruct (slot_acquire fuel f w Hfdir Hfparent Hfopen Hflock Htick)
      as (w' & evs & Htr & Hsl & [[_ ->]|(Hc & -> & Hd & Ht & Hfa & Hl)]);
      [eauto 6 |].
    enough (∃ self' w2 evs2,
              BoundedSemaphore.try_lock (S fuel) rest
                (BoundedSemaphore.set_lock
                   (Some (BoundedSemaphore.slot_lock f)) self) w'
              = (self', w2, Ok true) ∧
              trace w2 = trace w' ++ evs2 ∧ sleeps evs2 = 0%nat)
      as (self' & w2 & evs2 & -> & Htr2 & Hsl2).
    { exists self', w2, (evs ++ evs2). split; [done|].
      rewrite Htr2, Htr, <- app_assoc. split; [done|].
      by rewrite sleeps_app, Hsl, Hsl2. }
    apply IH.
    + apply elem_of_cons in Hin as [->|Hin]; [|done].
      rewrite conflicts_free in Hc; [done|].
      intros h0 p e0 Hh0 ->. by eapply Hfree.
    + intros h0 e0. rewrite Hl. intros Hh0.
      apply lookup_delete_Some in Hh0 as [_ Hh0]. by eapply Hfree.
    + intros f' Hf'. unfold parent_exists. rewrite Hd.
      by apply Hdirs, list_elem_of_further.
    + unfold faulty. by rewrite Hfa.
    + unfold faulty. by rewrite Hfa.
    + by rewrite Ht.
Qed.

(** X14.  When one of the candidate files is locked by nobody, every
    candidate can be opened (its path is no directory, the directory it
    lies in is there, and the operating system refuses neither the
    opening nor the locking) and a clock reading takes less than the
    default timeout, [BoundedSemaphore.acquire] gives a permit in its
    first pass, without sleeping, whatever the timeout. *)
Theorem semaphore_free_slot_gives_permit
    fuel timeout check_interval self w filename :
  BoundedSemaphore.lock self = None →
  filename ∈ BoundedSemaphore.get_filenames self →
  (∀ h0 e0, flocks w !! h0 ≠ Some (filename, e0)) →
  (∀ f, f ∈ BoundedSemaphore.get_filenames self →
        (f ∉ dirs w) ∧ parent_exists f w = true) →
  faulty FaultOpen w = false →
  faulty FaultLock w = false →
  Z.of_N (tick w) < DEFAULT_TIMEOUT →
  ∃ self' w' l h,
    BoundedSemaphore.acquire (S fuel) timeout check_interval self w
      = (self', w', Ok (Some l)) ∧
    BoundedSemaphore.lock self' = Some l ∧ Lock.fh l = Some h ∧
    flocks w' !! h = Some (Lock.filename l, true) ∧
    sleeps (events_since w w') = 0%nat.
Proof.
  intros Hlock Hin Hfree Hdirs Hfopen Hflock Htick.
  destruct (try_lock_free fuel filename _ self w Hin Hfree Hdirs
              Hfopen Hflock Htick)
    as (self' & w' & evs & Htry & Htr & Hsl).
  unfold BoundedSemaphore.acquire. rewrite Hlock, Htry.
  unfold BoundedSemaphore.returned_lock.
  apply try_lock_true in Htry as (l & h & f & Hl & Hfh & _ & Hname & Hfl & _).
  exists self', w', l, h. rewrite Hl, Hname. repeat split; try done.
  by rewrite (events_since_app _ _ _ Htr).
Qed.

Lemma semaphore_free_slot_gives_permit_witness :
  let w := held_by_other "bounded_semaphore.00.lock" empty_world in
  ∃ self' w' l h,
    BoundedSemaphore.acquire 1 None None two_permits w
      = (self', w', Ok (Some l)) ∧
    BoundedSemaphore.lock self' = Some l ∧ Lock.fh l = Some h ∧
    flocks w' !! h = Some (Lock.filename l, true) ∧
    sleeps (events_since w w') = 0%nat.
Proof.
  intros w.
  assert (flocks w = {[0%nat := ("bounded_semaphore.00.lock", true)]})
    as Hflocks by (vm_compute; reflexivity).
  assert (dirs w = ∅) as Hdirs by (vm_compute; reflexivity).
  apply (semaphore_free_slot_gives_permit 0 None None two_permits w
           "bounded_semaphore.01.lock").
  - reflexivity.
  - apply list_elem_of_In. vm_compute. right. left. reflexivity.
  - intros h0 e0. rewrite Hflocks. intros H.
    apply lookup_singleton_Some in H as [_ H]. discriminate H.
  - intros f Hf. rewrite Hdirs.
    change (BoundedSemaphore.get_filenames two_permits)
      with ["bounded_semaphore.00.lock"; "bounded_semaphore.01.lock"] in Hf.
    apply list_elem_of_In in Hf.
    destruct Hf as [<-|[<-|[]]];
      (split; [apply not_elem_of_empty | vm_compute; reflexivity]).
  - reflexivity.
  - reflexivity.
  - vm_compute. reflexivity.
Defined.

(** ** open_atomic: where the temporary file is made, and what is kept *)

Lemma makedirs_go_subseteq fuel : ∀ path d, d ⊆ makedirs_go fuel path d.
Proof.
  induction fuel as [|n IH]; intros path d; [done|].
  cbn [makedirs_go].
  destruct (String.eqb path ""); [done|].
  destruct (bool_decide (path ∈ d)); [done|].
  destruct (String.eqb _ path); [set_solver|].
  specialize (IH (os_path_split path).1 d). set_solver.
Qed.

Lemma makedirs_go_creates fuel path d :
  path ≠ "" → path ∈ makedirs_go (S fuel) path d.
Proof.
  intros Hne. cbn [makedirs_go].
  destruct (String.eqb_spec path ""); [done|].
  destruct (bool_decide (path ∈ d)) eqn:Hd.
  { by apply bool_decide_eq_true in Hd. }
  destruct (String.eqb _ path); set_solver.
Qed.

Lemma temp_candidates_name dir w : ∀ draws tmp rest,
  temp_candidates dir draws w = Some (tmp, rest) →
  ∃ d, d ∈ draws ∧ tmp = path_join dir ("tmp" +:+ pretty d).
Proof.
  induction draws as [|d draws IH]; intros tmp rest Hc; [done|].
  simpl in Hc.
  destruct (os_path_exists (path_join dir ("tmp" +:+ pretty d)) w).
  - apply IH in Hc as (d' & Hin & ->). exists d'.
    split; [by apply list_elem_of_further|done].
  - injection Hc as <- _. exists d. split; [apply list_elem_of_here|done].
Qed.

(** A call that reaches the [yield] has found the target absent, has its
    directory, and has made the temporary file there. *)
Lemma open_atomic_enter_unfold filename binary w w1 fh tmp :
  open_atomic_enter filename binary w = (w1, Ok (fh, tmp)) →
  let path := (os_path_split filename).1 in
  ∃ w0,
    files w !! filename = None ∧
    files w0 = files w ∧ handles w0 = handles w ∧ flocks w0 = flocks w ∧
    rng w0 = rng w ∧ (dirs w ⊆ dirs w0) ∧ (path = "" ∨ path ∈ dirs w0) ∧
    NamedTemporaryFile (if binary then "wb" else "w") path w0
      = (w1, Ok (fh, tmp)).
Proof.
  unfold open_atomic_enter. intros Hrun.
  destruct (os_path_exists filename w) eqn:Hex; [done|].
  destruct (os_path_split filename) as [path name]. cbn [fst].
  set (w0 := (if negb (String.eqb path "") && negb (os_path_isdir path w)
              then os_makedirs path w else (w, Ok tt))) in *.
  assert (∀ u, w0.2 = Ok u →
            files w0.1 = files w ∧ handles w0.1 = handles w ∧
            flocks w0.1 = flocks w ∧ rng w0.1 = rng w ∧
            (dirs w ⊆ dirs w0.1) ∧ (path = "" ∨ path ∈ dirs w0.1)) as Hw0.
  { subst w0. intros u.
    destruct (String.eqb_spec path "") as [->|Hne]; cbn [negb andb].
    { intros _. repeat split; try done. by left. }
    unfold os_path_isdir. destruct (bool_decide (path ∈ dirs w)) eqn:Hd.
    { apply bool_decide_eq_true in Hd. intros _. repeat split; try done.
      by right. }
    cbn [negb]. unfold os_makedirs.
    destruct (os_path_exists path w); [done|]. cbn [fst snd]. intros _.
    repeat split; try done.
    - apply makedirs_go_subseteq.
    - right. by apply makedirs_go_creates. }
  destruct w0 as [w0 [[]|e| |]]; try done.
  destruct (Hw0 tt eq_refl) as (Hf0 & Hh0 & Hl0 & Hr0 & Hd0 & Hp0).
  cbn [fst] in *. exists w0. repeat split; try done.
  unfold os_path_exists, os_path_isfile in Hex.
  apply orb_false_iff in Hex as [Hex _].
  apply bool_decide_eq_false in Hex.
  destruct (files w !! filename); [by destruct Hex|done].
Qed.

Lemma split_rev_suffix : ∀ l t r t',
  split_rev l t = (r, t') → r `suffix_of` l.
Proof.
  induction l as [|c l IH]; intros t r t' H; simpl in H.
  - by simplify_eq.
  - destruct (Ascii.eqb c "/"); [by simplify_eq|].
    apply IH in H. by apply suffix_cons_r.
Qed.

Lemma strip_slashes_suffix l : strip_slashes l `suffix_of` l.
Proof.
  induction l as [|c l IH]; [done|]. simpl.
  destruct (Ascii.eqb c "/"); [by apply suffix_cons_r|done].
Qed.

Lemma string_length_list s :
  String.length s = length (list_ascii_of_string s).
Proof. induction s as [|c s IH]; [done|]. simpl. by rewrite IH. Qed.

(** The head of a path is an initial part of it. *)
Lemma os_path_split_head path :
  (String.length (os_path_split path).1 <= String.length path)%nat ∧
  ((os_path_split path).1 ≠ path →
   (String.length (os_path_split path).1 < String.length path)%nat).
Proof.
  unfold os_path_split.
  destruct (split_rev (rev (list_ascii_of_string path)) [])
    as [rev_head tail] eqn:Hsplit.
  apply split_rev_suffix in Hsplit.
  set (head := match strip_slashes rev_head with
               | [] => rev_head | l => l end).
  assert (head `suffix_of` rev (list_ascii_of_string path)) as Hsuf.
  { subst head. pose proof (strip_slashes_suffix rev_head) as Hs.
    destruct (strip_slashes rev_head); [done|].
    by etransitivity. }
  cbn [fst].
  rewrite !string_length_list, list_ascii_of_string_of_list_ascii,
    length_rev.
  pose proof (suffix_length _ _ Hsuf) as Hle.
  rewrite length_rev in Hle.
  split; [done|]. intros Hne.
  destruct (decide (length head = length (list_ascii_of_string path)))
    as [Heq|]; [|lia].
  exfalso. apply Hne.
  assert (head = rev (list_ascii_of_string path)) as ->.
  { destruct Hsuf as [k Hk].
    assert (length k = 0%nat) as Hk0.
    { apply (f_equal length) in Hk.
      rewrite length_app, length_rev in Hk. lia. }
    destruct k; [|done]. by rewrite Hk. }
  by rewrite rev_involutive, string_of_list_ascii_of_string.
Qed.

(** [os.makedirs] makes the directory with every ancestor that is
    missing: directories that all had their parent still have it. *)
Lemma makedirs_go_parents_closed fuel : ∀ path d,
  (String.length path < fuel)%nat →
  parents_closed d → parents_closed (makedirs_go fuel path d).
Proof.
  induction fuel as [|n IH]; intros path d Hfuel Hd; [lia|].
  cbn [makedirs_go].
  destruct (String.eqb_spec path "") as [->|Hne]; [done|].
  destruct (bool_decide (path ∈ d)); [done|].
  destruct (os_path_split_head path) as [_ Hlt].
  destruct (String.eqb_spec (os_path_split path).1 path) as [Heq|Hneq].
  - intros p Hp. apply elem_of_union in Hp as [Hp|Hp].
    + apply elem_of_singleton in Hp as ->. by right; left.
    + destruct (Hd p Hp) as [?|[?|?]]; [by left|by right; left|].
      right; right. by apply elem_of_union_r.
  - specialize (Hlt Hneq).
    assert (parents_closed (makedirs_go n (os_path_split path).1 d)) as Hrec
      by (apply IH; [lia|done]).
    intros p Hp. apply elem_of_union in Hp as [Hp|Hp].
    + apply elem_of_singleton in Hp as ->.
      destruct (String.eqb_spec (os_path_split path).1 "") as [?|Hhead];
        [by left|].
      right; right. apply elem_of_union_r.
      destruct n as [|n]; [lia|]. by apply makedirs_go_creates.
    + destruct (Hrec p Hp) as [?|[?|?]]; [by left|by right; left|].
      right; right. by apply elem_of_union_r.
Qed.

Lemma open_atomic_enter_dirs filename binary w w1 fh tmp :
  open_atomic_enter filename binary w = (w1, Ok (fh, tmp)) →
  parents_closed (dirs w) → parents_closed (dirs w1).
Proof.
  unfold open_atomic_enter. intros Hrun Hclosed.
  destruct (os_path_exists filename w); [done|].
  destruct (os_path_split filename) as [path name].
  destruct (if negb (String.eqb path "") && negb (os_path_isdir path w)
            then os_makedirs path w else (w, Ok tt)) as [w0 r0] eqn:Hmk.
  assert (parents_closed (dirs w0)) as Hclosed0.
  { destruct (negb (String.eqb path "") && negb (os_path_isdir path w));
      [|by simplify_eq].
    unfold os_makedirs in Hmk.
    destruct (os_path_exists path w); simplify_eq.
    cbn [dirs set_dirs]. apply makedirs_go_parents_closed; [lia|done]. }
  destruct r0 as [[]|e| |]; try done.
  by apply NamedTemporaryFile_ok in Hrun as (_ & _ & _ & -> & _).
Qed.

(** X15.  When [open_atomic] reaches its [yield], the file object it
    hands to the scope is open on a new, empty file whose name is taken
    from the random source and which lies in the directory of the target;
    that directory exists by then, made with every ancestor that was
    missing (where every directory had its parent before, every
    directory has it afterwards); the target itself, unless it is that
    very name, is not there yet; every file and directory of before is
    kept, and no advisory lock is taken. *)
Theorem open_atomic_temp_file_in_target_directory
    filename binary w w1 fh tmp :
  open_atomic_enter filename binary w = (w1, Ok (fh, tmp)) →
  let path := (os_path_split filename).1 in
  (∃ d, d ∈ rng w ∧ tmp = path_join path ("tmp" +:+ pretty d)) ∧
  (path = "" ∨ path ∈ dirs w1) ∧
  (dirs w ⊆ dirs w1) ∧
  (parents_closed (dirs w) → parents_closed (dirs w1)) ∧
  files w !! tmp = None ∧ (tmp ∉ dirs w1) ∧
  files w1 = <[tmp := ""]> (files w) ∧
  (tmp ≠ filename → files w1 !! filename = None) ∧
  handles w1 = <[fh := tmp]> (handles w) ∧
  flocks w1 = flocks w.
Proof.
  intros Hrun path.
  pose proof (open_atomic_enter_dirs _ _ _ _ _ _ Hrun) as Hclosed.
  destruct (open_atomic_enter_unfold _ _ _ _ _ _ Hrun)
    as (w0 & Hex & Hf0 & Hh0 & Hl0 & Hr0 & Hd0 & Hp0 & Htemp).
  fold path in Hp0, Htemp.
  unfold NamedTemporaryFile in Htemp.
  destruct (temp_candidates path (rng w0) w0) as [[tmp' rest]|] eqn:Hc;
    [|done].
  rewrite new_handle_spec in Htemp.
  injection Htemp as <- <- <-.
  pose proof (temp_candidates_fresh _ _ _ _ _ Hc) as Hfresh.
  apply temp_candidates_name in Hc as Hname. rewrite Hr0 in Hname.
  unfold os_path_exists, os_path_isfile in Hfresh.
  apply orb_false_iff in Hfresh as [Hfile Hdir].
  apply bool_decide_eq_false in Hfile, Hdir.
  assert (files w0 !! tmp' = None) as Hnone.
  { destruct (files w0 !! tmp'); [by destruct Hfile|done]. }
  rewrite Hf0 in Hnone.
  cbn [files dirs handles flocks log set_next_handle set_handles set_files
       set_rng].
  rewrite Hf0, Hh0, Hl0.
  repeat split; try done.
  intros Hne. by rewrite lookup_insert_ne.
Qed.

Lemma open_atomic_temp_file_in_target_directory_witness :
  let w := set_rng [7%nat] empty_world in
  let w1 := (open_atomic_enter "a/b/test_file.txt" true w).1 in
  let path := (os_path_split "a/b/test_file.txt").1 in
  (path = "a/b" ∧ "a/b" ∈ dirs w1 ∧ "a" ∈ dirs w1) ∧
  (∃ d, d ∈ rng w ∧ "a/b/tmp7" = path_join path ("tmp" +:+ pretty d)) ∧
  (path = "" ∨ path ∈ dirs w1) ∧
  (dirs w ⊆ dirs w1) ∧
  (parents_closed (dirs w) → parents_closed (dirs w1)) ∧
  files w !! "a/b/tmp7" = None ∧ ("a/b/tmp7" ∉ dirs w1) ∧
  files w1 = <["a/b/tmp7" := ""]> (files w) ∧
  ("a/b/tmp7" ≠ "a/b/test_file.txt" →
   files w1 !! "a/b/test_file.txt" = None) ∧
  handles w1 = <[0%nat := "a/b/tmp7"]> (handles w) ∧
  flocks w1 = flocks w.
Proof.
  intros w w1 path.
  assert (open_atomic_enter "a/b/test_file.txt" true w
          = (w1, Ok (0%nat, "a/b/tmp7"))) as Henter
    by (vm_compute; reflexivity).
  pose proof (open_atomic_temp_file_in_target_directory
                "a/b/test_file.txt" true w w1 0%nat "a/b/tmp7" Henter)
    as Hall.
  split; [|exact Hall].
  destruct Hall as (_ & Hpath & _ & Hclosed & _).
  assert ("a/b" ∈ dirs w1) as Hleaf.
  { destruct Hpath as [Hpath|Hpath]; [discriminate Hpath|exact Hpath]. }
  split; [reflexivity|]. split; [exact Hleaf|].
  assert (parents_closed (dirs w)) as Hbefore.
  { intros p Hp. by apply elem_of_empty in Hp. }
  destruct (Hclosed Hbefore "a/b" Hleaf) as [H|[H|H]];
    [discriminate H | discriminate H | exact H].
Defined.

(** What [rename_finally_remove] does to the files. *)
Lemma rename_finally_remove_files tmp filename w w' r :
  rename_finally_remove tmp filename w = (w', r) →
  ∀ p, p ≠ tmp → p ≠ filename → files w' !! p = files w !! p.
Proof.
  unfold rename_finally_remove. intros Hrun p Hp1 Hp2.
  destruct (os_rename tmp filename w) as [w1 r1] eqn:Hren.
  destruct (os_remove tmp w1) as [w2 r2] eqn:Hrem.
  injection Hrun as <- <-.
  assert (files w1 !! p = files w !! p) as H1.
  { unfold os_rename in Hren.
    destruct (faulty FaultRename w); [by simplify_eq|].
    destruct (files w !! tmp); [|by simplify_eq].
    destruct (bool_decide (filename ∈ dirs w)); [by simplify_eq|].
    destruct (ends_with_slash filename); simplify_eq; [done|].
    simpl. by rewrite lookup_insert_ne, lookup_delete_ne. }
  rewrite <- H1. unfold os_remove in Hrem.
  destruct (faulty FaultRemove w1); [by simplify_eq|].
  destruct (files w1 !! tmp); simplify_eq; [|done].
  simpl. by rewrite lookup_delete_ne.
Qed.

(** A call that does not reach the [yield] changes no file. *)
Lemma open_atomic_enter_failed filename binary w w1 r :
  open_atomic_enter filename binary w = (w1, r) →
  (∀ x, r ≠ Ok x) → files w1 = files w.
Proof.
  unfold open_atomic_enter. intros Hrun Hr.
  destruct (os_path_exists filename w); [by simplify_eq|].
  destruct (os_path_split filename) as [path name].
  destruct (if negb (String.eqb path "") && negb (os_path_isdir path w)
            then os_makedirs path w else (w, Ok tt)) as [w0 r0] eqn:Hmk.
  assert (files w0 = files w) as Hf0.
  { destruct (negb (String.eqb path "") && negb (os_path_isdir path w));
      [|by simplify_eq].
    unfold os_makedirs in Hmk.
    destruct (os_path_exists path w); by simplify_eq. }
  destruct r0 as [[]|e| |]; try by simplify_eq.
  unfold NamedTemporaryFile in Hrun.
  destruct (temp_candidates path (rng w0) w0) as [[tmp rest]|];
    [|by simplify_eq].
  rewrite new_handle_spec in Hrun. injection Hrun as _ <-.
  exfalso. by eapply Hr.
Qed.

(** [fh.write] changes the file behind the file object only. *)
Lemma write_other_files fh data w p :
  handles w !! fh ≠ Some p → files (write fh data w) !! p = files w !! p.
Proof.
  intros Hp. unfold write. cbn [files log].
  destruct (handles w !! fh) as [path|]; [|done].
  assert (path ≠ p) by congruence.
  destruct (files w !! path); simpl; by rewrite lookup_insert_ne.
Qed.

(** X16.  [open_atomic] never loses a file that was there: when the scope
    body changes no file but the one behind the file object it is given,
    every file of before the call is there afterwards with the content it
    had, however the call ends (the assertion, the body, the flush, the
    rename or the removal failing included). *)
Theorem open_atomic_keeps_existing_files filename binary body w w' r :
  (∀ fh w1 w2 rb p,
     body fh w1 = (w2, rb) → handles w1 !! fh ≠ Some p →
     files w2 !! p = files w1 !! p) →
  open_atomic filename binary body w = (w', r) →
  ∀ p content, files w !! p = Some content → files w' !! p = Some content.
Proof.
  intros Hbody Hrun p content Hp.
  unfold open_atomic in Hrun.
  destruct (open_atomic_enter filename binary w) as [w1 r1] eqn:Henter.
  assert ((∀ x, r1 ≠ Ok x) → w' = w1 → files w' !! p = Some content)
    as Hfail.
  { intros Hr ->.
    by rewrite (open_atomic_enter_failed _ _ _ _ _ Henter Hr). }
  destruct r1 as [[fh tmp]|e| |].
  - destruct (open_atomic_enter_unfold _ _ _ _ _ _ Henter)
      as (w0 & Hex & Hf0 & Hh0 & _ & _ & _ & _ & Htemp).
    apply NamedTemporaryFile_ok in Htemp as (Hfresh & Hf1 & Hh1 & _).
    rewrite Hf0 in Hf1. rewrite Hh0 in Hh1.
    unfold os_path_exists, os_path_isfile in Hfresh.
    apply orb_false_iff in Hfresh as [Hfresh _].
    apply bool_decide_eq_false in Hfresh. rewrite Hf0 in Hfresh.
    assert (p ≠ tmp) as Hne1.
    { intros ->. apply Hfresh. by rewrite Hp. }
    assert (p ≠ filename) as Hne2 by (intros ->; congruence).
    destruct (body fh w1) as [w2 rb] eqn:Hb.
    assert (files w2 !! p = Some content) as Hp2.
    { rewrite (Hbody _ _ _ _ p Hb).
      - by rewrite Hf1, lookup_insert_ne.
      - rewrite Hh1, lookup_insert_eq. congruence. }
    destruct rb as [[]|e| |]; try by simplify_eq.
    apply open_atomic_exit_spec in Hrun
      as [(_ & _ & _ & Hrun)|(_ & -> & _)]; [|done].
    by rewrite (rename_finally_remove_files _ _ _ _ _ Hrun p).
  - apply Hfail; [done|]. by simplify_eq.
  - apply Hfail; [done|]. by simplify_eq.
  - apply Hfail; [done|]. by simplify_eq.
Qed.

Lemma open_atomic_keeps_existing_files_witness :
  let w := set_files {["other.txt" := "kept"]} (set_rng [7%nat] empty_world) in
  let run := open_atomic "test_file.txt" true write_test w in
  run.2 = Ok tt ∧
  ∀ p content, files w !! p = Some content → files run.1 !! p = Some content.
Proof.
  intros w run.
  split; [vm_compute; reflexivity|].
  apply (open_atomic_keeps_existing_files "test_file.txt" true write_test w
           run.1 run.2).
  - intros fh w1 w2 rb p [= <- _]. apply write_other_files.
  - vm_compute. reflexivity.
Defined.

(** ** How a contended acquire ends *)

(** X17.  On a file that stays locked incompatibly through another file
    object, [acquire] with a non-blocking flag and a deadline ahead ends
    in one of two ways, decided by [fail_when_locked] alone: when it is
    set, [AlreadyLocked] at once, after one call of the primitive and no
    sleep; when it is not, the generic [LockException] that carries the
    last contention error, after as many sleeps as calls of the
    primitive.  This is so where the primitive fails by contention only;
    where it fails for another reason, its exception is passed on after
    the one call, with no sleep. *)
Theorem contended_acquire_outcome
    fuel timeout check_interval fail_when_locked self w w1 h h0 e0 self' w' r :
  Lock.fh self = None →
  Lock._get_fh self w = (w1, Ok h) →
  flocks w !! h0 = Some (Lock.filename self, e0) →
  h0 ≠ next_handle w →
  Z.testbit (Lock.flags self) 1 || e0 = true →
  Z.testbit (Lock.flags self) 2 = true →
  Z.of_N (tick w) < resolved_timeout timeout self →
  0 < Z.of_N (tick w) + Z.of_N (resolved_check_interval check_interval self) →
  (Z.to_nat (resolved_timeout timeout self) < S fuel)%nat →
  Lock.acquire (S fuel) timeout check_interval fail_when_locked self w
    = (self', w', r) →
  if faulty FaultLock w
  then r = Raise fatal_error ∧
       lock_attempts (events_since w w') = 1%nat ∧
       sleeps (events_since w w') = 0%nat
  else if resolved_fail_when_locked fail_when_locked self
  then r = Raise (AlreadyLocked [ArgExn contention_error]) ∧
       lock_attempts (events_since w w') = 1%nat ∧
       sleeps (events_since w w') = 0%nat
  else r = Raise (LockException [ArgExn contention_error]) ∧
       lock_attempts (events_since w w') = sleeps (events_since w w') ∧
       (1 <= sleeps (events_since w w'))%nat.
Proof.
  intros Hfh Hopen Hheld Hne Hexcl Hnb Hahead Hstep Hfuel Hrun.
  destruct (faulty FaultLock w) eqn:Hfault.
  { destruct (acquire_fatal fuel timeout check_interval fail_when_locked
                self w w1 h Hfh Hopen Hfault Hahead)
      as (w0 & Hrun0 & _ & _ & Ht).
    rewrite Hrun0 in Hrun. injection Hrun as _ <- <-.
    by rewrite (events_since_app _ _ _ Ht). }
  pose proof (acquire_attempts_when_ahead _ _ _ _ _ _ _ _ _ _ _
                Hfh Hopen Hnb Hahead Hrun) as Hatt.
  destruct (acquire_contended _ _ _ _ _ _ _ _ _ _ _
              Hfh Hheld Hne Hexcl Hnb Hrun) as (Hnok & Hnb' & _).
  destruct (acquire_terminates (S fuel) timeout check_interval
              fail_when_locked self w Hstep Hfuel) as [Hfuel' _].
  rewrite Hrun in Hfuel'. cbn [snd] in Hfuel'.
  destruct r as [h'|e| |]; try done; [by destruct (Hnok h')|].
  apply acquire_spec in Hrun as (-> & Hcase); [|done].
  destruct Hcase as [[_ Hopen']|[(_ & _ & _ & Hcase)|(Hfault' & _)]];
    [congruence| |congruence].
  assert (∀ evs, trace w' = trace w ++ evs → events_since w w' = evs) as Hev
    by (intros evs; apply events_since_app).
  destruct Hcase as [(k & Hk0 & -> & Ht)|(Hf & -> & Ht)].
  - rewrite (Hev _ Ht) in Hatt |- *.
    change (EvOpen ?a ?b ?c :: ?l) with ([EvOpen a b c] ++ l) in Hatt |- *.
    rewrite !lock_attempts_app, !sleeps_app, lock_attempts_retries,
      sleeps_retries in *.
    cbn [lock_attempts sleeps List.filter is_lock_attempt is_sleep length]
      in Hatt |- *.
    destruct (resolved_fail_when_locked fail_when_locked self).
    + specialize (Hk0 eq_refl). subst k. simpl in Hatt. lia.
    + destruct k as [|k]; [simpl in Hatt; lia|]. split; [done|]. lia.
  - rewrite Hf. rewrite (Hev _ Ht). done.
Qed.

Lemma contended_acquire_outcome_witness :
  let w := held_by_other "f" empty_world in
  let run := Lock.acquire 101 (Some 100) None None (Lock.new "f") w in
  run.2 = Raise (LockException [ArgExn contention_error]) ∧
  lock_attempts (events_since w run.1.2) = sleeps (events_since w run.1.2) ∧
  (1 <= sleeps (events_since w run.1.2))%nat.
Proof.
  intros w run.
  assert (Lock.acquire 101 (Some 100) None None (Lock.new "f") w
          = (run.1.1, run.1.2, run.2)) as Hrun by (vm_compute; reflexivity).
  assert (Lock._get_fh (Lock.new "f") w
          = ((Lock._get_fh (Lock.new "f") w).1, Ok 1%nat)) as Hopen
    by (vm_compute; reflexivity).
  assert (flocks w !! 0%nat = Some (Lock.filename (Lock.new "f"), true))
    as Hheld by (vm_compute; reflexivity).
  assert (0%nat ≠ next_handle w) as Hne by (vm_compute; discriminate).
  assert (Z.of_N (tick w) < resolved_timeout (Some 100) (Lock.new "f"))
    as Hahead by (vm_compute; reflexivity).
  assert (0 < Z.of_N (tick w)
              + Z.of_N (resolved_check_interval None (Lock.new "f")))
    as Hstep by (vm_compute; reflexivity).
  assert (Z.to_nat (resolved_timeout (Some 100%Z) (Lock.new "f")) < 101)%nat
    as Hfuel by (vm_compute; lia).
  exact (contended_acquire_outcome 100 (Some 100) None None (Lock.new "f")
           w _ 1%nat 0%nat true run.1.1 run.1.2 run.2
           eq_refl Hopen Hheld Hne eq_refl eq_refl Hahead Hstep Hfuel Hrun).
Defined.

(** ** The life of a temporary file lock *)



